(** * The replica-side durability monitor of kv_engine

    A shallow embedding of
    [engines/ep/src/durability/passive_durability_monitor.cc]
    (class [PassiveDurabilityMonitor] and its inner [State]) and of the
    rollback decision of [FailoverTable], followed by the properties that
    the specification states about them.

    Conventions of the embedding.
    - [int64_t], [uint64_t] and [size_t] values are integers in [Z]; every
      cast and every increment that can wrap is written out with
      [to_int64], [to_uint64] and [size_t_incr].
    - [trackedWrites] is a [std::list<SyncWrite>]; it is a Rocq list, the
      head being [begin()].  An iterator is the index of the node it
      designates, [None] standing for [end()].  List iterators stay on
      their node when another node is erased, so erasing the node at
      index [i] moves every iterator behind [i] one index down
      ([eraseTracked]).
    - [receivedSnapshotEnds] is a [std::queue]; its front is the head.
    - A member function is a computation in the monad [Exc S], which
      threads the object it mutates and stops at the first exception,
      keeping the object as it was when the exception was thrown. *)

From Stdlib Require Import ZArith String Bool Lia Sorted.

From stdpp Require Import base list.

Local Open Scope Z_scope.

(** ** Machine integers *)

Definition to_uint64 (z : Z) : Z := z mod 2 ^ 64.

Definition to_int64 (z : Z) : Z := (z + 2 ^ 63) mod 2 ^ 64 - 2 ^ 63.

(** [n++] on a [size_t] counter. *)
Definition size_t_incr (n : Z) : Z := (n + 1) mod 2 ^ 64.

(** ** Exceptions and the state-and-exception monad *)

(** The exceptions that leave the monitor.  [invalid_argument] and
    [logic_error] carry the fixed part of the text handed to
    [throwException]; [fail_fast] is a failed [Expects]; [out_of_fuel] is
    not a C++ exception: it marks a loop of the embedding that was given
    too few iterations, and [updateHighPreparedSeqno_fuel] and
    [checkForAndRemovePrepares_fuel] show that it never occurs. *)
Inductive exception : Type :=
  | invalid_argument (what : string)
  | logic_error (what : string)
  | fail_fast
  | out_of_fuel.

Inductive outcome (A : Type) : Type :=
  | Returned (a : A)
  | Thrown (e : exception).

Arguments Returned {A} a.

Arguments Thrown {A} e.

Definition Exc (S A : Type) : Type := S -> outcome A * S.

Definition ret {S A} (a : A) : Exc S A := fun s => (Returned a, s).

Definition bind {S A B} (c : Exc S A) (k : A -> Exc S B) : Exc S B :=
  fun s =>
    match c s with
    | (Returned a, s') => k a s'
    | (Thrown e, s') => (Thrown e, s')
    end.

Definition throw {S A} (e : exception) : Exc S A := fun s => (Thrown e, s).

Definition get {S} : Exc S S := fun s => (Returned s, s).

Definition modify {S} (f : S -> S) : Exc S unit := fun s => (Returned tt, f s).

(** Runs a computation on a part of the object: [get_part] reads the part
    and [set_part] stores it back, also when the computation throws. *)
Definition zoom {S T A} (get_part : S -> T) (set_part : T -> S -> S)
    (c : Exc T A) : Exc S A :=
  fun s => let (r, t) := c (get_part s) in (r, set_part t s).

Declare Scope exc_scope.

Delimit Scope exc_scope with exc.

Notation "x <- c ;; k" := (bind c (fun x => k))
  (at level 100, c at next level, right associativity) : exc_scope.

Notation "c ;; k" := (bind c (fun _ => k))
  (at level 100, right associativity) : exc_scope.

Local Open Scope exc_scope.

(** [Expects(cond)] *)
Definition Expects {S} (cond : bool) : Exc S unit :=
  if cond then ret tt else throw fail_fast.

Definition when {S} (cond : bool) (c : Exc S unit) : Exc S unit :=
  if cond then c else ret tt.


(** ** Durability requirements *)

(** Modelled from the spec: the enumeration [cb::durability::Level], whose
    declaration is not part of the sources at hand.  The specification
    lists the levels as None, Majority, MajorityAndPersistOnMaster and
    PersistToMajority, in increasing order. *)
Module Level.
Inductive t : Type :=
  | None
  | Majority
  | MajorityAndPersistOnMaster
  | PersistToMajority.

Definition to_Z (l : t) : Z :=
  match l with
  | None => 0
  | Majority => 1
  | MajorityAndPersistOnMaster => 2
  | PersistToMajority => 3
  end.

Definition eqb (a b : t) : bool := to_Z a =? to_Z b.
Definition leb (a b : t) : bool := to_Z a <=? to_Z b.
End Level.

(** Modelled from the spec: [cb::durability::Timeout], not part of the
    sources at hand: a duration, the sentinel for infinite, or the default
    sentinel that the active node has to replace by an explicit value. *)
Inductive Timeout : Type :=
  | BucketDefault
  | Infinity
  | Millis (ms : Z).

Definition isDefault (t : Timeout) : bool :=
  match t with BucketDefault => true | _ => false end.

Record Requirements : Type := mkRequirements {
  getLevel : Level.t;
  getTimeout : Timeout
}.

(** ** Items and tracked SyncWrites *)

Definition StoredDocKey : Type := string.

Definition key_eqb (a b : StoredDocKey) : bool := String.eqb a b.

(** The part of a [queued_item] that the monitor reads. *)
Record Item : Type := mkItem {
  itemKey : StoredDocKey;
  itemBySeqno : Z;
  itemDurabilityReqs : Requirements
}.

(** A [SyncWrite]: the item it was built from and its completed flag. *)
Record SyncWrite : Type := mkSyncWrite {
  item : Item;
  isCompleted : bool
}.

Definition getKey (w : SyncWrite) : StoredDocKey := itemKey (item w).

Definition getBySeqno (w : SyncWrite) : Z := itemBySeqno (item w).

Definition getDurabilityReqs (w : SyncWrite) : Requirements :=
  itemDurabilityReqs (item w).

Definition setCompleted (w : SyncWrite) : SyncWrite := mkSyncWrite (item w) true.

(** What [trackedWrites.emplace_back(cookie, item, ...)] constructs. *)
Definition newSyncWrite (i : Item) : SyncWrite := mkSyncWrite i false.

Abbreviation Container := (list SyncWrite).

Abbreviation iterator := (option nat).

(** ** Cursors, snapshot ends and the monitor state *)

Record Position : Type := mkPosition {
  it : iterator;
  lastWriteSeqno : Z
}.

Inductive CheckpointType : Type := Disk | Memory.

Record SnapshotEnd : Type := mkSnapshotEnd {
  seqno : Z;
  type : CheckpointType
}.

Record State : Type := mkState {
  trackedWrites : Container;
  highPreparedSeqno : Position;
  highCompletedSeqno : Position;
  receivedSnapshotEnds : list SnapshotEnd;
  totalAccepted : Z;
  totalCommitted : Z;
  totalAborted : Z
}.

Definition set_trackedWrites (tw : Container) (s : State) : State :=
  mkState tw (highPreparedSeqno s) (highCompletedSeqno s)
    (receivedSnapshotEnds s) (totalAccepted s) (totalCommitted s)
    (totalAborted s).

Definition set_highPreparedSeqno (p : Position) (s : State) : State :=
  mkState (trackedWrites s) p (highCompletedSeqno s)
    (receivedSnapshotEnds s) (totalAccepted s) (totalCommitted s)
    (totalAborted s).

Definition set_highCompletedSeqno (p : Position) (s : State) : State :=
  mkState (trackedWrites s) (highPreparedSeqno s) p
    (receivedSnapshotEnds s) (totalAccepted s) (totalCommitted s)
    (totalAborted s).

Definition set_receivedSnapshotEnds (q : list SnapshotEnd) (s : State) : State :=
  mkState (trackedWrites s) (highPreparedSeqno s) (highCompletedSeqno s)
    q (totalAccepted s) (totalCommitted s) (totalAborted s).

Definition set_totalAccepted (n : Z) (s : State) : State :=
  mkState (trackedWrites s) (highPreparedSeqno s) (highCompletedSeqno s)
    (receivedSnapshotEnds s) n (totalCommitted s) (totalAborted s).

Definition set_totalCommitted (n : Z) (s : State) : State :=
  mkState (trackedWrites s) (highPreparedSeqno s) (highCompletedSeqno s)
    (receivedSnapshotEnds s) (totalAccepted s) n (totalAborted s).

Definition set_totalAborted (n : Z) (s : State) : State :=
  mkState (trackedWrites s) (highPreparedSeqno s) (highCompletedSeqno s)
    (receivedSnapshotEnds s) (totalAccepted s) (totalCommitted s) n.

Definition set_it (i : iterator) (p : Position) : Position :=
  mkPosition i (lastWriteSeqno p).

(** Modelled from the spec: the assignment operator of the monotonic
    integer type of [Position::lastWriteSeqno], declared in headers that
    are not part of the sources at hand.  The specification has every
    [lastWriteSeqno] assignment guarded so as to trap any attempt to move
    backwards, and counts monotonicity violations among the logic
    violations; a value equal to the current one is accepted (the cursors
    are monotone non-decreasing). *)
Definition monotonic_assign {S} (current new : Z) : Exc S Z :=
  if new <? current
  then throw (logic_error "Monotonic invariant failed")
  else ret new.

(** ** Iterators over [trackedWrites] *)

Definition begin_ (tw : Container) : iterator :=
  match tw with [] => None | _ :: _ => Some 0%nat end.

(** [std::next] of an iterator that is not [end()]. *)
Definition std_next (tw : Container) (i : nat) : iterator :=
  if (S i <? length tw)%nat then Some (S i) else None.

Definition deref (tw : Container) (i : iterator) : option SyncWrite :=
  match i with Some n => tw !! n | None => None end.

Definition iterator_eqb (a b : iterator) : bool :=
  match a, b with
  | Some n, Some m => (n =? m)%nat
  | None, None => true
  | _, _ => false
  end.

(** [State::getIteratorNext] *)
Definition getIteratorNext (tw : Container) (i : iterator) : iterator :=
  match i with
  | None => begin_ tw
  | Some n => std_next tw n
  end.

(** The index that an iterator takes when the node at index [erased]
    leaves the list.  The code sets [highCompletedSeqno.it] and
    [highPreparedSeqno.it] to [end()] before it erases the node they
    designate, so the case [n = erased] does not arise for them. *)
Definition reindex (erased : nat) (i : iterator) : iterator :=
  match i with
  | Some n => if (erased <? n)%nat then Some (Nat.pred n) else Some n
  | None => None
  end.

(** [trackedWrites.erase(itr)] for the node at index [i]. *)
Definition eraseTracked (i : nat) (s : State) : State :=
  mkState (delete i (trackedWrites s))
    (set_it (reindex i (it (highPreparedSeqno s))) (highPreparedSeqno s))
    (set_it (reindex i (it (highCompletedSeqno s))) (highCompletedSeqno s))
    (receivedSnapshotEnds s) (totalAccepted s) (totalCommitted s)
    (totalAborted s).

(** [if (itr == highCompletedSeqno.it) highCompletedSeqno.it = end();
     if (itr == highPreparedSeqno.it) highPreparedSeqno.it = end();] *)
Definition resetIteratorsAt (itr : iterator) (s : State) : State :=
  let s1 :=
    if iterator_eqb itr (it (highCompletedSeqno s))
    then set_highCompletedSeqno (set_it None (highCompletedSeqno s)) s
    else s in
  if iterator_eqb itr (it (highPreparedSeqno s1))
  then set_highPreparedSeqno (set_it None (highPreparedSeqno s1)) s1
  else s1.

(** The first node at or after index [i] whose key is [key]: the loops
    [while (itr != end() && itr->getKey() != key) itr = getIteratorNext(itr)]
    of [addSyncWrite] and [completeSyncWrite], started at [begin()]. *)
Fixpoint findKeyFrom (key : StoredDocKey) (tw : Container) (i : nat) : iterator :=
  match tw with
  | [] => None
  | w :: tw' =>
      if key_eqb (getKey w) key then Some i else findKeyFrom key tw' (S i)
  end.

Definition findKey (key : StoredDocKey) (tw : Container) : iterator :=
  findKeyFrom key tw 0%nat.

(** ** [State::checkForAndRemovePrepares] *)

Fixpoint removePreparesLoop (fuel : nat) (fence : Z) : Exc State unit :=
  match fuel with
  | O => throw out_of_fuel
  | S fuel' =>
      s <- get ;;
      match trackedWrites s with
      | [] => ret tt
      | w :: _ =>
          if getBySeqno w <=? fence then
            modify (resetIteratorsAt (Some 0%nat)) ;;
            modify (eraseTracked 0%nat) ;;
            removePreparesLoop fuel' fence
          else ret tt
      end
  end.

Definition checkForAndRemovePrepares : Exc State unit :=
  s <- get ;;
  match trackedWrites s with
  | [] => ret tt
  | _ :: _ =>
      let fence := Z.min (lastWriteSeqno (highCompletedSeqno s))
                         (lastWriteSeqno (highPreparedSeqno s)) in
      removePreparesLoop (S (length (trackedWrites s))) fence
  end.

(** ** [State::updateHighPreparedSeqno] *)

(** The lambda [inSnapshot]: both seqnos are compared as [uint64_t]. *)
Definition inSnapshot (tw : Container) (snapshotEndSeqno : Z)
    (prepareItr : iterator) : bool :=
  match deref tw prepareItr with
  | Some w => to_uint64 (getBySeqno w) <=? to_uint64 snapshotEndSeqno
  | None => false
  end.

Definition maxLevelCanAdvanceOver (snapshotFullyPersisted isDiskSnapshot : bool)
    : Level.t :=
  if snapshotFullyPersisted then Level.PersistToMajority
  else if negb isDiskSnapshot then Level.MajorityAndPersistOnMaster
  else Level.None.

(** [highPreparedSeqno.lastWriteSeqno = v; highPreparedSeqno.it = i;] *)
Definition advanceHighPreparedSeqnoTo (i : iterator) (v : Z) : Exc State unit :=
  s <- get ;;
  v' <- monotonic_assign (lastWriteSeqno (highPreparedSeqno s)) v ;;
  modify (set_highPreparedSeqno (mkPosition i v')).

(** The [for] loop that advances the HPS inside one snapshot. *)
Fixpoint advanceLoop (fuel : nat) (snapshotEndSeqno : Z) (maxLevel : Level.t)
    : Exc State unit :=
  match fuel with
  | O => throw out_of_fuel
  | S fuel' =>
      s <- get ;;
      let next := getIteratorNext (trackedWrites s) (it (highPreparedSeqno s)) in
      match deref (trackedWrites s) next with
      | Some w =>
          if inSnapshot (trackedWrites s) snapshotEndSeqno next
             && Level.leb (getLevel (getDurabilityReqs w)) maxLevel
          then
            advanceHighPreparedSeqnoTo next (getBySeqno w) ;;
            advanceLoop fuel' snapshotEndSeqno maxLevel
          else ret tt
      | None => ret tt
      end
  end.

(** One pass through the body of [while (!receivedSnapshotEnds.empty())]
    for the snapshot end at the front of the queue; the result tells
    whether the loop goes on ([true]: the front was popped) or breaks. *)
Definition processSnapshotEnd (persistenceSeqno : Z) (snapshotEnd : SnapshotEnd)
    : Exc State bool :=
  let snapshotFullyPersisted := seqno snapshotEnd <=? to_int64 persistenceSeqno in
  let isDiskSnapshot :=
    match type snapshotEnd with Disk => true | Memory => false end in
  let maxLevel := maxLevelCanAdvanceOver snapshotFullyPersisted isDiskSnapshot in
  s <- get ;;
  when (negb (match trackedWrites s with [] => true | _ => false end))
    (advanceLoop (S (length (trackedWrites s))) (seqno snapshotEnd) maxLevel) ;;
  when (isDiskSnapshot && snapshotFullyPersisted)
    (s <- get ;;
     v <- monotonic_assign (lastWriteSeqno (highPreparedSeqno s))
            (seqno snapshotEnd) ;;
     modify (set_highPreparedSeqno (mkPosition (it (highPreparedSeqno s)) v))) ;;
  s <- get ;;
  if (isDiskSnapshot && negb snapshotFullyPersisted)
     || inSnapshot (trackedWrites s) (seqno snapshotEnd)
          (getIteratorNext (trackedWrites s) (it (highPreparedSeqno s)))
  then ret false
  else
    modify (fun s => set_receivedSnapshotEnds (tail (receivedSnapshotEnds s)) s) ;;
    ret true.

Fixpoint snapshotEndsLoop (fuel : nat) (persistenceSeqno : Z) : Exc State unit :=
  match fuel with
  | O => throw out_of_fuel
  | S fuel' =>
      s <- get ;;
      match receivedSnapshotEnds s with
      | [] => ret tt
      | snapshotEnd :: _ =>
          continue <- processSnapshotEnd persistenceSeqno snapshotEnd ;;
          if continue then snapshotEndsLoop fuel' persistenceSeqno else ret tt
      end
  end.

(** [persistenceSeqno] is what [pdm.vb.getPersistenceSeqno()] returns
    during the call. *)
Definition updateHighPreparedSeqno (persistenceSeqno : Z) : Exc State unit :=
  s <- get ;;
  let prevHPS := lastWriteSeqno (highPreparedSeqno s) in
  snapshotEndsLoop (S (length (receivedSnapshotEnds s))) persistenceSeqno ;;
  s <- get ;;
  if negb (lastWriteSeqno (highPreparedSeqno s) =? prevHPS) then
    Expects (prevHPS <? lastWriteSeqno (highPreparedSeqno s)) ;;
    checkForAndRemovePrepares
  else ret tt.

(** ** The owning VBucket and the monitor object *)

(** What the monitor reads from and sends to its [VBucket]:
    [isReceivingDiskSnapshot()], [getPersistenceSeqno()], and the
    arguments of the calls of [sendSeqnoAck], the latest first. *)
Record VBucket : Type := mkVBucket {
  isReceivingDiskSnapshot : bool;
  getPersistenceSeqno : Z;
  seqnoAcksSent : list Z
}.

Record PassiveDurabilityMonitor : Type := mkPDM {
  vb : VBucket;
  state : State;
  seqnoToAck : Z
}.

Definition set_vb (v : VBucket) (pdm : PassiveDurabilityMonitor) :=
  mkPDM v (state pdm) (seqnoToAck pdm).

Definition set_state (s : State) (pdm : PassiveDurabilityMonitor) :=
  mkPDM (vb pdm) s (seqnoToAck pdm).

Definition set_seqnoToAck (n : Z) (pdm : PassiveDurabilityMonitor) :=
  mkPDM (vb pdm) (state pdm) n.

(** [vb.sendSeqnoAck(n)] *)
Definition vb_sendSeqnoAck (n : Z) (v : VBucket) : VBucket :=
  mkVBucket (isReceivingDiskSnapshot v) (getPersistenceSeqno v)
    (n :: seqnoAcksSent v).

(** A computation under [state.wlock()]. *)
Definition locked {A} (c : Exc State A) : Exc PassiveDurabilityMonitor A :=
  zoom state set_state c.

Definition getHighPreparedSeqno (pdm : PassiveDurabilityMonitor) : Z :=
  lastWriteSeqno (highPreparedSeqno (state pdm)).

Definition getHighCompletedSeqno (pdm : PassiveDurabilityMonitor) : Z :=
  lastWriteSeqno (highCompletedSeqno (state pdm)).

Definition getNumTracked (pdm : PassiveDurabilityMonitor) : nat :=
  length (trackedWrites (state pdm)).

Definition getNumAccepted (pdm : PassiveDurabilityMonitor) : Z :=
  totalAccepted (state pdm).

Definition getNumCommitted (pdm : PassiveDurabilityMonitor) : Z :=
  totalCommitted (state pdm).

Definition getNumAborted (pdm : PassiveDurabilityMonitor) : Z :=
  totalAborted (state pdm).

(** [getHighestTrackedSeqno]: the seqno of [trackedWrites.back()], or 0
    when nothing is tracked. *)
Definition getHighestTrackedSeqno (pdm : PassiveDurabilityMonitor) : Z :=
  match trackedWrites (state pdm) with
  | [] => 0
  | w :: tw => getBySeqno (List.last tw w)
  end.

(** *** Constructors *)

Definition newState : State :=
  mkState [] (mkPosition None 0) (mkPosition None 0) [] 0 0 0.

(** [PassiveDurabilityMonitor(VBucket& vb)] *)
Definition new (v : VBucket) : PassiveDurabilityMonitor := mkPDM v newState 0.

(** [PassiveDurabilityMonitor(vb, highPreparedSeqno, highCompletedSeqno)];
    [reset] stores the value without the monotonicity check. *)
Definition newAt (v : VBucket) (hps hcs : Z) : PassiveDurabilityMonitor :=
  let pdm := new v in
  set_state
    (set_highCompletedSeqno (mkPosition (it (highCompletedSeqno (state pdm))) hcs)
       (set_highPreparedSeqno (mkPosition (it (highPreparedSeqno (state pdm))) hps)
          (state pdm)))
    pdm.

(** The body of the loop over [outstandingPrepares] in the third
    constructor. *)
Definition trackOutstanding (hps hcs : Z) (s : State) (prepare : Item) : State :=
  let s1 := set_trackedWrites (trackedWrites s ++ [newSyncWrite prepare]) s in
  let lastIt := Some (Nat.pred (length (trackedWrites s1))) in
  let s2 :=
    if itemBySeqno prepare <=? hps
    then set_highPreparedSeqno (set_it lastIt (highPreparedSeqno s1)) s1
    else s1 in
  if itemBySeqno prepare <=? hcs
  then set_highCompletedSeqno (set_it lastIt (highCompletedSeqno s2)) s2
  else s2.

(** [PassiveDurabilityMonitor(vb, highPreparedSeqno, highCompletedSeqno,
    outstandingPrepares)] *)
Definition newWithPrepares (v : VBucket) (hps hcs : Z)
    (outstandingPrepares : list Item) : PassiveDurabilityMonitor :=
  let pdm := newAt v hps hcs in
  set_state (fold_left (trackOutstanding hps hcs) outstandingPrepares (state pdm))
    pdm.

(** *** [addSyncWrite] *)

(** The part of [addSyncWrite] that runs under the state lock.
    [CB_DEVELOPMENT_ASSERTS] is the build flag of that name. *)
Definition addSyncWrite_locked (CB_DEVELOPMENT_ASSERTS : bool) (i : Item)
    (overwritingPrepareSeqno : option Z) : Exc State unit :=
  match overwritingPrepareSeqno with
  | Some overwritten =>
      s <- get ;;
      let itr := findKey (itemKey i) (trackedWrites s) in
      match deref (trackedWrites s) itr, itr with
      | Some w, Some n =>
          Expects (getBySeqno w =? overwritten) ;;
          modify (resetIteratorsAt itr) ;;
          modify (eraseTracked n)
      | _, _ => ret tt
      end
  | None => ret tt
  end ;;
  when CB_DEVELOPMENT_ASSERTS
    (s <- get ;;
     match List.find
             (fun write => negb (isCompleted write)
                           && key_eqb (getKey write) (itemKey i))
             (trackedWrites s) with
     | Some _ => throw (logic_error "Found SyncWrite")
     | None => ret tt
     end) ;;
  modify (fun s => set_trackedWrites (trackedWrites s ++ [newSyncWrite i]) s) ;;
  modify (fun s => set_totalAccepted (size_t_incr (totalAccepted s)) s).

Definition addSyncWrite (CB_DEVELOPMENT_ASSERTS : bool) (i : Item)
    (overwritingPrepareSeqno : option Z) : Exc PassiveDurabilityMonitor unit :=
  let durReq := itemDurabilityReqs i in
  when (Level.eqb (getLevel durReq) Level.None)
    (throw (invalid_argument "Level::None")) ;;
  when (isDefault (getTimeout durReq))
    (throw (invalid_argument "timeout is default (explicit value should have been specified by Active node)")) ;;
  locked (addSyncWrite_locked CB_DEVELOPMENT_ASSERTS i overwritingPrepareSeqno).

(** *** Acknowledgements *)

Definition storeSeqnoAck (prevHps newHps : Z) : Exc PassiveDurabilityMonitor unit :=
  when (negb (prevHps =? newHps))
    (pdm <- get ;;
     when (seqnoToAck pdm <? newHps) (modify (set_seqnoToAck newHps))).

Definition sendSeqnoAck : Exc PassiveDurabilityMonitor unit :=
  pdm <- get ;;
  when (negb (seqnoToAck pdm =? 0))
    (modify (fun pdm => set_vb (vb_sendSeqnoAck (seqnoToAck pdm) (vb pdm)) pdm)) ;;
  modify (set_seqnoToAck 0).

(** The state locking scope shared by [notifySnapshotEndReceived] and
    [notifyLocalPersistence]: run [updateHighPreparedSeqno], then store
    the seqno to acknowledge. *)
Definition updateAndStoreAck : Exc PassiveDurabilityMonitor unit :=
  pdm <- get ;;
  let prevHps := getHighPreparedSeqno pdm in
  locked (updateHighPreparedSeqno (getPersistenceSeqno (vb pdm))) ;;
  pdm' <- get ;;
  storeSeqnoAck prevHps (getHighPreparedSeqno pdm').

(** The state locking scope of [notifySnapshotEndReceived]. *)
Definition notifySnapshotEndReceived_locked (snapEnd : Z)
    : Exc PassiveDurabilityMonitor unit :=
  pdm <- get ;;
  locked (modify (fun s =>
    set_receivedSnapshotEnds
      (receivedSnapshotEnds s ++
       [mkSnapshotEnd (to_int64 snapEnd)
          (if isReceivingDiskSnapshot (vb pdm) then Disk else Memory)]) s)) ;;
  updateAndStoreAck.

(** [notifySnapshotEndReceived]; the hook
    [notifySnapEndSeqnoAckPreProcessHook], which only tests set, is empty. *)
Definition notifySnapshotEndReceived (snapEnd : Z)
    : Exc PassiveDurabilityMonitor unit :=
  notifySnapshotEndReceived_locked snapEnd ;;
  sendSeqnoAck.

Definition notifyLocalPersistence : Exc PassiveDurabilityMonitor unit :=
  updateAndStoreAck ;;
  sendSeqnoAck.

(** *** [completeSyncWrite] *)

Inductive Resolution : Type := Commit | Abort | CompletionWasDeduped.

(** The prepare that a completion is matched against: the one after the
    HCS iterator when completions are ordered, else the first one with the
    key. *)
Definition completionCandidate (enforceOrderedCompletion : bool)
    (key : StoredDocKey) (s : State) : iterator :=
  if enforceOrderedCompletion
  then getIteratorNext (trackedWrites s) (it (highCompletedSeqno s))
  else findKey key (trackedWrites s).

Definition prepareSeqnoDiffers (w : SyncWrite) (prepareSeqno : option Z) : bool :=
  match prepareSeqno with
  | Some p => negb (getBySeqno w =? to_int64 p)
  | None => false
  end.

(** [next->setCompleted()] for the node at index [n]. *)
Definition markCompleted (n : nat) (s : State) : State :=
  set_trackedWrites (alter setCompleted n (trackedWrites s)) s.

Definition countResolution (res : Resolution) (s : State) : State :=
  match res with
  | Commit => set_totalCommitted (size_t_incr (totalCommitted s)) s
  | Abort => set_totalAborted (size_t_incr (totalAborted s)) s
  | CompletionWasDeduped => s
  end.

Definition completeSyncWrite_locked (enforceOrderedCompletion : bool)
    (key : StoredDocKey) (res : Resolution) (prepareSeqno : option Z)
    : Exc State unit :=
  s <- get ;;
  when (match trackedWrites s with [] => true | _ => false end)
    (throw (logic_error "No tracked, but received")) ;;
  let next := completionCandidate enforceOrderedCompletion key s in
  match deref (trackedWrites s) next, next with
  | Some w, Some n =>
      when (negb (key_eqb (getKey w) key))
        (throw (logic_error "Pending resolution, but received unexpected")) ;;
      when (prepareSeqnoDiffers w prepareSeqno)
        (throw (logic_error "Pending resolution, but received unexpected, different prepare seqno")) ;;
      when (enforceOrderedCompletion
            || (lastWriteSeqno (highCompletedSeqno s) <? getBySeqno w))
        (v <- monotonic_assign (lastWriteSeqno (highCompletedSeqno s))
                (getBySeqno w) ;;
         modify (set_highCompletedSeqno (mkPosition next v))) ;;
      Expects (negb (isCompleted w)) ;;
      modify (markCompleted n) ;;
      checkForAndRemovePrepares ;;
      modify (countResolution res)
  | _, _ =>
      throw (logic_error "No Prepare waiting for completion, but received")
  end.

Definition completeSyncWrite (key : StoredDocKey) (res : Resolution)
    (prepareSeqno : option Z) : Exc PassiveDurabilityMonitor unit :=
  pdm <- get ;;
  let enforceOrderedCompletion := negb (isReceivingDiskSnapshot (vb pdm)) in
  locked (completeSyncWrite_locked enforceOrderedCompletion key res prepareSeqno).

(** ** Sequences of operations *)

(** The calls that reach the monitor, and the two changes of its VBucket
    that it can observe. *)
Inductive Operation : Type :=
  | AddSyncWrite (i : Item) (overwritingPrepareSeqno : option Z)
  | CompleteSyncWrite (key : StoredDocKey) (res : Resolution)
      (prepareSeqno : option Z)
  | NotifySnapshotEndReceived (snapEnd : Z)
  | NotifyLocalPersistence
  | NotifySnapshotEndReceivedLocked (snapEnd : Z)
  | NotifyLocalPersistenceLocked
  | SendSeqnoAck
  | VbReceivingDiskSnapshot (disk : bool)
  | VbPersisted (persistenceSeqno : Z).

Definition perform (CB_DEVELOPMENT_ASSERTS : bool) (op : Operation)
    : Exc PassiveDurabilityMonitor unit :=
  match op with
  | AddSyncWrite i o => addSyncWrite CB_DEVELOPMENT_ASSERTS i o
  | CompleteSyncWrite key res p => completeSyncWrite key res p
  | NotifySnapshotEndReceived snapEnd => notifySnapshotEndReceived snapEnd
  | NotifyLocalPersistence => notifyLocalPersistence
  | NotifySnapshotEndReceivedLocked snapEnd =>
      notifySnapshotEndReceived_locked snapEnd
  | NotifyLocalPersistenceLocked => updateAndStoreAck
  | SendSeqnoAck => sendSeqnoAck
  | VbReceivingDiskSnapshot disk =>
      modify (fun pdm =>
        set_vb (mkVBucket disk (getPersistenceSeqno (vb pdm))
                  (seqnoAcksSent (vb pdm))) pdm)
  | VbPersisted n =>
      modify (fun pdm =>
        set_vb (mkVBucket (isReceivingDiskSnapshot (vb pdm)) n
                  (seqnoAcksSent (vb pdm))) pdm)
  end.

(** The monitor after an operation, whether it returned or threw. *)
Definition after (CB_DEVELOPMENT_ASSERTS : bool) (op : Operation)
    (pdm : PassiveDurabilityMonitor) : PassiveDurabilityMonitor :=
  snd (perform CB_DEVELOPMENT_ASSERTS op pdm).

(** The monitor after a sequence of operations, the first one first. *)
Definition run (CB_DEVELOPMENT_ASSERTS : bool) (ops : list Operation)
    (pdm : PassiveDurabilityMonitor) : PassiveDurabilityMonitor :=
  fold_left (fun pdm op => after CB_DEVELOPMENT_ASSERTS op pdm) ops pdm.

(** ** The failover table *)

Module FailoverTable.

(** [failover_entry_t] *)
Record failover_entry_t : Type := mkEntry {
  vb_uuid : Z;
  by_seqno : Z
}.

(** [table_t]: the entries, the newest first. *)
Abbreviation table_t := (list failover_entry_t).

(** The entry of [uuid] and the entry above it, that is the next newer
    one; [newer] is the entry above the head of [table]. *)
Fixpoint findBranch (table : table_t) (uuid : Z)
    (newer : option failover_entry_t)
    : option (failover_entry_t * option failover_entry_t) :=
  match table with
  | [] => None
  | e :: rest =>
      if vb_uuid e =? uuid then Some (e, newer)
      else findBranch rest uuid (Some e)
  end.

(** What [needsRollback] returns and what it stores through
    [rollback_seqno]. *)
Record Verdict : Type := mkVerdict {
  rollback : bool;
  reason : string;
  rollback_seqno : option Z
}.

(** Modelled from the spec: the body of [FailoverTable::needsRollback],
    of which the sources at hand hold the declaration only
    (failover-table.h).  The specification gives the algorithm as:
    (1) if [start == 0] and not [strict], no rollback; (2) if [vb_uuid]
    is not in the table, rollback to 0; (3) [branchEnd] is the seqno of
    the next entry above that of [vb_uuid], or [cur] if that entry is
    the head; (4) if [start] lies in [[entry.bySeqno, branchEnd]], the
    interval [[snap_start, snap_end]] lies inside the same branch and
    [start >= purge], no rollback; (5) otherwise rollback to
    [min(branchEnd, snap_start)], lowered so as not to exceed
    [maxCollectionHighSeqno] when one is given. *)
Definition needsRollback (table : table_t)
    (start_seqno cur_seqno uuid snap_start_seqno snap_end_seqno
     purge_seqno : Z) (strictVbUuidMatch : bool)
    (maxCollectionHighSeqno : option Z) : Verdict :=
  if (start_seqno =? 0) && negb strictVbUuidMatch
  then mkVerdict false "" None
  else
    match findBranch table uuid None with
    | None => mkVerdict true "vBucket UUID not found in failover table" (Some 0)
    | Some (entry, newer) =>
        let branchEnd :=
          match newer with
          | Some e => by_seqno e
          | None => cur_seqno
          end in
        if (by_seqno entry <=? start_seqno) && (start_seqno <=? branchEnd)
           && (by_seqno entry <=? snap_start_seqno)
           && (snap_end_seqno <=? branchEnd)
           && (purge_seqno <=? start_seqno)
        then mkVerdict false "" None
        else
          let target := Z.min branchEnd snap_start_seqno in
          mkVerdict true "consumer ahead of or outside the producer branch"
            (Some match maxCollectionHighSeqno with
                  | Some m => Z.min target m
                  | None => target
                  end)
    end.

End FailoverTable.

(** ** The scenarios of the specification *)

Module Scenarios.

Definition k1 : StoredDocKey := "k1"%string.
Definition k2 : StoredDocKey := "k2"%string.
Definition k3 : StoredDocKey := "k3"%string.

Definition prepare (key : StoredDocKey) (bySeqno : Z) (level : Level.t)
    : Item :=
  mkItem key bySeqno (mkRequirements level (Millis 30000)).

Definition memoryVb : VBucket := mkVBucket false 0 [].
Definition diskVb (persisted : Z) : VBucket := mkVBucket true persisted [].

Definition hps_and_acks (pdm : PassiveDurabilityMonitor) : Z * list Z :=
  (getHighPreparedSeqno pdm, seqnoAcksSent (vb pdm)).

Definition S3_prepares : list Operation :=
  [AddSyncWrite (prepare k1 5 Level.Majority) None;
   AddSyncWrite (prepare k2 8 Level.PersistToMajority) None;
   AddSyncWrite (prepare k3 12 Level.Majority) None].

End Scenarios.

(** * Vocabulary of the properties

    The relations, invariants and closed forms in which the properties
    are stated and proved, and the monitors that the examples run on. *)

(** [always R c]: whatever [c] does to the object, returning or throwing,
    the object before and the object after are related by [R]. *)
Definition always {S A} (R : S -> S -> Prop) (c : Exc S A) : Prop :=
  forall s, R s (snd (c s)).

(** The index of the node after an iterator, [end()] being followed by
    [begin()]. *)
Definition nextIndex (i : iterator) : nat :=
  match i with Some n => S n | None => 0%nat end.

(** The prepares that lie behind the HPS iterator. *)
Definition pendingPrepares (s : State) : Container :=
  drop (nextIndex (it (highPreparedSeqno s))) (trackedWrites s).

(** The length of the longest head run of [tw] whose seqnos are at most
    [fence]. *)
Fixpoint prunedPrefix (fence : Z) (tw : Container) : nat :=
  match tw with
  | [] => 0%nat
  | w :: tw' =>
      if getBySeqno w <=? fence then S (prunedPrefix fence tw') else 0%nat
  end.

(** An iterator after the first [n] nodes were erased, each erasure being
    preceded by the reset of the iterators on the erased node. *)
Definition iteratorAfterPrune (n : nat) (i : iterator) : iterator :=
  match i with
  | Some k => if (k <? n)%nat then None else Some (k - n)%nat
  | None => None
  end.

Definition statePruned (n : nat) (s : State) : State :=
  mkState (drop n (trackedWrites s))
    (set_it (iteratorAfterPrune n (it (highPreparedSeqno s))) (highPreparedSeqno s))
    (set_it (iteratorAfterPrune n (it (highCompletedSeqno s))) (highCompletedSeqno s))
    (receivedSnapshotEnds s) (totalAccepted s) (totalCommitted s)
    (totalAborted s).

(** The HPS loop as a recursion over the prepares behind the HPS iterator:
    [idx] is the index of the first of them, [p] the cursor so far. *)
Fixpoint advanceOver (snapshotEndSeqno : Z) (maxLevel : Level.t)
    (pending : Container) (idx : nat) (p : Position)
    : outcome unit * Position :=
  match pending with
  | [] => (Returned tt, p)
  | w :: rest =>
      if (to_uint64 (getBySeqno w) <=? to_uint64 snapshotEndSeqno)
         && Level.leb (getLevel (getDurabilityReqs w)) maxLevel
      then
        if getBySeqno w <? lastWriteSeqno p
        then (Thrown (logic_error "Monotonic invariant failed"), p)
        else advanceOver snapshotEndSeqno maxLevel rest (S idx)
               (mkPosition (Some idx) (getBySeqno w))
      else (Returned tt, p)
  end.

Definition cursorsLe (s s' : State) : Prop :=
  lastWriteSeqno (highPreparedSeqno s) <= lastWriteSeqno (highPreparedSeqno s')
  /\ lastWriteSeqno (highCompletedSeqno s) <= lastWriteSeqno (highCompletedSeqno s').

Definition pdmCursorsLe (pdm pdm' : PassiveDurabilityMonitor) : Prop :=
  cursorsLe (state pdm) (state pdm').

(** A monitor as its constructors leave it, on a VBucket that has sent no
    acknowledgement yet. *)
Definition justConstructed (pdm : PassiveDurabilityMonitor) : Prop :=
  seqnoToAck pdm = 0 /\ seqnoAcksSent (vb pdm) = [].

(** The acknowledgements sent so far grow strictly with time (the list has
    the latest first), none exceeds the HPS, and a pending seqno in the
    latch is positive, at most the HPS, and above everything sent. *)
Definition acksInvariant (pdm : PassiveDurabilityMonitor) : Prop :=
  StronglySorted (fun later earlier => earlier < later) (seqnoAcksSent (vb pdm))
  /\ Forall (fun a => a <= getHighPreparedSeqno pdm) (seqnoAcksSent (vb pdm))
  /\ (seqnoToAck pdm = 0
      \/ (0 < seqnoToAck pdm <= getHighPreparedSeqno pdm
          /\ Forall (fun a => a < seqnoToAck pdm) (seqnoAcksSent (vb pdm)))).

(** A step that sends nothing: the HPS does not decrease, and the latch
    keeps its value or grows to the HPS that the step has just reached. *)
Definition latchStep (pdm pdm' : PassiveDurabilityMonitor) : Prop :=
  seqnoAcksSent (vb pdm') = seqnoAcksSent (vb pdm)
  /\ getHighPreparedSeqno pdm <= getHighPreparedSeqno pdm'
  /\ (seqnoToAck pdm' = seqnoToAck pdm
      \/ (seqnoToAck pdm < seqnoToAck pdm'
          /\ seqnoToAck pdm' = getHighPreparedSeqno pdm'
          /\ getHighPreparedSeqno pdm < getHighPreparedSeqno pdm')).

(** What one operation does to the latch and to the acknowledgements
    sent, on a monitor that satisfies the invariant. *)
Definition latchAndAcksAfter (pdm pdm' : PassiveDurabilityMonitor) : Prop :=
  (seqnoToAck pdm' = seqnoToAck pdm
   \/ seqnoToAck pdm' = 0
   \/ (seqnoToAck pdm < seqnoToAck pdm'
       /\ seqnoToAck pdm' = getHighPreparedSeqno pdm'))
  /\ (seqnoAcksSent (vb pdm') = seqnoAcksSent (vb pdm)
      \/ exists a,
           seqnoAcksSent (vb pdm') = a :: seqnoAcksSent (vb pdm)
           /\ seqnoToAck pdm' = 0
           /\ a <> 0
           /\ (a = seqnoToAck pdm \/ a = getHighPreparedSeqno pdm')
           /\ a <= getHighPreparedSeqno pdm'
           /\ Forall (fun earlier => earlier < a) (seqnoAcksSent (vb pdm))).

(** The test of the HPS loop on the prepare [w]: it lies in the snapshot
    and its level is at most [maxLevel]. *)
Definition canAdvanceOver (snapshotEndSeqno : Z) (maxLevel : Level.t)
    (w : SyncWrite) : bool :=
  (to_uint64 (getBySeqno w) <=? to_uint64 snapshotEndSeqno)
  && Level.leb (getLevel (getDurabilityReqs w)) maxLevel.

(** The HPS loop ends in front of [tail]. *)
Definition stopsAt (snapshotEndSeqno : Z) (maxLevel : Level.t)
    (tail : Container) : Prop :=
  match tail with
  | [] => True
  | w :: _ => canAdvanceOver snapshotEndSeqno maxLevel w = false
  end.

(** The cursor [p] after it has moved over the prepares [pre], the first
    of which has index [idx]. *)
Definition positionAfter (idx : nat) (pre : Container) (p : Position) : Position :=
  match last pre with
  | Some w => mkPosition (Some (idx + length pre - 1)%nat) (getBySeqno w)
  | None => p
  end.

(** The seqnos of [ws] are in non-decreasing order and none is below [v]. *)
Definition ascendingFrom (v : Z) (ws : Container) : Prop :=
  StronglySorted Z.le (v :: map getBySeqno ws).

(** The longest head run of the pending prepares that the loop can
    advance over. *)
Fixpoint advanceCount (snapshotEndSeqno : Z) (maxLevel : Level.t)
    (pending : Container) : nat :=
  match pending with
  | [] => 0%nat
  | w :: rest =>
      if canAdvanceOver snapshotEndSeqno maxLevel w
      then S (advanceCount snapshotEndSeqno maxLevel rest)
      else 0%nat
  end.

Definition isDisk (snapshotEnd : SnapshotEnd) : bool :=
  match type snapshotEnd with Disk => true | Memory => false end.

Definition fullyPersisted (persistenceSeqno : Z) (snapshotEnd : SnapshotEnd)
    : bool :=
  seqno snapshotEnd <=? to_int64 persistenceSeqno.

(** The first of [tail] lies in the snapshot. *)
Definition headInSnapshot (snapshotEndSeqno : Z) (tail : Container) : bool :=
  match tail with
  | w :: _ => to_uint64 (getBySeqno w) <=? to_uint64 snapshotEndSeqno
  | [] => false
  end.

Definition popSnapshotEnd (s : State) : State :=
  set_receivedSnapshotEnds (tail (receivedSnapshotEnds s)) s.

(** The prepares behind the HPS iterator carry seqnos of the range of
    positive [int64_t] values, in non-decreasing order, none below the HPS
    seqno. *)
Definition pendingInOrder (s : State) : Prop :=
  ascendingFrom (lastWriteSeqno (highPreparedSeqno s)) (pendingPrepares s)
  /\ Forall (fun w => 0 <= getBySeqno w < 2 ^ 63) (pendingPrepares s).

(** The seqno that the HPS reaches by moving over [pre]. *)
Definition seqnoAfter (pre : Container) (hps : Z) : Z :=
  match last pre with Some w => getBySeqno w | None => hps end.

(** [terminates c]: [c] never ends for lack of iterations. *)
Definition terminates {S A} (c : Exc S A) : Prop :=
  forall s, fst (c s) <> Thrown out_of_fuel.

Module PruneUncompleted.
Import Scenarios.

(** A prepare of [k1] at seqno 10 arrives in a memory snapshot that
    ends at 10, then a disk snapshot brings a prepare of [k2] at
    seqno 11. *)
Definition beforeCommit : PassiveDurabilityMonitor :=
  run false
    [AddSyncWrite (prepare k1 10 Level.Majority) None;
     NotifySnapshotEndReceived 10;
     VbReceivingDiskSnapshot true;
     AddSyncWrite (prepare k2 11 Level.Majority) None]
    (new memoryVb).

Definition afterCommit : PassiveDurabilityMonitor :=
  after false (CompleteSyncWrite k2 Commit (Some 11)) beforeCommit.

Definition tracked (pdm : PassiveDurabilityMonitor)
    : list (StoredDocKey * Z * bool) :=
  map (fun w => (getKey w, getBySeqno w, isCompleted w))
    (trackedWrites (state pdm)).
End PruneUncompleted.


(** The state once the HCS has been moved to the candidate, when it is
    moved. *)
Definition withHighCompletedSeqnoOn (enforceOrderedCompletion : bool)
    (n : nat) (w : SyncWrite) (s : State) : State :=
  if enforceOrderedCompletion
     || (lastWriteSeqno (highCompletedSeqno s) <? getBySeqno w)
  then set_highCompletedSeqno (mkPosition (Some n) (getBySeqno w)) s
  else s.

(** The monitor of the counterexample to C7: in a disk snapshot, [k1]
    is prepared at seqno 10 and [k2] at 11, [k2] is committed first, then
    a newer prepare of [k2] at seqno 13 overwrites the one at 11; the
    VBucket then receives a memory snapshot. *)
Module CompletionOutsideChecks.
Import Scenarios.


End CompletionOutsideChecks.

(** The tracked write that [addSyncWrite] is about to erase: the first
    one with the item's key, when [overwritingPrepareSeqno] is present. *)
Definition overwriteTarget (i : Item) (overwritingPrepareSeqno : option Z)
    (s : State) : option (nat * SyncWrite) :=
  match overwritingPrepareSeqno with
  | Some _ =>
      match deref (trackedWrites s) (findKey (itemKey i) (trackedWrites s)),
            findKey (itemKey i) (trackedWrites s) with
      | Some w, Some n => Some (n, w)
      | _, _ => None
      end
  | None => None
  end.

(** [Expects(itr->getBySeqno() == overwritingPrepareSeqno)] holds, or is
    not reached. *)
Definition overwriteAsserted (i : Item) (overwritingPrepareSeqno : option Z)
    (s : State) : bool :=
  match overwriteTarget i overwritingPrepareSeqno s, overwritingPrepareSeqno with
  | Some (_, w), Some overwritten => getBySeqno w =? overwritten
  | _, _ => true
  end.

Definition afterOverwrite (i : Item) (overwritingPrepareSeqno : option Z)
    (s : State) : State :=
  match overwriteTarget i overwritingPrepareSeqno s with
  | Some (n, _) => eraseTracked n (resetIteratorsAt (Some n) s)
  | None => s
  end.

(** The check of development builds finds a tracked write with the item's
    key that is not completed. *)
Definition duplicateFound (CB_DEVELOPMENT_ASSERTS : bool) (i : Item)
    (s : State) : bool :=
  CB_DEVELOPMENT_ASSERTS
  && match List.find
             (fun write => negb (isCompleted write)
                           && key_eqb (getKey write) (itemKey i))
             (trackedWrites s) with
     | Some _ => true
     | None => false
     end.

Definition appended (i : Item) (s : State) : State :=
  set_totalAccepted (size_t_incr (totalAccepted s))
    (set_trackedWrites (trackedWrites s ++ [newSyncWrite i]) s).

(** The iterator of a cursor after the overwritten write, if any, was
    erased: [end()] if it was on that write, else on the node it was
    on. *)
Definition iteratorAfterOverwrite (i : Item) (o : option Z) (s : State)
    (cursor : iterator) : iterator :=
  match overwriteTarget i o s with
  | Some (n, _) => if iterator_eqb (Some n) cursor then None else reindex n cursor
  | None => cursor
  end.


(** The scenario S6 of the specification. *)
Definition S6_table : FailoverTable.table_t :=
  [FailoverTable.mkEntry 7 100; FailoverTable.mkEntry 3 50].

(** * Vocabulary of the further properties *)

(** A cursor is valid on [tw]: its iterator is [end()], or it designates
    a node of [tw] whose seqno is at most the seqno of the cursor. *)
Definition cursorValid (tw : Container) (p : Position) : bool :=
  match it p with
  | None => true
  | Some n =>
      match tw !! n with
      | Some w => getBySeqno w <=? lastWriteSeqno p
      | None => false
      end
  end.

Arguments cursorValid : simpl never.

Definition iteratorsValid (s : State) : bool :=
  cursorValid (trackedWrites s) (highPreparedSeqno s)
  && cursorValid (trackedWrites s) (highCompletedSeqno s).

Definition keepsIteratorsValid (s s' : State) : Prop :=
  iteratorsValid s = true -> iteratorsValid s' = true.

(** A relation on states, read on the monitors that hold them. *)
Definition onState (R : State -> State -> Prop)
    (pdm pdm' : PassiveDurabilityMonitor) : Prop :=
  R (state pdm) (state pdm').

(** One pass of [processSnapshotEnd] in closed form, the HPS loop being
    [advanceOver]. *)
Definition snapshotEndPass (persistenceSeqno : Z) (snapshotEnd : SnapshotEnd)
    (s : State) : outcome bool * State :=
  let persisted := fullyPersisted persistenceSeqno snapshotEnd in
  let maxLevel := maxLevelCanAdvanceOver persisted (isDisk snapshotEnd) in
  let adv := advanceOver (seqno snapshotEnd) maxLevel (pendingPrepares s)
               (nextIndex (it (highPreparedSeqno s))) (highPreparedSeqno s) in
  let s1 := set_highPreparedSeqno (snd adv) s in
  match fst adv with
  | Thrown e => (Thrown e, s1)
  | Returned _ =>
      if isDisk snapshotEnd && persisted then
        if seqno snapshotEnd <? lastWriteSeqno (snd adv)
        then (Thrown (logic_error "Monotonic invariant failed"), s1)
        else
          let s2 := set_highPreparedSeqno
                      (mkPosition (it (snd adv)) (seqno snapshotEnd)) s in
          if headInSnapshot (seqno snapshotEnd) (pendingPrepares s2)
          then (Returned false, s2)
          else (Returned true, popSnapshotEnd s2)
      else
        if (isDisk snapshotEnd && negb persisted)
           || headInSnapshot (seqno snapshotEnd) (pendingPrepares s1)
        then (Returned false, s1)
        else (Returned true, popSnapshotEnd s1)
  end.

(** What the loop over the snapshot ends leaves alone: the tracked
    writes, the HCS cursor and the counters; the queue loses a front
    part at most. *)
Definition passFrame (s s' : State) : Prop :=
  trackedWrites s' = trackedWrites s
  /\ highCompletedSeqno s' = highCompletedSeqno s
  /\ (exists m, receivedSnapshotEnds s' = drop m (receivedSnapshotEnds s))
  /\ totalAccepted s' = totalAccepted s
  /\ totalCommitted s' = totalCommitted s
  /\ totalAborted s' = totalAborted s.

(** The exception of a failed monotonicity check. *)
Definition monotonicFailure : exception :=
  logic_error "Monotonic invariant failed".

Definition returnedOrMonotonicFailure {A} (r : outcome A) : Prop :=
  match r with
  | Returned _ => True
  | Thrown e => e = monotonicFailure
  end.

(** The operations that queue a snapshot end. *)
Definition queuesSnapshotEnd (op : Operation) : bool :=
  match op with
  | NotifySnapshotEndReceived _ | NotifySnapshotEndReceivedLocked _ => true
  | _ => false
  end.

(** No snapshot end is queued and no seqno is waiting to be
    acknowledged. *)
Definition idle (pdm : PassiveDurabilityMonitor) : Prop :=
  receivedSnapshotEnds (state pdm) = [] /\ seqnoToAck pdm = 0.

(** What a notification that started with an empty latch has sent when
    it ends with the result [r]: the new HPS seqno if the call returned,
    the HPS seqno has changed and is positive, else nothing; the latch is
    empty again. *)
Definition ackedByNotification (pdm : PassiveDurabilityMonitor)
    (r : outcome unit * PassiveDurabilityMonitor) : Prop :=
  seqnoToAck (snd r) = 0
  /\ seqnoAcksSent (vb (snd r))
     = match fst r with
       | Returned _ =>
           if negb (getHighPreparedSeqno pdm =? getHighPreparedSeqno (snd r))
              && (0 <? getHighPreparedSeqno (snd r))
           then getHighPreparedSeqno (snd r) :: seqnoAcksSent (vb pdm)
           else seqnoAcksSent (vb pdm)
       | Thrown _ => seqnoAcksSent (vb pdm)
       end.

(** The iterator [i] designates the last of [prepares] whose seqno is at
    most [bound], or is [end()] when there is none. *)
Definition designatesLastAtOrBelow (bound : Z) (prepares : list Item)
    (i : iterator) : Prop :=
  match i with
  | None => Forall (fun p => bound < itemBySeqno p) prepares
  | Some n =>
      exists p, prepares !! n = Some p
        /\ itemBySeqno p <= bound
        /\ forall m p', (n < m)%nat -> prepares !! m = Some p' ->
             bound < itemBySeqno p'
  end.

(** The queued snapshot ends carry seqnos of the range of positive
    [int64_t] values, in non-decreasing order, none below the HPS seqno. *)
Definition snapshotEndsInOrder (s : State) : Prop :=
  StronglySorted Z.le
    (lastWriteSeqno (highPreparedSeqno s) :: map seqno (receivedSnapshotEnds s))
  /\ Forall (fun e => 0 <= seqno e < 2 ^ 63) (receivedSnapshotEnds s).

(** Where an HPS seqno comes from: it is the one of before, the seqno of
    a tracked write, or the end of a queued disk snapshot that is
    persisted. *)
Definition hpsComesFrom (persistenceSeqno : Z) (s : State) (v : Z) : Prop :=
  v = lastWriteSeqno (highPreparedSeqno s)
  \/ (exists w, w ∈ trackedWrites s /\ getBySeqno w = v)
  \/ (exists e, e ∈ receivedSnapshotEnds s /\ type e = Disk
        /\ seqno e <= to_int64 persistenceSeqno /\ seqno e = v).

Definition loopProvenance (persistenceSeqno : Z) (s s' : State) : Prop :=
  passFrame s s'
  /\ hpsComesFrom persistenceSeqno s (lastWriteSeqno (highPreparedSeqno s')).

(** The keys of the tracked writes that are not completed. *)
Definition uncompletedKeys (tw : Container) : list StoredDocKey :=
  map getKey (List.filter (fun w => negb (isCompleted w)) tw).

(** No two tracked writes that are not completed have the same key:
    what the check of development builds in [addSyncWrite] validates. *)
Definition noDuplicatePrepares (s : State) : Prop :=
  NoDup (uncompletedKeys (trackedWrites s)).

Definition keepsNoDuplicates (s s' : State) : Prop :=
  noDuplicatePrepares s -> noDuplicatePrepares s'.

(** The tracked writes that lie behind the HCS iterator: the prepares
    that an ordered completion is matched against, the first one first. *)
Definition awaitingCompletion (s : State) : Container :=
  drop (nextIndex (it (highCompletedSeqno s))) (trackedWrites s).

(** Every operation of the sequence returns, each being performed on the
    monitor that the ones before it have left. *)
Fixpoint allReturn (CB_DEVELOPMENT_ASSERTS : bool) (ops : list Operation)
    (pdm : PassiveDurabilityMonitor) : bool :=
  match ops with
  | [] => true
  | op :: ops' =>
      match fst (perform CB_DEVELOPMENT_ASSERTS op pdm) with
      | Returned _ =>
          allReturn CB_DEVELOPMENT_ASSERTS ops'
            (after CB_DEVELOPMENT_ASSERTS op pdm)
      | Thrown _ => false
      end
  end.

(** The prepare that the HPS iterator is on is overwritten: [addSyncWrite]
    resets the iterator to [end()], the prepare tracked before it stays,
    and [getIteratorNext] of [end()] is [begin()]. *)
Module OverwrittenUnderHps.
Definition memoryOps : list Operation :=
  [AddSyncWrite (Scenarios.prepare Scenarios.k1 5 Level.Majority) None;
   AddSyncWrite (Scenarios.prepare Scenarios.k2 6 Level.Majority) None;
   NotifySnapshotEndReceived 6;
   AddSyncWrite (Scenarios.prepare Scenarios.k2 9 Level.Majority) (Some 6);
   AddSyncWrite (Scenarios.prepare Scenarios.k3 10 Level.PersistToMajority)
     None].

Definition memoryMonitor : PassiveDurabilityMonitor :=
  run false memoryOps (new Scenarios.memoryVb).



Definition tracked (pdm : PassiveDurabilityMonitor)
    : list (StoredDocKey * Z * Level.t) :=
  map (fun w => (getKey w, getBySeqno w, getLevel (getDurabilityReqs w)))
    (trackedWrites (state pdm)).
End OverwrittenUnderHps.

(** * Properties *)

Lemma Level_eqb_eq a b : Level.eqb a b = true <-> a = b.
Proof. destruct a, b; cbv; split; congruence. Qed.

(** The scenarios S1 to S5 of the specification, run. *)
Example scenario_S1 :
  Scenarios.hps_and_acks
    (run false [AddSyncWrite (Scenarios.prepare Scenarios.k1 10 Level.Majority) None;
                NotifySnapshotEndReceived 10] (new Scenarios.memoryVb))
  = (10, [10]).
Proof. reflexivity. Qed.

Example scenario_S2 :
  let pdm := run false
    [AddSyncWrite (Scenarios.prepare Scenarios.k1 10 Level.PersistToMajority) None;
     NotifySnapshotEndReceived 10] (new Scenarios.memoryVb) in
  Scenarios.hps_and_acks pdm = (0, [])
  /\ Scenarios.hps_and_acks (run false [VbPersisted 10; NotifyLocalPersistence] pdm)
     = (10, [10]).
Proof. split; reflexivity. Qed.

Example scenario_S3 :
  let pdm := run false (Scenarios.S3_prepares ++ [NotifySnapshotEndReceived 12])
               (new Scenarios.memoryVb) in
  Scenarios.hps_and_acks pdm = (5, [5])
  /\ Scenarios.hps_and_acks (run false [VbPersisted 12; NotifyLocalPersistence] pdm)
     = (12, [12; 5]).
Proof. split; reflexivity. Qed.

Example scenario_S4 :
  let pdm := run false
    [AddSyncWrite (mkItem Scenarios.k1 15
                     (mkRequirements Level.PersistToMajority Infinity)) None;
     NotifySnapshotEndReceived 20] (new (Scenarios.diskVb 10)) in
  Scenarios.hps_and_acks pdm = (0, [])
  /\ Scenarios.hps_and_acks (run false [VbPersisted 20; NotifyLocalPersistence] pdm)
     = (20, [20]).
Proof. split; reflexivity. Qed.

Example scenario_S5 :
  let pdm := run false
    [AddSyncWrite (Scenarios.prepare Scenarios.k1 10 Level.Majority) None;
     AddSyncWrite (Scenarios.prepare Scenarios.k2 11 Level.Majority) None;
     CompleteSyncWrite Scenarios.k2 Commit (Some 11)] (new (Scenarios.diskVb 0)) in
  getHighCompletedSeqno pdm = 11
  /\ map (fun w => (getKey w, isCompleted w)) (trackedWrites (state pdm))
     = [(Scenarios.k1, false); (Scenarios.k2, true)]
  /\ map (fun w => (getKey w, isCompleted w))
       (trackedWrites
          (state (run false [CompleteSyncWrite Scenarios.k1 Commit (Some 10)] pdm)))
     = [(Scenarios.k1, true); (Scenarios.k2, true)].
Proof. repeat split; reflexivity. Qed.

(** ** Reasoning about computations *)

Section Always.
Context {S : Type} (R : S -> S -> Prop).
Context `{!Reflexive R} `{!Transitive R}.

Lemma always_ret {A} (a : A) : always R (ret a).
Proof. intros s. cbn. reflexivity. Qed.

Lemma always_throw {A} e : always R (@throw S A e).
Proof. intros s. cbn. reflexivity. Qed.

Lemma always_get : always R get.
Proof. intros s. cbn. reflexivity. Qed.

Lemma always_modify f : (forall s, R s (f s)) -> always R (modify f).
Proof. intros H s. cbn. apply H. Qed.

Lemma always_bind {A B} (c : Exc S A) (k : A -> Exc S B) :
  always R c -> (forall a, always R (k a)) -> always R (bind c k).
Proof.
  intros Hc Hk s. unfold bind. specialize (Hc s).
  destruct (c s) as [[a|e] s1]; cbn in *; [|assumption].
  etransitivity; [eassumption|apply Hk].
Qed.

Lemma always_when b (c : Exc S unit) : always R c -> always R (when b c).
Proof. destruct b; cbn; [trivial|intros _; apply always_ret]. Qed.

Lemma always_Expects b : always R (Expects b).
Proof. destruct b; [apply always_ret|apply always_throw]. Qed.

Lemma always_monotonic_assign cur new : always R (monotonic_assign cur new).
Proof.
  unfold monotonic_assign. destruct (new <? cur);
    [apply always_throw|apply always_ret].
Qed.
End Always.

(** What a computation under the state lock does to the monitor. *)
Lemma locked_eq {A} (c : Exc State A) pdm :
  locked c pdm = (fst (c (state pdm)), set_state (snd (c (state pdm))) pdm).
Proof. unfold locked, zoom. destruct (c (state pdm)); reflexivity. Qed.

Lemma set_state_state pdm : set_state (state pdm) pdm = pdm.
Proof. destruct pdm; reflexivity. Qed.

(** ** Iterators *)

Lemma getIteratorNext_index tw i :
  getIteratorNext tw i =
  if (nextIndex i <? length tw)%nat then Some (nextIndex i) else None.
Proof.
  destruct i as [n|]; cbn; [reflexivity|]. destruct tw; reflexivity.
Qed.

Lemma deref_getIteratorNext tw i :
  deref tw (getIteratorNext tw i) = head (drop (nextIndex i) tw).
Proof.
  rewrite getIteratorNext_index, head_lookup, lookup_drop, Nat.add_0_r.
  destruct (Nat.ltb_spec (nextIndex i) (length tw)) as [Hlt|Hge]; cbn.
  - reflexivity.
  - symmetry. apply lookup_ge_None. lia.
Qed.

Lemma getIteratorNext_pending tw i w rest :
  drop (nextIndex i) tw = w :: rest ->
  getIteratorNext tw i = Some (nextIndex i) /\ tw !! nextIndex i = Some w.
Proof.
  intros Hd.
  assert (Hw : tw !! nextIndex i = Some w).
  { pose proof (lookup_drop tw (nextIndex i) 0) as Hl.
    rewrite Hd, Nat.add_0_r in Hl. cbn in Hl. congruence. }
  split; [|exact Hw].
  rewrite getIteratorNext_index.
  apply lookup_lt_Some in Hw.
  destruct (Nat.ltb_spec (nextIndex i) (length tw)); [reflexivity|lia].
Qed.

Lemma findKeyFrom_spec key tw i :
  match findKeyFrom key tw i with
  | Some n =>
      exists w, (i <= n)%nat /\ tw !! (n - i)%nat = Some w
                /\ key_eqb (getKey w) key = true
                /\ forall m w', (m < n - i)%nat -> tw !! m = Some w' ->
                     key_eqb (getKey w') key = false
  | None => forall w, w ∈ tw -> key_eqb (getKey w) key = false
  end.
Proof.
  revert i. induction tw as [|w tw IH]; intros i; cbn.
  - intros w Hw. inversion Hw.
  - destruct (key_eqb (getKey w) key) eqn:Hk.
    + exists w. rewrite Nat.sub_diag. repeat split; [lia|assumption|].
      intros m w' Hm. lia.
    + specialize (IH (S i)). destruct (findKeyFrom key tw (S i)) as [n|].
      * destruct IH as (w0 & Hle & Hl & Hk0 & Hbefore).
        exists w0. replace (n - i)%nat with (S (n - S i)) by lia.
        repeat split; [lia|exact Hl|exact Hk0|].
        intros [|m] w' Hm Hl'; cbn in Hl'.
        -- congruence.
        -- apply (Hbefore m); [lia|assumption].
      * intros w' Hw'. apply elem_of_cons in Hw' as [->|Hw']; auto.
Qed.

(** ** Pruning in closed form *)

Lemma iteratorAfterPrune_0 i : iteratorAfterPrune 0 i = i.
Proof. destruct i as [k|]; cbn; [rewrite Nat.sub_0_r|]; reflexivity. Qed.

Lemma statePruned_0 s : statePruned 0 s = s.
Proof.
  destruct s as [tw [] [] ? ? ? ?]. unfold statePruned, set_it; cbn.
  rewrite !iteratorAfterPrune_0. reflexivity.
Qed.

Lemma statePruned_S n s :
  statePruned n (eraseTracked 0 (resetIteratorsAt (Some 0%nat) s))
  = statePruned (S n) s.
Proof.
  destruct s as [tw [hpsIt hps] [hcsIt hcs] q a c b].
  assert (Htw : drop n (delete 0%nat tw) = drop (S n) tw).
  { destruct tw; cbn; [apply drop_nil|reflexivity]. }
  destruct hpsIt as [[|k]|], hcsIt as [[|k']|];
    unfold statePruned, eraseTracked, resetIteratorsAt, set_it;
    cbn -[drop delete]; rewrite Htw; reflexivity.
Qed.

Lemma trackedWrites_resetIteratorsAt i s :
  trackedWrites (resetIteratorsAt i s) = trackedWrites s.
Proof.
  unfold resetIteratorsAt.
  destruct (iterator_eqb i (it (highCompletedSeqno s))); cbn;
    match goal with |- context [if ?b then _ else _] => destruct b end;
    reflexivity.
Qed.

Lemma removePreparesLoop_eq fuel fence s :
  (length (trackedWrites s) < fuel)%nat ->
  removePreparesLoop fuel fence s
  = (Returned tt, statePruned (prunedPrefix fence (trackedWrites s)) s).
Proof.
  revert s. induction fuel as [|fuel IH]; intros s Hfuel; [lia|].
  cbn [removePreparesLoop]. unfold bind at 1, get at 1.
  destruct (trackedWrites s) as [|w tw] eqn:Htw.
  - cbn. rewrite statePruned_0. reflexivity.
  - cbn [prunedPrefix]. destruct (getBySeqno w <=? fence).
    + unfold bind, modify.
      assert (Htw' : trackedWrites
                (eraseTracked 0 (resetIteratorsAt (Some 0%nat) s)) = tw).
      { cbn. rewrite trackedWrites_resetIteratorsAt, Htw. reflexivity. }
      rewrite IH by (rewrite Htw'; cbn in Hfuel; lia).
      rewrite Htw', statePruned_S. reflexivity.
    + cbn. rewrite statePruned_0. reflexivity.
Qed.

(** [checkForAndRemovePrepares] always returns, having erased the longest
    head run of [trackedWrites] whose seqnos are at most the fence; the
    loop of the embedding never lacks iterations. *)
Lemma checkForAndRemovePrepares_eq s :
  checkForAndRemovePrepares s
  = (Returned tt,
     statePruned
       (prunedPrefix (Z.min (lastWriteSeqno (highCompletedSeqno s))
                            (lastWriteSeqno (highPreparedSeqno s)))
          (trackedWrites s)) s).
Proof.
  unfold checkForAndRemovePrepares, bind, get.
  destruct (trackedWrites s) as [|w tw] eqn:Htw.
  - cbn. rewrite statePruned_0. reflexivity.
  - rewrite removePreparesLoop_eq by (rewrite Htw; cbn; lia).
    rewrite Htw. reflexivity.
Qed.

Lemma checkForAndRemovePrepares_fuel s :
  fst (checkForAndRemovePrepares s) = Returned tt.
Proof. rewrite checkForAndRemovePrepares_eq. reflexivity. Qed.

(** ** The HPS loop in closed form *)

Lemma set_highPreparedSeqno_same s :
  set_highPreparedSeqno (highPreparedSeqno s) s = s.
Proof. destruct s; reflexivity. Qed.

Lemma drop_cons_inv {A} (l : list A) n x rest :
  drop n l = x :: rest -> l !! n = Some x /\ drop (S n) l = rest.
Proof.
  intros Hd.
  assert (Hx : l !! n = Some x).
  { pose proof (lookup_drop l n 0) as Hl.
    rewrite Hd, Nat.add_0_r in Hl. cbn in Hl. congruence. }
  split; [exact Hx|]. rewrite (drop_S _ _ _ Hx) in Hd. congruence.
Qed.

Lemma advanceLoop_eq fuel snapshotEndSeqno maxLevel s :
  (length (pendingPrepares s) < fuel)%nat ->
  advanceLoop fuel snapshotEndSeqno maxLevel s
  = (fst (advanceOver snapshotEndSeqno maxLevel (pendingPrepares s)
            (nextIndex (it (highPreparedSeqno s))) (highPreparedSeqno s)),
     set_highPreparedSeqno
       (snd (advanceOver snapshotEndSeqno maxLevel (pendingPrepares s)
               (nextIndex (it (highPreparedSeqno s))) (highPreparedSeqno s)))
       s).
Proof.
  revert s. induction fuel as [|fuel IH]; intros s Hfuel; [lia|].
  cbn [advanceLoop]. unfold bind at 1, get at 1.
  rewrite deref_getIteratorNext. fold (pendingPrepares s).
  destruct (pendingPrepares s) as [|w rest] eqn:Hpending.
  - cbn. rewrite set_highPreparedSeqno_same. reflexivity.
  - cbn [head advanceOver].
    destruct (getIteratorNext_pending _ _ _ _ Hpending) as [Hnext Hw].
    unfold inSnapshot. rewrite Hnext. cbn [deref]. rewrite Hw.
    destruct ((to_uint64 (getBySeqno w) <=? to_uint64 snapshotEndSeqno)
              && Level.leb (getLevel (getDurabilityReqs w)) maxLevel).
    + unfold bind at 1, advanceHighPreparedSeqnoTo, bind, get,
        monotonic_assign.
      destruct (getBySeqno w <? lastWriteSeqno (highPreparedSeqno s)).
      * cbn. rewrite set_highPreparedSeqno_same. reflexivity.
      * cbn [throw ret modify fst snd].
        set (s1 := set_highPreparedSeqno
                     (mkPosition (Some (nextIndex (it (highPreparedSeqno s))))
                        (getBySeqno w)) s).
        assert (Hp1 : pendingPrepares s1 = rest).
        { unfold pendingPrepares, s1; cbn.
          apply (drop_cons_inv _ _ _ _ Hpending). }
        rewrite IH by (rewrite Hp1; cbn in Hfuel; lia).
        rewrite Hp1. reflexivity.
    + cbn. rewrite set_highPreparedSeqno_same. reflexivity.
Qed.

(** The closed form has no case for a lack of iterations. *)
Lemma advanceOver_not_out_of_fuel snapshotEndSeqno maxLevel pending idx p :
  fst (advanceOver snapshotEndSeqno maxLevel pending idx p) <> Thrown out_of_fuel.
Proof.
  revert idx p. induction pending as [|w rest IH]; intros idx p; cbn;
    [discriminate|].
  destruct (_ && _); cbn; [|discriminate].
  destruct (_ <? _); cbn; [discriminate|apply IH].
Qed.

(** ** The cursors never move backwards *)

#[local] Instance cursorsLe_refl : Reflexive cursorsLe.
Proof. intros s. unfold cursorsLe. lia. Qed.

#[local] Instance cursorsLe_trans : Transitive cursorsLe.
Proof. intros a b c. unfold cursorsLe. lia. Qed.

#[local] Instance pdmCursorsLe_refl : Reflexive pdmCursorsLe.
Proof. intros p. unfold pdmCursorsLe. reflexivity. Qed.

#[local] Instance pdmCursorsLe_trans : Transitive pdmCursorsLe.
Proof. intros a b c. unfold pdmCursorsLe, cursorsLe. lia. Qed.

Ltac solve_instances :=
  try match goal with
      | |- Reflexive _ => typeclasses eauto
      | |- Transitive _ => typeclasses eauto
      end.

Ltac always_bind_tac := apply always_bind; solve_instances.

Ltac always_step :=
  lazymatch goal with
  | |- always ?R (ret _) => apply (always_ret R); solve_instances
  | |- always ?R (throw _) => apply (always_throw R); solve_instances
  | |- always ?R get => apply (always_get R); solve_instances
  | |- always ?R (Expects _) => apply (always_Expects R); solve_instances
  | |- always ?R (monotonic_assign _ _) =>
      apply (always_monotonic_assign R); solve_instances
  | |- always ?R (when _ _) => apply (always_when R); solve_instances
  | |- always ?R (bind _ _) =>
      apply (always_bind R); solve_instances; [|intros ?]
  | |- always ?R (modify _) => apply (always_modify R); intros ?
  | |- always _ (if ?b then _ else _) => destruct b
  | |- always _ (match ?x with _ => _ end) => destruct x
  end.

Lemma always_get_bind {S A} (R : S -> S -> Prop) (k : S -> Exc S A) :
  (forall s, R s (snd (k s s))) -> always R (bind get k).
Proof. intros H s. apply H. Qed.

Lemma always_locked (R : State -> State -> Prop) {A} (c : Exc State A) :
  always R c ->
  always (fun pdm pdm' => R (state pdm) (state pdm')) (locked c).
Proof. intros H pdm. rewrite locked_eq. cbn. apply H. Qed.

Lemma checkForAndRemovePrepares_le : always cursorsLe checkForAndRemovePrepares.
Proof.
  intros s. rewrite checkForAndRemovePrepares_eq. unfold cursorsLe; cbn. lia.
Qed.

Lemma advanceHighPreparedSeqnoTo_le i v :
  always cursorsLe (advanceHighPreparedSeqnoTo i v).
Proof.
  apply always_get_bind. intros s. unfold bind, monotonic_assign.
  destruct (Z.ltb_spec v (lastWriteSeqno (highPreparedSeqno s))); cbn;
    unfold cursorsLe; cbn; lia.
Qed.

Lemma advanceLoop_le fuel snapshotEndSeqno maxLevel :
  always cursorsLe (advanceLoop fuel snapshotEndSeqno maxLevel).
Proof.
  induction fuel as [|fuel IH]; cbn [advanceLoop]; [always_step|].
  always_bind_tac; [always_step|].
  intros s. destruct (deref _ _); [|always_step].
  destruct (_ && _); [|always_step].
  always_bind_tac; [ |intros; exact IH].
  apply advanceHighPreparedSeqnoTo_le.
Qed.

Lemma processSnapshotEnd_le persistenceSeqno snapshotEnd :
  always cursorsLe (processSnapshotEnd persistenceSeqno snapshotEnd).
Proof.
  unfold processSnapshotEnd.
  always_bind_tac; [always_step|].
  intros s0.
  always_bind_tac; [ |intros _].
  { apply always_when; solve_instances; apply advanceLoop_le. }
  always_bind_tac; [ |intros _].
  { apply always_when; solve_instances.
    apply always_get_bind. intros s. unfold bind, monotonic_assign.
    destruct (Z.ltb_spec (seqno snapshotEnd)
                (lastWriteSeqno (highPreparedSeqno s))); cbn;
      unfold cursorsLe; cbn; lia. }
  always_bind_tac; [always_step|].
  intros s1. destruct (_ || _); [always_step|].
  always_bind_tac; [ |intros; always_step].
  apply always_modify. intros s. unfold cursorsLe; cbn; lia.
Qed.

Lemma snapshotEndsLoop_le fuel persistenceSeqno :
  always cursorsLe (snapshotEndsLoop fuel persistenceSeqno).
Proof.
  induction fuel as [|fuel IH]; cbn [snapshotEndsLoop]; [always_step|].
  always_bind_tac; [always_step|].
  intros s. destruct (receivedSnapshotEnds s); [always_step|].
  always_bind_tac; [ |].
  - apply processSnapshotEnd_le.
  - intros [|]; [exact IH|always_step].
Qed.

Lemma updateHighPreparedSeqno_le persistenceSeqno :
  always cursorsLe (updateHighPreparedSeqno persistenceSeqno).
Proof.
  unfold updateHighPreparedSeqno.
  always_bind_tac; [always_step|].
  intros s0.
  always_bind_tac; [ |intros _].
  { apply snapshotEndsLoop_le. }
  always_bind_tac; [always_step|].
  intros s1. destruct (negb _); [|always_step].
  always_bind_tac; [always_step|intros _].
  apply checkForAndRemovePrepares_le.
Qed.

Lemma resetIteratorsAt_cursors i s :
  lastWriteSeqno (highPreparedSeqno (resetIteratorsAt i s))
  = lastWriteSeqno (highPreparedSeqno s)
  /\ lastWriteSeqno (highCompletedSeqno (resetIteratorsAt i s))
     = lastWriteSeqno (highCompletedSeqno s).
Proof.
  unfold resetIteratorsAt.
  destruct (iterator_eqb i (it (highCompletedSeqno s))); cbn;
    match goal with |- context [if ?b then _ else _] => destruct b end;
    split; reflexivity.
Qed.

Lemma addSyncWrite_locked_le dev i o :
  always cursorsLe (addSyncWrite_locked dev i o).
Proof.
  unfold addSyncWrite_locked.
  always_bind_tac; [ |intros _].
  { destruct o as [overwritten|]; [|always_step].
    always_bind_tac; [always_step|].
    intros s. destruct (deref _ _); [|always_step].
    destruct (findKey _ _); [|always_step].
    always_bind_tac; [always_step|intros _].
    always_bind_tac; [ |intros _].
    - apply always_modify. intros s'.
      destruct (resetIteratorsAt_cursors (Some n) s') as [H1 H2].
      unfold cursorsLe. rewrite H1, H2. lia.
    - apply always_modify. intros s'. unfold cursorsLe; cbn; lia. }
  always_bind_tac; [ |intros _].
  { apply always_when; solve_instances.
    always_bind_tac; [always_step|].
    intros s. destruct (List.find _ _); always_step. }
  always_bind_tac; [ |intros _];
    apply always_modify; intros s; unfold cursorsLe; cbn; lia.
Qed.

Lemma completeSyncWrite_locked_le ordered key res p :
  always cursorsLe (completeSyncWrite_locked ordered key res p).
Proof.
  unfold completeSyncWrite_locked.
  apply always_get_bind. intros s.
  assert (Hrest : forall (w : SyncWrite) (n : nat),
    always cursorsLe
      (Expects (negb (isCompleted w)) ;;
       modify (markCompleted n) ;;
       checkForAndRemovePrepares ;;
       modify (countResolution res))).
  { intros w n.
    always_bind_tac; [always_step|intros _].
    always_bind_tac; [ |intros _].
    { apply always_modify. intros s'. unfold cursorsLe; cbn; lia. }
    always_bind_tac; [ |intros _].
    { apply checkForAndRemovePrepares_le. }
    apply always_modify. intros s'. destruct res; unfold cursorsLe; cbn; lia. }
  unfold bind at 1. destruct (trackedWrites s) as [|w0 tw0] eqn:Htw; cbn [when].
  { cbn. reflexivity. }
  cbn [ret].
  destruct (deref _ _) as [w|]; [|cbn; reflexivity].
  destruct (completionCandidate ordered key s) as [n|];
    [|cbn; reflexivity].
  unfold bind at 1.
  destruct (negb (key_eqb (getKey w) key)); cbn [when];
    [cbn; reflexivity|].
  cbn [ret]. unfold bind at 1.
  destruct (prepareSeqnoDiffers w p); cbn [when];
    [cbn; reflexivity|].
  cbn [ret]. unfold bind at 1.
  destruct (ordered || (lastWriteSeqno (highCompletedSeqno s) <? getBySeqno w));
    cbn [when].
  - unfold bind at 1, monotonic_assign.
    destruct (Z.ltb_spec (getBySeqno w) (lastWriteSeqno (highCompletedSeqno s)));
      cbn [throw ret]; [cbn; reflexivity|].
    cbn [modify].
    etransitivity; [|apply Hrest].
    unfold cursorsLe; cbn; lia.
  - cbn [ret]. apply Hrest.
Qed.

(** *** Every operation *)

Lemma locked_frame {A} (c : Exc State A) pdm :
  vb (snd (locked c pdm)) = vb pdm
  /\ seqnoToAck (snd (locked c pdm)) = seqnoToAck pdm.
Proof. rewrite locked_eq. split; reflexivity. Qed.

Lemma addSyncWrite_le dev i o : always pdmCursorsLe (addSyncWrite dev i o).
Proof.
  unfold addSyncWrite.
  always_bind_tac; [|intros _].
  { apply always_when; solve_instances. always_step. }
  always_bind_tac; [|intros _].
  { apply always_when; solve_instances. always_step. }
  apply (always_locked cursorsLe), addSyncWrite_locked_le.
Qed.

Lemma completeSyncWrite_le key res p :
  always pdmCursorsLe (completeSyncWrite key res p).
Proof.
  unfold completeSyncWrite. apply always_get_bind. intros pdm.
  apply (always_locked cursorsLe), completeSyncWrite_locked_le.
Qed.

Lemma storeSeqnoAck_le prevHps newHps :
  always pdmCursorsLe (storeSeqnoAck prevHps newHps).
Proof.
  unfold storeSeqnoAck. apply always_when; solve_instances.
  apply always_get_bind. intros pdm.
  destruct (seqnoToAck pdm <? newHps); cbn; unfold pdmCursorsLe; reflexivity.
Qed.

Lemma sendSeqnoAck_le : always pdmCursorsLe sendSeqnoAck.
Proof.
  unfold sendSeqnoAck. apply always_get_bind. intros pdm.
  destruct (negb (seqnoToAck pdm =? 0)); cbn; unfold pdmCursorsLe; reflexivity.
Qed.

Lemma updateAndStoreAck_le : always pdmCursorsLe updateAndStoreAck.
Proof.
  unfold updateAndStoreAck.
  always_bind_tac; [always_step|]. intros pdm.
  always_bind_tac; [|intros _].
  { apply (always_locked cursorsLe), updateHighPreparedSeqno_le. }
  always_bind_tac; [always_step|]. intros pdm'. apply storeSeqnoAck_le.
Qed.

Lemma notifySnapshotEndReceived_locked_le snapEnd :
  always pdmCursorsLe (notifySnapshotEndReceived_locked snapEnd).
Proof.
  unfold notifySnapshotEndReceived_locked.
  always_bind_tac; [always_step|]. intros pdm.
  always_bind_tac; [|intros _; apply updateAndStoreAck_le].
  apply (always_locked cursorsLe). apply always_modify.
  intros s. unfold cursorsLe; cbn; lia.
Qed.

Lemma perform_le dev op : always pdmCursorsLe (perform dev op).
Proof.
  destruct op; cbn [perform].
  - apply addSyncWrite_le.
  - apply completeSyncWrite_le.
  - unfold notifySnapshotEndReceived.
    always_bind_tac; [apply notifySnapshotEndReceived_locked_le|].
    intros _. apply sendSeqnoAck_le.
  - unfold notifyLocalPersistence.
    always_bind_tac; [apply updateAndStoreAck_le|].
    intros _. apply sendSeqnoAck_le.
  - apply notifySnapshotEndReceived_locked_le.
  - apply updateAndStoreAck_le.
  - apply sendSeqnoAck_le.
  - apply always_modify. intros pdm. unfold pdmCursorsLe; reflexivity.
  - apply always_modify. intros pdm. unfold pdmCursorsLe; reflexivity.
Qed.

Lemma run_app dev ops1 ops2 pdm :
  run dev (ops1 ++ ops2) pdm = run dev ops2 (run dev ops1 pdm).
Proof. unfold run. apply fold_left_app. Qed.

Lemma run_le dev ops pdm : pdmCursorsLe pdm (run dev ops pdm).
Proof.
  revert pdm. induction ops as [|op ops IH]; intros pdm; cbn.
  - unfold pdmCursorsLe; reflexivity.
  - etransitivity; [apply (perform_le dev op pdm)|apply IH].
Qed.

(** When [completeSyncWrite] changes the HCS seqno, the new value is the
    seqno of the completion candidate, and it is larger than the old. *)
Lemma completeSyncWrite_hcs_cases key res p pdm (P : Z -> Prop) :
  P (getHighCompletedSeqno pdm) ->
  (forall w,
     deref (trackedWrites (state pdm))
       (completionCandidate (negb (isReceivingDiskSnapshot (vb pdm))) key
          (state pdm)) = Some w ->
     getHighCompletedSeqno pdm < getBySeqno w -> P (getBySeqno w)) ->
  P (getHighCompletedSeqno (snd (completeSyncWrite key res p pdm))).
Proof.
  intros Hsame Hadvance.
  unfold completeSyncWrite, bind at 1, get at 1.
  rewrite locked_eq. cbn [snd]. unfold getHighCompletedSeqno in *.
  cbn [state set_state].
  set (s := state pdm) in *. set (ordered := negb _) in *.
  unfold completeSyncWrite_locked, bind at 1, get at 1, bind at 1.
  destruct (trackedWrites s) as [|w0 tw0] eqn:Htw; cbn [when];
    [exact Hsame|].
  cbn [ret]. rewrite <- Htw.
  destruct (deref (trackedWrites s) (completionCandidate ordered key s))
    as [w|] eqn:Hcand; [|exact Hsame].
  destruct (completionCandidate ordered key s) as [n|]; [|exact Hsame].
  unfold bind at 1.
  destruct (negb (key_eqb (getKey w) key)); cbn [when]; [exact Hsame|].
  cbn [ret]. unfold bind at 1.
  destruct (prepareSeqnoDiffers w p); cbn [when]; [exact Hsame|].
  cbn [ret].
  assert (Hrest : forall s1,
    lastWriteSeqno (highCompletedSeqno
      (snd ((Expects (negb (isCompleted w)) ;;
             modify (markCompleted n) ;;
             checkForAndRemovePrepares ;;
             modify (countResolution res)) s1)))
    = lastWriteSeqno (highCompletedSeqno s1)).
  { intros s1. unfold bind at 1. destruct (negb (isCompleted w)); cbn [Expects];
      [|reflexivity].
    cbn [ret]. unfold bind at 1, modify at 1. unfold bind at 1.
    rewrite checkForAndRemovePrepares_eq. cbn [modify snd].
    destruct res; reflexivity. }
  unfold bind at 1.
  destruct (ordered || (lastWriteSeqno (highCompletedSeqno s) <? getBySeqno w))
    eqn:Hadv; cbn [when].
  - unfold bind at 1, monotonic_assign.
    destruct (Z.ltb_spec (getBySeqno w) (lastWriteSeqno (highCompletedSeqno s)));
      cbn [throw ret]; [exact Hsame|].
    cbn [modify]. rewrite Hrest. cbn.
    destruct (Z.eq_dec (getBySeqno w) (lastWriteSeqno (highCompletedSeqno s)))
      as [Heq|Hne]; [rewrite Heq; exact Hsame|].
    apply Hadvance; [rewrite <- Htw; exact Hcand|lia].
  - cbn [ret]. rewrite Hrest. exact Hsame.
Qed.

(** C1.  Over every sequence of operations on the monitor the seqnos of
    both cursors, [highPreparedSeqno.lastWriteSeqno] and
    [highCompletedSeqno.lastWriteSeqno], are non-decreasing: after any
    further operations, whether they return or throw, neither is below
    what it was.  In [completeSyncWrite] the HCS seqno either stays or
    becomes the seqno of the completion candidate, which then exceeds the
    previous HCS seqno. *)
Theorem cursors_monotonic :
  (forall dev ops ops' pdm,
     getHighPreparedSeqno (run dev ops pdm)
       <= getHighPreparedSeqno (run dev (ops ++ ops') pdm)
     /\ getHighCompletedSeqno (run dev ops pdm)
       <= getHighCompletedSeqno (run dev (ops ++ ops') pdm))
  /\ (forall key res p pdm,
        let ordered := negb (isReceivingDiskSnapshot (vb pdm)) in
        let pdm' := snd (completeSyncWrite key res p pdm) in
        getHighCompletedSeqno pdm' = getHighCompletedSeqno pdm
        \/ exists w,
             deref (trackedWrites (state pdm))
               (completionCandidate ordered key (state pdm)) = Some w
             /\ getHighCompletedSeqno pdm' = getBySeqno w
             /\ getHighCompletedSeqno pdm < getBySeqno w).
Proof.
  split.
  - intros dev ops ops' pdm. rewrite run_app.
    apply (run_le dev ops' (run dev ops pdm)).
  - intros key res p pdm ordered pdm'.
    apply (completeSyncWrite_hcs_cases key res p pdm
             (fun v => v = getHighCompletedSeqno pdm
                       \/ exists w, _ = Some w /\ v = getBySeqno w /\ _)).
    + left; reflexivity.
    + intros w Hw Hlt. right. exists w. auto.
Qed.

(** ** Acknowledgements *)

Lemma constructors_justConstructed v hps hcs prepares :
  seqnoAcksSent v = [] ->
  justConstructed (new v) /\ justConstructed (newAt v hps hcs)
  /\ justConstructed (newWithPrepares v hps hcs prepares).
Proof. intros Hv. repeat split; exact Hv. Qed.

Lemma latchStep_quiet pdm pdm' :
  pdmCursorsLe pdm pdm' ->
  seqnoAcksSent (vb pdm') = seqnoAcksSent (vb pdm) ->
  seqnoToAck pdm' = seqnoToAck pdm ->
  latchStep pdm pdm'.
Proof.
  intros [Hle _] Hv Hl. unfold latchStep, getHighPreparedSeqno. auto.
Qed.

Lemma storeSeqnoAck_eq prevHps newHps pdm :
  storeSeqnoAck prevHps newHps pdm
  = (Returned tt,
     if negb (prevHps =? newHps) && (seqnoToAck pdm <? newHps)
     then set_seqnoToAck newHps pdm else pdm).
Proof.
  unfold storeSeqnoAck, when, bind, get.
  destruct (prevHps =? newHps); cbn; [reflexivity|].
  destruct (seqnoToAck pdm <? newHps); reflexivity.
Qed.

Lemma updateAndStoreAck_latchStep pdm :
  latchStep pdm (snd (updateAndStoreAck pdm)).
Proof.
  unfold updateAndStoreAck, bind at 1, get at 1, bind at 1.
  pose proof (always_locked cursorsLe _
                (updateHighPreparedSeqno_le (getPersistenceSeqno (vb pdm))) pdm)
    as [Hle _].
  destruct (locked_frame
              (updateHighPreparedSeqno (getPersistenceSeqno (vb pdm))) pdm)
    as [Hvb Hlatch].
  destruct (locked _ pdm) as [[[]|e] pdm1]; cbn [snd] in *.
  - unfold bind at 1, get at 1. rewrite storeSeqnoAck_eq. cbn [snd].
    unfold latchStep, getHighPreparedSeqno.
    destruct (Z.eqb_spec (lastWriteSeqno (highPreparedSeqno (state pdm)))
                (lastWriteSeqno (highPreparedSeqno (state pdm1))))
      as [Heq|Hne]; cbn [negb andb].
    + rewrite Hvb, Hlatch, Heq. split; [reflexivity|].
      split; [lia|left; reflexivity].
    + destruct (Z.ltb_spec (seqnoToAck pdm1)
                  (lastWriteSeqno (highPreparedSeqno (state pdm1))));
        cbn [set_seqnoToAck vb state seqnoToAck].
      * rewrite Hvb, <- Hlatch. split; [reflexivity|].
        split; [lia|right]. repeat split; lia.
      * rewrite Hvb, Hlatch. split; [reflexivity|].
        split; [lia|left; reflexivity].
  - unfold latchStep, getHighPreparedSeqno. rewrite Hvb, Hlatch.
    split; [reflexivity|]. split; [lia|left; reflexivity].
Qed.

Lemma notifySnapshotEndReceived_locked_latchStep snapEnd pdm :
  latchStep pdm (snd (notifySnapshotEndReceived_locked snapEnd pdm)).
Proof.
  unfold notifySnapshotEndReceived_locked, bind at 1, get at 1, bind at 1.
  rewrite locked_eq. cbn [modify fst snd].
  match goal with |- context [updateAndStoreAck ?p] => set (pdm1 := p) end.
  pose proof (updateAndStoreAck_latchStep pdm1) as H.
  unfold latchStep in *. exact H.
Qed.

Lemma latchStep_invariant pdm pdm' :
  acksInvariant pdm -> latchStep pdm pdm' -> acksInvariant pdm'.
Proof.
  intros (Hsorted & Hle & Hlatch) (Hacks & Hhps & Hstep).
  unfold acksInvariant. rewrite Hacks.
  split; [exact Hsorted|]. split.
  - eapply Forall_impl; [exact Hle|]. cbn. intros a Ha. lia.
  - destruct Hstep as [Hsame|(Hgrow & Heq & Hadv)].
    + rewrite Hsame. destruct Hlatch as [Hz|[Hr Hall]]; [left; exact Hz|].
      right. split; [lia|exact Hall].
    + right. split.
      * destruct Hlatch as [Hz|[Hr Hall]]; lia.
      * eapply Forall_impl; [exact Hle|]. cbn. intros a Ha. lia.
Qed.

Lemma sendSeqnoAck_eq pdm :
  sendSeqnoAck pdm
  = (Returned tt,
     mkPDM (if seqnoToAck pdm =? 0 then vb pdm
            else vb_sendSeqnoAck (seqnoToAck pdm) (vb pdm))
       (state pdm) 0).
Proof.
  unfold sendSeqnoAck, bind, get.
  destruct (seqnoToAck pdm =? 0); reflexivity.
Qed.

Lemma sendSeqnoAck_invariant pdm :
  acksInvariant pdm -> acksInvariant (snd (sendSeqnoAck pdm)).
Proof.
  intros (Hsorted & Hle & Hlatch). rewrite sendSeqnoAck_eq. cbn [snd].
  unfold acksInvariant, getHighPreparedSeqno in *. cbn [vb state seqnoToAck].
  destruct (Z.eqb_spec (seqnoToAck pdm) 0) as [Hz|Hnz].
  - repeat split; auto.
  - destruct Hlatch as [Hz|[Hr Hall]]; [contradiction|].
    cbn [vb_sendSeqnoAck seqnoAcksSent]. split; [|split].
    + apply SSorted_cons; assumption.
    + apply Forall_cons. split; [lia|exact Hle].
    + left; reflexivity.
Qed.

(** Every operation is a step that sends nothing, possibly followed by
    [sendSeqnoAck]. *)
Lemma perform_steps dev op pdm :
  exists mid,
    latchStep pdm mid
    /\ (after dev op pdm = mid \/ after dev op pdm = snd (sendSeqnoAck mid)).
Proof.
  assert (Hrefl : forall p, latchStep p p).
  { intros p. unfold latchStep. repeat split; [lia|left; reflexivity]. }
  assert (Hseq : forall (c : Exc PassiveDurabilityMonitor unit),
    latchStep pdm (snd (c pdm)) ->
    exists mid, latchStep pdm mid
      /\ (snd ((c ;; sendSeqnoAck) pdm) = mid
          \/ snd ((c ;; sendSeqnoAck) pdm) = snd (sendSeqnoAck mid))).
  { intros c Hc. exists (snd (c pdm)). split; [exact Hc|].
    unfold bind. destruct (c pdm) as [[[]|e] mid]; cbn; auto. }
  unfold after. destruct op; cbn [perform].
  - exists (snd (addSyncWrite dev i overwritingPrepareSeqno pdm)).
    split; [|left; reflexivity].
    apply latchStep_quiet; [apply addSyncWrite_le| |];
      unfold addSyncWrite, bind, when;
      destruct (Level.eqb _ _); cbn; try reflexivity;
      destruct (isDefault _); cbn; try reflexivity.
    + rewrite (proj1 (locked_frame _ _)). reflexivity.
    + apply locked_frame.
  - exists (snd (completeSyncWrite key res prepareSeqno pdm)).
    split; [|left; reflexivity].
    apply latchStep_quiet; [apply completeSyncWrite_le| |];
      unfold completeSyncWrite, bind, get.
    + rewrite (proj1 (locked_frame _ _)). reflexivity.
    + apply locked_frame.
  - apply Hseq, notifySnapshotEndReceived_locked_latchStep.
  - apply Hseq, updateAndStoreAck_latchStep.
  - eexists; split; [apply notifySnapshotEndReceived_locked_latchStep|auto].
  - eexists; split; [apply updateAndStoreAck_latchStep|auto].
  - exists pdm. split; [apply Hrefl|right; reflexivity].
  - eexists; split; [|left; reflexivity].
    unfold latchStep, getHighPreparedSeqno; cbn. repeat split; [lia|auto].
  - eexists; split; [|left; reflexivity].
    unfold latchStep, getHighPreparedSeqno; cbn. repeat split; [lia|auto].
Qed.

Lemma after_invariant dev op pdm :
  acksInvariant pdm -> acksInvariant (after dev op pdm).
Proof.
  intros Hinv. destruct (perform_steps dev op pdm) as (mid & Hstep & [->| ->]).
  - eapply latchStep_invariant; eassumption.
  - apply sendSeqnoAck_invariant. eapply latchStep_invariant; eassumption.
Qed.

Lemma run_invariant dev ops pdm :
  acksInvariant pdm -> acksInvariant (run dev ops pdm).
Proof.
  revert pdm. induction ops as [|op ops IH]; intros pdm Hinv; cbn;
    [exact Hinv|].
  apply IH, after_invariant, Hinv.
Qed.

Lemma justConstructed_invariant pdm : justConstructed pdm -> acksInvariant pdm.
Proof.
  intros [Hlatch Hacks]. unfold acksInvariant. rewrite Hacks.
  split; [constructor|]. split; [constructor|left; exact Hlatch].
Qed.

Lemma after_latchAndAcks dev op pdm :
  acksInvariant pdm -> latchAndAcksAfter pdm (after dev op pdm).
Proof.
  intros Hinv. destruct (perform_steps dev op pdm) as (mid & Hstep & [->| ->]).
  - destruct Hstep as (Hacks & Hhps & Hlatch). split; [|left; exact Hacks].
    destruct Hlatch as [Hsame|(Hgrow & Heq & _)]; auto.
  - pose proof (latchStep_invariant _ _ Hinv Hstep) as (_ & _ & Hmid).
    destruct Hstep as (Hacks & Hhps & Hlatch).
    rewrite sendSeqnoAck_eq. cbn [snd].
    unfold latchAndAcksAfter, getHighPreparedSeqno in *.
    cbn [vb state seqnoToAck]. split; [auto|].
    destruct (Z.eqb_spec (seqnoToAck mid) 0) as [Hz|Hnz];
      [left; exact Hacks|].
    right. exists (seqnoToAck mid). cbn [vb_sendSeqnoAck seqnoAcksSent].
    destruct Hmid as [Hz|[Hr Hall]]; [contradiction|].
    rewrite <- Hacks. repeat split; auto; lia.
Qed.

(** C6.  On a monitor that starts as its constructor leaves it, after any
    sequence of operations: the seqnos passed to [vb.sendSeqnoAck] are
    strictly increasing in the order they were sent and none exceeds the
    HPS; the latch [seqnoToAck] is zero (nothing pending) or a positive
    seqno that is at most the HPS and above every seqno sent; and any next
    operation leaves the latch as it is, resets it to zero, or raises it
    to the HPS of that moment, and sends nothing or sends one seqno, which
    is the pending latch value or the HPS just latched, is at most the
    HPS, is above every seqno sent before, and leaves the latch at
    zero. *)
Theorem acks_increasing_and_bounded dev ops pdm0 :
  justConstructed pdm0 ->
  let pdm := run dev ops pdm0 in
  StronglySorted (fun later earlier => earlier < later) (seqnoAcksSent (vb pdm))
  /\ Forall (fun a => a <= getHighPreparedSeqno pdm) (seqnoAcksSent (vb pdm))
  /\ (seqnoToAck pdm = 0
      \/ (0 < seqnoToAck pdm <= getHighPreparedSeqno pdm
          /\ Forall (fun a => a < seqnoToAck pdm) (seqnoAcksSent (vb pdm))))
  /\ forall op, latchAndAcksAfter pdm (after dev op pdm).
Proof.
  intros Hnew pdm.
  pose proof (run_invariant dev ops pdm0 (justConstructed_invariant _ Hnew))
    as Hinv.
  destruct Hinv as (H1 & H2 & H3). repeat split; try assumption.
  all: apply after_latchAndAcks; repeat split; assumption.
Qed.

(** Scenario S3, up to the persistence of its snapshot. *)
Lemma acks_increasing_and_bounded_witness :
  let pdm := run false
    (Scenarios.S3_prepares
     ++ [NotifySnapshotEndReceived 12; VbPersisted 12; NotifyLocalPersistence])
    (new Scenarios.memoryVb) in
  StronglySorted (fun later earlier => earlier < later) (seqnoAcksSent (vb pdm))
  /\ Forall (fun a => a <= getHighPreparedSeqno pdm) (seqnoAcksSent (vb pdm))
  /\ (seqnoToAck pdm = 0
      \/ (0 < seqnoToAck pdm <= getHighPreparedSeqno pdm
          /\ Forall (fun a => a < seqnoToAck pdm) (seqnoAcksSent (vb pdm))))
  /\ forall op, latchAndAcksAfter pdm (after false op pdm).
Proof.
  apply (acks_increasing_and_bounded false
           (Scenarios.S3_prepares
            ++ [NotifySnapshotEndReceived 12; VbPersisted 12;
                NotifyLocalPersistence])
           (new Scenarios.memoryVb)).
  split; reflexivity.
Defined.

(** ** How far the HPS advances *)

Lemma ascendingFrom_cons v w ws :
  ascendingFrom v (w :: ws) -> v <= getBySeqno w /\ ascendingFrom (getBySeqno w) ws.
Proof.
  unfold ascendingFrom. cbn. intros H.
  apply StronglySorted_inv in H as [Htail Hall].
  split; [|exact Htail].
  apply Forall_cons in Hall. tauto.
Qed.

Lemma positionAfter_cons idx w pre p :
  positionAfter idx (w :: pre) p
  = positionAfter (S idx) pre (mkPosition (Some idx) (getBySeqno w)).
Proof.
  unfold positionAfter. destruct pre as [|w' pre]; cbn [last length].
  - f_equal. f_equal. lia.
  - rewrite ?last_cons_cons. destruct (last (w' :: pre)) eqn:Hl.
    + f_equal. f_equal. cbn. lia.
    + apply last_None in Hl. discriminate.
Qed.

Lemma advanceOver_app snapshotEndSeqno maxLevel pre tail idx p :
  Forall (fun w => canAdvanceOver snapshotEndSeqno maxLevel w = true) pre ->
  ascendingFrom (lastWriteSeqno p) pre ->
  advanceOver snapshotEndSeqno maxLevel (pre ++ tail) idx p
  = advanceOver snapshotEndSeqno maxLevel tail (idx + length pre)%nat
      (positionAfter idx pre p).
Proof.
  revert idx p. induction pre as [|w pre IH]; intros idx p Hcan Hasc.
  - cbn. rewrite Nat.add_0_r. reflexivity.
  - apply Forall_cons in Hcan as [Hw Hcan].
    apply ascendingFrom_cons in Hasc as [Hle Hasc].
    cbn [app advanceOver]. unfold canAdvanceOver in Hw. rewrite Hw.
    destruct (Z.ltb_spec (getBySeqno w) (lastWriteSeqno p)); [lia|].
    rewrite IH by assumption.
    rewrite positionAfter_cons. cbn [length]. f_equal. lia.
Qed.

Lemma advanceOver_stop snapshotEndSeqno maxLevel tail idx p :
  stopsAt snapshotEndSeqno maxLevel tail ->
  advanceOver snapshotEndSeqno maxLevel tail idx p = (Returned tt, p).
Proof.
  destruct tail as [|w tail]; cbn; [reflexivity|].
  unfold canAdvanceOver. intros ->. reflexivity.
Qed.

Lemma pendingPrepares_positionAfter s pre tail :
  pendingPrepares s = pre ++ tail ->
  pendingPrepares
    (set_highPreparedSeqno
       (positionAfter (nextIndex (it (highPreparedSeqno s))) pre
          (highPreparedSeqno s)) s)
  = tail.
Proof.
  intros Hp. unfold positionAfter.
  destruct (last pre) as [w|] eqn:Hl.
  - unfold pendingPrepares in *. cbn.
    assert (Hlen : (0 < length pre)%nat).
    { destruct pre; [discriminate|cbn; lia]. }
    replace (S (nextIndex (it (highPreparedSeqno s)) + length pre - 1))
      with (nextIndex (it (highPreparedSeqno s)) + length pre)%nat by lia.
    rewrite <- drop_drop, Hp. apply drop_app_length.
  - apply last_None in Hl. subst pre.
    rewrite set_highPreparedSeqno_same. exact Hp.
Qed.

(** The HPS loop on a state whose pending prepares are [pre ++ tail],
    where the loop can advance over all of [pre], in ascending order, and
    ends in front of [tail]. *)
Lemma advanceLoop_run fuel snapshotEndSeqno maxLevel s pre tail :
  pendingPrepares s = pre ++ tail ->
  Forall (fun w => canAdvanceOver snapshotEndSeqno maxLevel w = true) pre ->
  ascendingFrom (lastWriteSeqno (highPreparedSeqno s)) pre ->
  stopsAt snapshotEndSeqno maxLevel tail ->
  (length (trackedWrites s) < fuel)%nat ->
  advanceLoop fuel snapshotEndSeqno maxLevel s
  = (Returned tt,
     set_highPreparedSeqno
       (positionAfter (nextIndex (it (highPreparedSeqno s))) pre
          (highPreparedSeqno s)) s).
Proof.
  intros Hp Hcan Hasc Hstop Hfuel.
  rewrite advanceLoop_eq.
  - rewrite Hp, advanceOver_app, advanceOver_stop by assumption. reflexivity.
  - unfold pendingPrepares. rewrite length_drop. lia.
Qed.

Lemma advanceCount_split snapshotEndSeqno maxLevel pending :
  let k := advanceCount snapshotEndSeqno maxLevel pending in
  Forall (fun w => canAdvanceOver snapshotEndSeqno maxLevel w = true)
    (take k pending)
  /\ stopsAt snapshotEndSeqno maxLevel (drop k pending).
Proof.
  induction pending as [|w rest IH]; cbn.
  - split; [constructor|exact I].
  - destruct (canAdvanceOver snapshotEndSeqno maxLevel w) eqn:Hw; cbn.
    + destruct IH as [Hall Hstop]. split; [|exact Hstop].
      constructor; assumption.
    + split; [constructor|exact Hw].
Qed.

Lemma ascendingFrom_take v ws k : ascendingFrom v ws -> ascendingFrom v (take k ws).
Proof.
  unfold ascendingFrom. revert v k.
  induction ws as [|w ws IH]; intros v k H; destruct k; cbn in *;
    try solve [repeat constructor].
  apply StronglySorted_inv in H as [Htail Hall].
  apply Forall_cons in Hall as [Hvw Hall].
  specialize (IH _ k Htail).
  apply StronglySorted_inv in IH as [IHs IHall].
  constructor.
  - constructor; assumption.
  - constructor; [exact Hvw|].
    eapply Forall_impl; [exact IHall|]. cbn. intros. lia.
Qed.

(** *** One snapshot end *)

Lemma inSnapshot_next tw snapshotEndSeqno i :
  inSnapshot tw snapshotEndSeqno (getIteratorNext tw i)
  = headInSnapshot snapshotEndSeqno (drop (nextIndex i) tw).
Proof.
  unfold inSnapshot. rewrite deref_getIteratorNext.
  destruct (drop (nextIndex i) tw); reflexivity.
Qed.

(** [processSnapshotEnd] on a state whose pending prepares are
    [pre ++ tail], the loop advancing over exactly [pre]. *)
Lemma processSnapshotEnd_run persistenceSeqno snapshotEnd s pre tail :
  let persisted := fullyPersisted persistenceSeqno snapshotEnd in
  let maxLevel := maxLevelCanAdvanceOver persisted (isDisk snapshotEnd) in
  let pos1 := positionAfter (nextIndex (it (highPreparedSeqno s))) pre
                (highPreparedSeqno s) in
  pendingPrepares s = pre ++ tail ->
  Forall (fun w => canAdvanceOver (seqno snapshotEnd) maxLevel w = true) pre ->
  ascendingFrom (lastWriteSeqno (highPreparedSeqno s)) pre ->
  stopsAt (seqno snapshotEnd) maxLevel tail ->
  processSnapshotEnd persistenceSeqno snapshotEnd s
  = if isDisk snapshotEnd && persisted then
      if seqno snapshotEnd <? lastWriteSeqno pos1
      then (Thrown (logic_error "Monotonic invariant failed"),
            set_highPreparedSeqno pos1 s)
      else
        let s2 := set_highPreparedSeqno
                    (mkPosition (it pos1) (seqno snapshotEnd)) s in
        if headInSnapshot (seqno snapshotEnd) tail
        then (Returned false, s2)
        else (Returned true, popSnapshotEnd s2)
    else
      if (isDisk snapshotEnd && negb persisted)
         || headInSnapshot (seqno snapshotEnd) tail
      then (Returned false, set_highPreparedSeqno pos1 s)
      else (Returned true, popSnapshotEnd (set_highPreparedSeqno pos1 s)).
Proof.
  intros persisted maxLevel pos1 Hp Hcan Hasc Hstop.
  pose proof (pendingPrepares_positionAfter s pre tail Hp) as Htail.
  fold pos1 in Htail.
  assert (Hloop :
    when (negb (match trackedWrites s with [] => true | _ => false end))
      (advanceLoop (S (length (trackedWrites s))) (seqno snapshotEnd) maxLevel) s
    = (Returned tt, set_highPreparedSeqno pos1 s)).
  { destruct (trackedWrites s) as [|w0 tw0] eqn:Htw; cbn [negb when].
    - unfold pendingPrepares in Hp. rewrite Htw, drop_nil in Hp.
      symmetry in Hp. apply app_eq_nil in Hp as [-> ->].
      unfold pos1, positionAfter. cbn.
      rewrite set_highPreparedSeqno_same. reflexivity.
    - rewrite <- Htw.
      apply (advanceLoop_run _ _ _ s pre tail); try assumption. lia. }
  unfold processSnapshotEnd.
  fold (isDisk snapshotEnd) (fullyPersisted persistenceSeqno snapshotEnd).
  fold persisted. fold maxLevel.
  unfold bind at 1, get at 1. unfold bind at 1. rewrite Hloop.
  set (s1 := set_highPreparedSeqno pos1 s) in *.
  assert (Hnext :
    inSnapshot (trackedWrites s) (seqno snapshotEnd)
      (getIteratorNext (trackedWrites s) (it pos1))
    = headInSnapshot (seqno snapshotEnd) tail).
  { rewrite inSnapshot_next. unfold pendingPrepares, s1 in Htail.
    cbn in Htail. rewrite Htail. reflexivity. }
  destruct (isDisk snapshotEnd && persisted) eqn:Hdp; cbn [when].
  - unfold bind, get, monotonic_assign, ret, throw, modify. cbv beta iota.
    cbn [highPreparedSeqno s1 set_highPreparedSeqno].
    destruct (seqno snapshotEnd <? lastWriteSeqno pos1); [reflexivity|].
    cbn [set_highPreparedSeqno trackedWrites highPreparedSeqno s1 it].
    rewrite Hnext.
    apply andb_prop in Hdp as [Hd Hpers]. rewrite Hd, Hpers. cbn [negb andb orb].
    destruct (headInSnapshot (seqno snapshotEnd) tail); reflexivity.
  - unfold bind, get, ret, modify. cbv beta iota.
    cbn [set_highPreparedSeqno trackedWrites highPreparedSeqno s1 it].
    rewrite Hnext.
    destruct ((isDisk snapshotEnd && negb persisted)
              || headInSnapshot (seqno snapshotEnd) tail); reflexivity.
Qed.

(** The pending prepares split into the run the loop advances over and
    the rest. *)
Lemma pendingPrepares_split snapshotEndSeqno maxLevel s :
  let k := advanceCount snapshotEndSeqno maxLevel (pendingPrepares s) in
  pendingPrepares s = take k (pendingPrepares s) ++ drop k (pendingPrepares s)
  /\ Forall (fun w => canAdvanceOver snapshotEndSeqno maxLevel w = true)
       (take k (pendingPrepares s))
  /\ stopsAt snapshotEndSeqno maxLevel (drop k (pendingPrepares s)).
Proof.
  intros k. split; [symmetry; apply take_drop|].
  apply advanceCount_split.
Qed.

(** *** The whole of [updateHighPreparedSeqno] when the front snapshot end
    blocks *)

Lemma updateHighPreparedSeqno_blocked persistenceSeqno s snapshotEnd q s1 :
  receivedSnapshotEnds s = snapshotEnd :: q ->
  processSnapshotEnd persistenceSeqno snapshotEnd s = (Returned false, s1) ->
  updateHighPreparedSeqno persistenceSeqno s
  = if lastWriteSeqno (highPreparedSeqno s1)
       =? lastWriteSeqno (highPreparedSeqno s)
    then (Returned tt, s1)
    else checkForAndRemovePrepares s1.
Proof.
  intros Hq Hstep.
  pose proof (processSnapshotEnd_le persistenceSeqno snapshotEnd s) as [Hle _].
  rewrite Hstep in Hle. cbn [snd] in Hle.
  unfold updateHighPreparedSeqno, bind at 1, get at 1, bind at 1.
  cbn [snapshotEndsLoop]. unfold bind at 1, get at 1. rewrite Hq.
  unfold bind at 1. rewrite Hstep. cbn [ret].
  unfold bind at 1, get at 1.
  destruct (Z.eqb_spec (lastWriteSeqno (highPreparedSeqno s1))
              (lastWriteSeqno (highPreparedSeqno s))) as [Heq|Hne];
    cbn [negb]; [reflexivity|].
  unfold bind.
  destruct (Z.ltb_spec (lastWriteSeqno (highPreparedSeqno s))
              (lastWriteSeqno (highPreparedSeqno s1))); [|lia].
  reflexivity.
Qed.

Lemma level_above_None_stops snapshotEndSeqno (ws : Container) :
  Forall (fun w => getLevel (getDurabilityReqs w) <> Level.None) ws ->
  stopsAt snapshotEndSeqno Level.None ws.
Proof.
  destruct ws as [|w ws]; cbn; [trivial|].
  intros H. apply Forall_cons in H as [Hw _].
  unfold canAdvanceOver. apply andb_false_iff. right.
  destruct (getLevel (getDurabilityReqs w)); [contradiction|reflexivity..].
Qed.

(** C3.  For a disk snapshot that is not fully persisted (the persisted
    seqno is below the snapshot end), the level that the HPS may advance
    over is None; every tracked prepare having a level above None, the
    pass of [updateHighPreparedSeqno] over that snapshot end leaves the
    state as it is, [highPreparedSeqno] keeping its seqno and its
    iterator, and tells the loop over the queued snapshot ends to stop;
    when that snapshot end is at the front of the queue,
    [updateHighPreparedSeqno] as a whole returns with the state
    unchanged, the snapshot end still queued and none behind it looked
    at. *)
Theorem disk_snapshot_unpersisted_no_advance persistenceSeqno s snapshotEnd :
  type snapshotEnd = Disk ->
  to_int64 persistenceSeqno < seqno snapshotEnd ->
  Forall (fun w => getLevel (getDurabilityReqs w) <> Level.None)
    (trackedWrites s) ->
  maxLevelCanAdvanceOver (fullyPersisted persistenceSeqno snapshotEnd)
    (isDisk snapshotEnd) = Level.None
  /\ processSnapshotEnd persistenceSeqno snapshotEnd s = (Returned false, s)
  /\ forall q,
       receivedSnapshotEnds s = snapshotEnd :: q ->
       updateHighPreparedSeqno persistenceSeqno s = (Returned tt, s).
Proof.
  intros Hdisk Hpers Hlevels.
  assert (Hd : isDisk snapshotEnd = true) by (unfold isDisk; rewrite Hdisk; reflexivity).
  assert (Hp : fullyPersisted persistenceSeqno snapshotEnd = false).
  { unfold fullyPersisted. apply Z.leb_gt. exact Hpers. }
  rewrite Hd, Hp. split; [reflexivity|].
  assert (Hstep : processSnapshotEnd persistenceSeqno snapshotEnd s
                  = (Returned false, s)).
  { rewrite (processSnapshotEnd_run persistenceSeqno snapshotEnd s []
               (pendingPrepares s)).
    - rewrite Hd, Hp. cbn. unfold positionAfter. cbn.
      rewrite set_highPreparedSeqno_same. reflexivity.
    - reflexivity.
    - constructor.
    - unfold ascendingFrom. cbn. repeat constructor.
    - rewrite Hd, Hp. cbn. apply level_above_None_stops.
      unfold pendingPrepares. apply Forall_drop. exact Hlevels. }
  split; [exact Hstep|]. intros q Hq.
  rewrite (updateHighPreparedSeqno_blocked _ _ _ _ _ Hq Hstep).
  rewrite Z.eqb_refl. reflexivity.
Qed.

Lemma disk_snapshot_unpersisted_no_advance_witness :
  let s := state (run false
             [AddSyncWrite (mkItem Scenarios.k1 15
                (mkRequirements Level.PersistToMajority Infinity)) None;
              NotifySnapshotEndReceived 20] (new (Scenarios.diskVb 10))) in
  processSnapshotEnd 10 (mkSnapshotEnd 20 Disk) s = (Returned false, s)
  /\ updateHighPreparedSeqno 10 s = (Returned tt, s).
Proof.
  intros s.
  assert (Hlevels : Forall (fun w => getLevel (getDurabilityReqs w) <> Level.None)
                      (trackedWrites s)).
  { repeat constructor. discriminate. }
  assert (Hpers : to_int64 10 < seqno (mkSnapshotEnd 20 Disk)).
  { vm_compute. reflexivity. }
  destruct (disk_snapshot_unpersisted_no_advance 10 s (mkSnapshotEnd 20 Disk)
              eq_refl Hpers Hlevels) as (_ & Hstep & Hupdate).
  split; [exact Hstep|]. apply (Hupdate []). reflexivity.
Defined.

(** *** A fully persisted disk snapshot *)

Lemma to_uint64_small z : 0 <= z < 2 ^ 63 -> to_uint64 z = z.
Proof. intros H. unfold to_uint64. apply Z.mod_small. lia. Qed.





(** *** Pruning and the prepares behind the HPS iterator *)

Lemma prunedPrefix_le fence (tw : Container) i w :
  tw !! i = Some w -> fence < getBySeqno w -> (prunedPrefix fence tw <= i)%nat.
Proof.
  revert i. induction tw as [|w0 tw IH]; intros i Hw Hlt; [discriminate|].
  cbn [prunedPrefix]. destruct i as [|i]; cbn in Hw.
  - injection Hw as ->.
    destruct (Z.leb_spec (getBySeqno w) fence); lia.
  - destruct (getBySeqno w0 <=? fence); [|lia].
    specialize (IH i Hw Hlt). lia.
Qed.

(** Pruning below a pending prepare leaves the pending prepares as they
    are. *)
Lemma pendingPrepares_statePruned n s w rest :
  pendingPrepares s = w :: rest ->
  (n <= nextIndex (it (highPreparedSeqno s)))%nat ->
  pendingPrepares (statePruned n s) = w :: rest.
Proof.
  unfold pendingPrepares, statePruned. cbn.
  destruct (it (highPreparedSeqno s)) as [j|]; cbn [nextIndex iteratorAfterPrune].
  - intros Hp Hn. destruct (Nat.ltb_spec j n).
    + cbn [nextIndex]. rewrite drop_0. replace n with (S j) by lia. exact Hp.
    + cbn [nextIndex]. rewrite drop_drop.
      replace (n + S (j - n))%nat with (S j) by lia. exact Hp.
  - intros Hp Hn. replace n with 0%nat by lia. rewrite !drop_0. exact Hp.
Qed.

Lemma positionAfter_lastWriteSeqno idx pre p :
  lastWriteSeqno (positionAfter idx pre p) = seqnoAfter pre (lastWriteSeqno p).
Proof. unfold positionAfter, seqnoAfter. destruct (last pre); reflexivity. Qed.

(** ** The loops of the embedding never lack iterations *)

Lemma advanceLoop_when_eq snapshotEndSeqno maxLevel s :
  when (negb (match trackedWrites s with [] => true | _ => false end))
    (advanceLoop (S (length (trackedWrites s))) snapshotEndSeqno maxLevel) s
  = (fst (advanceOver snapshotEndSeqno maxLevel (pendingPrepares s)
            (nextIndex (it (highPreparedSeqno s))) (highPreparedSeqno s)),
     set_highPreparedSeqno
       (snd (advanceOver snapshotEndSeqno maxLevel (pendingPrepares s)
               (nextIndex (it (highPreparedSeqno s))) (highPreparedSeqno s)))
       s).
Proof.
  destruct (trackedWrites s) as [|w0 tw0] eqn:Htw; cbn [negb when].
  - unfold pendingPrepares. rewrite Htw, drop_nil. cbn.
    rewrite set_highPreparedSeqno_same. reflexivity.
  - rewrite <- Htw. apply advanceLoop_eq.
    unfold pendingPrepares. rewrite length_drop. lia.
Qed.

(** After one snapshot end the queue is as before, or lacks its front
    when the pass says to go on; the pass never lacks iterations. *)
Lemma processSnapshotEnd_queue persistenceSeqno snapshotEnd s r s' :
  processSnapshotEnd persistenceSeqno snapshotEnd s = (r, s') ->
  r <> Thrown out_of_fuel
  /\ receivedSnapshotEnds s'
     = if match r with Returned true => true | _ => false end
       then tail (receivedSnapshotEnds s)
       else receivedSnapshotEnds s.
Proof.
  unfold processSnapshotEnd.
  unfold bind at 1, get at 1. unfold bind at 1.
  rewrite advanceLoop_when_eq.
  match goal with
  | |- context [advanceOver ?e ?m ?l ?i ?p] =>
      pose proof (advanceOver_not_out_of_fuel e m l i p) as Hfuel;
      destruct (advanceOver e m l i p) as [[[]|e1] pos1]
  end; cbn [fst snd] in *.
  2:{ intros [= <- <-]. split; [|reflexivity].
      intros [= ->]. apply Hfuel. reflexivity. }
  unfold bind at 1.
  match goal with |- context [when ?b] => destruct b end; cbn [when].
  - unfold bind at 1, get at 1, bind at 1, monotonic_assign.
    match goal with |- context [if ?b then throw _ else _] => destruct b end;
      cbn [throw ret].
    { intros [= <- <-]. split; [discriminate|reflexivity]. }
    cbn [modify]. unfold bind at 1, get at 1.
    match goal with |- context [if ?b then ret false else _] => destruct b end;
      cbn; intros [= <- <-]; split; (discriminate || reflexivity).
  - cbn [ret]. unfold bind at 1, get at 1.
    match goal with |- context [if ?b then ret false else _] => destruct b end;
      cbn; intros [= <- <-]; split; (discriminate || reflexivity).
Qed.

Lemma snapshotEndsLoop_fuel fuel persistenceSeqno s :
  (length (receivedSnapshotEnds s) < fuel)%nat ->
  fst (snapshotEndsLoop fuel persistenceSeqno s) <> Thrown out_of_fuel.
Proof.
  revert s. induction fuel as [|fuel IH]; intros s Hfuel; [lia|].
  cbn [snapshotEndsLoop]. unfold bind at 1, get at 1.
  destruct (receivedSnapshotEnds s) as [|snapshotEnd q] eqn:Hq;
    [discriminate|].
  unfold bind at 1.
  destruct (processSnapshotEnd persistenceSeqno snapshotEnd s)
    as [r s1] eqn:Hstep.
  apply processSnapshotEnd_queue in Hstep as [Hr Hqueue].
  destruct r as [[|]|e]; cbn [fst].
  - apply IH. rewrite Hqueue, Hq. cbn in *. lia.
  - discriminate.
  - intros [= ->]. apply Hr. reflexivity.
Qed.

(** [updateHighPreparedSeqno] returns or throws a C++ exception: the
    iterations given to its loops always suffice. *)
Lemma updateHighPreparedSeqno_fuel persistenceSeqno s :
  fst (updateHighPreparedSeqno persistenceSeqno s) <> Thrown out_of_fuel.
Proof.
  unfold updateHighPreparedSeqno, bind at 1, get at 1, bind at 1.
  pose proof (snapshotEndsLoop_fuel (S (length (receivedSnapshotEnds s)))
                persistenceSeqno s) as Hloop.
  destruct (snapshotEndsLoop _ persistenceSeqno s) as [[[]|e] s1];
    cbn [fst] in *; [|apply Hloop; lia].
  unfold bind at 1, get at 1.
  destruct (negb _); [|discriminate].
  unfold bind. destruct (_ <? _); cbn [Expects]; [|discriminate].
  cbn [ret]. rewrite checkForAndRemovePrepares_eq. discriminate.
Qed.

Lemma terminates_ret {S A} (a : A) : terminates (@ret S A a).
Proof. intros s. discriminate. Qed.

Lemma terminates_throw {S A} e :
  e <> out_of_fuel -> terminates (@throw S A e).
Proof. intros He s [= ->]. apply He. reflexivity. Qed.

Lemma terminates_get {S} : terminates (@get S).
Proof. intros s. discriminate. Qed.

Lemma terminates_modify {S} (f : S -> S) : terminates (modify f).
Proof. intros s. discriminate. Qed.

Lemma terminates_bind {S A B} (c : Exc S A) (k : A -> Exc S B) :
  terminates c -> (forall a, terminates (k a)) -> terminates (bind c k).
Proof.
  intros Hc Hk s. unfold bind. specialize (Hc s).
  destruct (c s) as [[a|e] s1]; cbn in *.
  - apply Hk.
  - intros [= ->]. apply Hc. reflexivity.
Qed.

Lemma terminates_when {S} b (c : Exc S unit) :
  terminates c -> terminates (when b c).
Proof. destruct b; cbn; [trivial|intros _; apply terminates_ret]. Qed.

Lemma terminates_Expects {S} b : terminates (@Expects S b).
Proof.
  destruct b; [apply terminates_ret|apply terminates_throw; discriminate].
Qed.

Lemma terminates_monotonic_assign {S} cur new :
  terminates (@monotonic_assign S cur new).
Proof.
  unfold monotonic_assign. destruct (new <? cur);
    [apply terminates_throw; discriminate|apply terminates_ret].
Qed.

Lemma terminates_locked {A} (c : Exc State A) :
  terminates c -> terminates (locked c).
Proof. intros Hc pdm. rewrite locked_eq. apply Hc. Qed.

Ltac terminates_step :=
  lazymatch goal with
  | |- terminates (ret _) => apply terminates_ret
  | |- terminates (throw _) => apply terminates_throw; discriminate
  | |- terminates get => apply terminates_get
  | |- terminates (modify _) => apply terminates_modify
  | |- terminates (Expects _) => apply terminates_Expects
  | |- terminates (monotonic_assign _ _) => apply terminates_monotonic_assign
  | |- terminates (when _ _) => apply terminates_when
  | |- terminates (bind _ _) => apply terminates_bind; [|intros ?]
  | |- terminates (locked _) => apply terminates_locked
  | |- terminates (if ?b then _ else _) => destruct b
  | |- terminates (match ?x with _ => _ end) => destruct x
  end.

Lemma checkForAndRemovePrepares_terminates : terminates checkForAndRemovePrepares.
Proof. intros s. rewrite checkForAndRemovePrepares_eq. discriminate. Qed.

Lemma addSyncWrite_terminates dev i o : terminates (addSyncWrite dev i o).
Proof.
  unfold addSyncWrite, addSyncWrite_locked. repeat terminates_step.
Qed.

Lemma completeSyncWrite_terminates key res p :
  terminates (completeSyncWrite key res p).
Proof.
  unfold completeSyncWrite, completeSyncWrite_locked.
  repeat lazymatch goal with
         | |- terminates checkForAndRemovePrepares =>
             apply checkForAndRemovePrepares_terminates
         | _ => terminates_step
         end.
Qed.

Lemma sendSeqnoAck_terminates : terminates sendSeqnoAck.
Proof. intros pdm. rewrite sendSeqnoAck_eq. discriminate. Qed.

Lemma updateAndStoreAck_terminates : terminates updateAndStoreAck.
Proof.
  unfold updateAndStoreAck.
  terminates_step; [terminates_step|].
  terminates_step.
  - terminates_step. intros s. apply updateHighPreparedSeqno_fuel.
  - terminates_step; [terminates_step|].
    intros pdm. rewrite storeSeqnoAck_eq. discriminate.
Qed.

Lemma notifySnapshotEndReceived_locked_terminates snapEnd :
  terminates (notifySnapshotEndReceived_locked snapEnd).
Proof.
  unfold notifySnapshotEndReceived_locked.
  apply terminates_bind; [apply terminates_get|intros pdm].
  apply terminates_bind; [|intros _; apply updateAndStoreAck_terminates].
  apply terminates_locked, terminates_modify.
Qed.

(** No operation of the monitor ends for lack of iterations. *)
Lemma perform_terminates dev op : terminates (perform dev op).
Proof.
  destruct op; cbn [perform].
  - apply addSyncWrite_terminates.
  - apply completeSyncWrite_terminates.
  - unfold notifySnapshotEndReceived. apply terminates_bind.
    + apply notifySnapshotEndReceived_locked_terminates.
    + intros _. apply sendSeqnoAck_terminates.
  - unfold notifyLocalPersistence. apply terminates_bind.
    + apply updateAndStoreAck_terminates.
    + intros _. apply sendSeqnoAck_terminates.
  - apply notifySnapshotEndReceived_locked_terminates.
  - apply updateAndStoreAck_terminates.
  - apply sendSeqnoAck_terminates.
  - apply terminates_modify.
  - apply terminates_modify.
Qed.

(** ** Pruning and the completed flag *)

(** C5 (the code departs from it).  [checkForAndRemovePrepares] erases
    every tracked write at the head whose seqno is at most
    min(HPS, HCS), without looking at its completed flag.  Here the
    prepare of [k1] at seqno 10 is tracked and not completed, the HPS
    seqno being 10; the commit of [k2] at seqno 11, received in a disk
    snapshot, raises the HCS seqno to 11, and the pruning that follows
    erases the prepare of [k1], which was never completed; the completion
    of [k1] that arrives next is refused with a logic error. *)
Theorem pruning_erases_uncompleted_prepare :
  PruneUncompleted.tracked PruneUncompleted.beforeCommit
    = [(Scenarios.k1, 10, false); (Scenarios.k2, 11, false)]
  /\ getHighPreparedSeqno PruneUncompleted.beforeCommit = 10
  /\ getHighCompletedSeqno PruneUncompleted.beforeCommit = 0
  /\ PruneUncompleted.tracked PruneUncompleted.afterCommit
    = [(Scenarios.k2, 11, true)]
  /\ getHighCompletedSeqno PruneUncompleted.afterCommit = 11
  /\ fst (completeSyncWrite Scenarios.k1 Commit (Some 10)
            PruneUncompleted.afterCommit)
     = Thrown (logic_error "No Prepare waiting for completion, but received").
Proof. repeat split; reflexivity. Qed.

(** ** When [completeSyncWrite] fails *)

Lemma completion_tail (w : SyncWrite) n res s1 :
  (Expects (negb (isCompleted w)) ;;
   modify (markCompleted n) ;;
   checkForAndRemovePrepares ;;
   modify (countResolution res)) s1
  = if isCompleted w then (Thrown fail_fast, s1)
    else (Returned tt,
          countResolution res
            (snd (checkForAndRemovePrepares (markCompleted n s1)))).
Proof.
  unfold bind at 1. destruct (isCompleted w); cbn [negb Expects throw ret];
    [reflexivity|].
  unfold bind at 1, modify at 1. unfold bind at 1.
  rewrite checkForAndRemovePrepares_eq. reflexivity.
Qed.

(** [completeSyncWrite] under the state lock, case by case. *)
Lemma completeSyncWrite_locked_eq ordered key res p s :
  completeSyncWrite_locked ordered key res p s
  = match trackedWrites s with
    | [] => (Thrown (logic_error "No tracked, but received"), s)
    | _ :: _ =>
        match deref (trackedWrites s) (completionCandidate ordered key s),
              completionCandidate ordered key s with
        | Some w, Some n =>
            if negb (key_eqb (getKey w) key)
            then (Thrown (logic_error
                    "Pending resolution, but received unexpected"), s)
            else if prepareSeqnoDiffers w p
            then (Thrown (logic_error
                    "Pending resolution, but received unexpected, different prepare seqno"), s)
            else if ordered
                    && (getBySeqno w <? lastWriteSeqno (highCompletedSeqno s))
            then (Thrown (logic_error "Monotonic invariant failed"), s)
            else
              let s1 := withHighCompletedSeqnoOn ordered n w s in
              if isCompleted w then (Thrown fail_fast, s1)
              else (Returned tt,
                    countResolution res
                      (snd (checkForAndRemovePrepares (markCompleted n s1))))
        | _, _ =>
            (Thrown (logic_error
               "No Prepare waiting for completion, but received"), s)
        end
    end.
Proof.
  unfold completeSyncWrite_locked.
  unfold bind at 1, get at 1. unfold bind at 1.
  destruct (trackedWrites s) as [|w0 tw0] eqn:Htw; cbn [when];
    [reflexivity|].
  cbn [ret]. rewrite <- Htw.
  destruct (deref (trackedWrites s) (completionCandidate ordered key s))
    as [w|] eqn:Hcand; [|reflexivity].
  destruct (completionCandidate ordered key s) as [n|] eqn:Hnext;
    [|reflexivity].
  unfold bind at 1.
  destruct (negb (key_eqb (getKey w) key)); cbn [when]; [reflexivity|].
  cbn [ret]. unfold bind at 1.
  destruct (prepareSeqnoDiffers w p); cbn [when]; [reflexivity|].
  cbn [ret]. unfold withHighCompletedSeqnoOn.
  destruct ordered; cbn [orb andb when].
  - unfold bind at 1, bind at 1, monotonic_assign.
    destruct (getBySeqno w <? lastWriteSeqno (highCompletedSeqno s));
      cbn [throw ret]; [reflexivity|].
    cbn [modify]. apply completion_tail.
  - destruct (Z.ltb_spec (lastWriteSeqno (highCompletedSeqno s)) (getBySeqno w));
      cbn [when].
    + unfold bind at 1, bind at 1, monotonic_assign.
      destruct (Z.ltb_spec (getBySeqno w)
                  (lastWriteSeqno (highCompletedSeqno s))); [lia|].
      cbn [ret modify]. apply completion_tail.
    + unfold bind at 1. cbn [ret]. apply completion_tail.
Qed.

Lemma completeSyncWrite_eq key res p pdm :
  completeSyncWrite key res p pdm
  = let r := completeSyncWrite_locked
               (negb (isReceivingDiskSnapshot (vb pdm))) key res p (state pdm) in
    (fst r, set_state (snd r) pdm).
Proof.
  unfold completeSyncWrite, bind, get. rewrite locked_eq. reflexivity.
Qed.




(** ** [addSyncWrite] *)

Lemma addSyncWrite_locked_eq dev i o s :
  addSyncWrite_locked dev i o s
  = if negb (overwriteAsserted i o s) then (Thrown fail_fast, s)
    else
      let s1 := afterOverwrite i o s in
      if duplicateFound dev i s1
      then (Thrown (logic_error "Found SyncWrite"), s1)
      else (Returned tt, appended i s1).
Proof.
  unfold addSyncWrite_locked, overwriteAsserted, afterOverwrite,
    overwriteTarget, duplicateFound.
  assert (Hrest : forall s1 : State,
    (when dev
       (s <- get ;;
        match List.find
                (fun write => negb (isCompleted write)
                              && key_eqb (getKey write) (itemKey i))
                (trackedWrites s) with
        | Some _ => throw (logic_error "Found SyncWrite")
        | None => ret tt
        end) ;;
     modify (fun s => set_trackedWrites (trackedWrites s ++ [newSyncWrite i]) s) ;;
     modify (fun s => set_totalAccepted (size_t_incr (totalAccepted s)) s)) s1
    = if dev && match List.find
                        (fun write => negb (isCompleted write)
                                      && key_eqb (getKey write) (itemKey i))
                        (trackedWrites s1) with
                | Some _ => true
                | None => false
                end
      then (Thrown (logic_error "Found SyncWrite"), s1)
      else (Returned tt, appended i s1)).
  { intros s1. unfold bind at 1. destruct dev; cbn [when andb].
    - unfold bind at 1, get at 1.
      destruct (List.find _ (trackedWrites s1)); reflexivity.
    - reflexivity. }
  unfold bind at 1.
  destruct o as [overwritten|]; [|cbn [ret negb]; apply Hrest].
  unfold bind at 1, get at 1.
  destruct (deref (trackedWrites s) (findKey (itemKey i) (trackedWrites s)))
    as [w|];
    [|cbn [ret negb];
      destruct (findKey (itemKey i) (trackedWrites s)); apply Hrest].
  destruct (findKey (itemKey i) (trackedWrites s)) as [n|];
    [|cbn [ret negb]; apply Hrest].
  unfold bind at 1.
  destruct (getBySeqno w =? overwritten); cbn [Expects negb throw ret];
    [|reflexivity].
  unfold bind at 1, modify at 1. unfold modify at 1. apply Hrest.
Qed.

Lemma addSyncWrite_eq dev i o pdm :
  addSyncWrite dev i o pdm
  = if Level.eqb (getLevel (itemDurabilityReqs i)) Level.None
    then (Thrown (invalid_argument "Level::None"), pdm)
    else if isDefault (getTimeout (itemDurabilityReqs i))
    then (Thrown (invalid_argument
            "timeout is default (explicit value should have been specified by Active node)"),
          pdm)
    else
      let r := addSyncWrite_locked dev i o (state pdm) in
      (fst r, set_state (snd r) pdm).
Proof.
  unfold addSyncWrite, bind at 1.
  destruct (Level.eqb _ _); cbn [when throw ret]; [reflexivity|].
  unfold bind at 1.
  destruct (isDefault _); cbn [when throw ret]; [reflexivity|].
  apply locked_eq.
Qed.

(** C8 as stated fails.  The item has level Majority and an explicit
    timeout, so neither validation error applies; but
    [overwritingPrepareSeqno] is 7 while the tracked prepare of the same
    key has seqno 5: the assertion on the seqno fails, the call throws,
    and nothing is appended nor counted.  In a development build the
    same item, given without [overwritingPrepareSeqno], is refused with a
    logic error, because the tracked prepare of its key is not
    completed. *)
Lemma addSyncWrite_valid_item_not_appended :
  let pdm := run false
    [AddSyncWrite (Scenarios.prepare Scenarios.k1 5 Level.Majority) None]
    (new (Scenarios.diskVb 0)) in
  let i := Scenarios.prepare Scenarios.k1 12 Level.Majority in
  getLevel (itemDurabilityReqs i) <> Level.None
  /\ isDefault (getTimeout (itemDurabilityReqs i)) = false
  /\ map getBySeqno (trackedWrites (state pdm)) = [5]
  /\ getNumAccepted pdm = 1
  /\ addSyncWrite false i (Some 7) pdm = (Thrown fail_fast, pdm)
  /\ addSyncWrite true i (Some 7) pdm = (Thrown fail_fast, pdm)
  /\ addSyncWrite true i None pdm
     = (Thrown (logic_error "Found SyncWrite"), pdm).
Proof. repeat split; (reflexivity || discriminate). Qed.

Lemma afterOverwrite_cursors i o s :
  highPreparedSeqno (afterOverwrite i o s)
  = mkPosition (iteratorAfterOverwrite i o s (it (highPreparedSeqno s)))
      (lastWriteSeqno (highPreparedSeqno s))
  /\ highCompletedSeqno (afterOverwrite i o s)
     = mkPosition (iteratorAfterOverwrite i o s (it (highCompletedSeqno s)))
         (lastWriteSeqno (highCompletedSeqno s))
  /\ trackedWrites (afterOverwrite i o s)
     = match overwriteTarget i o s with
       | Some (n, _) => delete n (trackedWrites s)
       | None => trackedWrites s
       end
  /\ totalAccepted (afterOverwrite i o s) = totalAccepted s.
Proof.
  unfold afterOverwrite, iteratorAfterOverwrite.
  destruct (overwriteTarget i o s) as [[n w]|].
  - destruct s as [tw [hpsIt hps] [hcsIt hcs] q a c b].
    unfold eraseTracked, resetIteratorsAt, set_it.
    cbn -[iterator_eqb reindex delete].
    destruct (iterator_eqb (Some n) hcsIt) eqn:Hc;
      cbn -[iterator_eqb reindex delete];
      destruct (iterator_eqb (Some n) hpsIt) eqn:Hp;
      cbn -[iterator_eqb reindex delete];
      repeat split; reflexivity.
  - destruct s as [tw [hpsIt hps] [hcsIt hcs] q a c b]. repeat split.
Qed.

(** C8, amended.  [addSyncWrite(item, overwritingPrepareSeqno?)]: if the
    item's level is None it fails with the invalid-level error; else if
    its timeout is the default sentinel it fails with the invalid-timeout
    error; in both cases the monitor is unchanged.  Else, if
    [overwritingPrepareSeqno] is present and the first tracked write with
    the item's key has another seqno, the assertion fails and the monitor
    is unchanged.  Else, unless a development build finds a tracked write
    of that key that is not completed, the call returns: the overwritten
    write, if any, is erased and the new write appended at the tail,
    [totalAccepted] is incremented, both cursors keep their seqno, and
    the iterator of each stays on its node or, if that node was the
    erased one, is [end()]. *)
Theorem addSyncWrite_outcomes dev i o pdm :
  let s := state pdm in
  let r := addSyncWrite dev i o pdm in
  (getLevel (itemDurabilityReqs i) = Level.None ->
     r = (Thrown (invalid_argument "Level::None"), pdm))
  /\ (getLevel (itemDurabilityReqs i) <> Level.None ->
      isDefault (getTimeout (itemDurabilityReqs i)) = true ->
      r = (Thrown (invalid_argument
             "timeout is default (explicit value should have been specified by Active node)"),
           pdm))
  /\ (getLevel (itemDurabilityReqs i) <> Level.None ->
      isDefault (getTimeout (itemDurabilityReqs i)) = false ->
      overwriteAsserted i o s = false ->
      r = (Thrown fail_fast, pdm))
  /\ (getLevel (itemDurabilityReqs i) <> Level.None ->
      isDefault (getTimeout (itemDurabilityReqs i)) = false ->
      overwriteAsserted i o s = true ->
      duplicateFound dev i (afterOverwrite i o s) = false ->
      let s' := state (snd r) in
      fst r = Returned tt
      /\ trackedWrites s'
         = match overwriteTarget i o s with
           | Some (n, _) => delete n (trackedWrites s)
           | None => trackedWrites s
           end ++ [newSyncWrite i]
      /\ totalAccepted s' = size_t_incr (totalAccepted s)
      /\ highPreparedSeqno s'
         = mkPosition (iteratorAfterOverwrite i o s (it (highPreparedSeqno s)))
             (lastWriteSeqno (highPreparedSeqno s))
      /\ highCompletedSeqno s'
         = mkPosition (iteratorAfterOverwrite i o s (it (highCompletedSeqno s)))
             (lastWriteSeqno (highCompletedSeqno s))).
Proof.
  cbn zeta. rewrite addSyncWrite_eq, addSyncWrite_locked_eq.
  destruct (Level.eqb (getLevel (itemDurabilityReqs i)) Level.None) eqn:Hl.
  { apply Level_eqb_eq in Hl. repeat split; try contradiction. }
  assert (Hnl : getLevel (itemDurabilityReqs i) <> Level.None).
  { intros H. apply Level_eqb_eq in H. congruence. }
  split; [intros H; contradiction|].
  destruct (isDefault (getTimeout (itemDurabilityReqs i))).
  { repeat split; try discriminate. }
  split; [discriminate|].
  destruct (overwriteAsserted i o (state pdm)); cbn [negb fst snd].
  2:{ split; [intros _ _ _; rewrite set_state_state; reflexivity|].
      discriminate. }
  split; [discriminate|]. intros _ _ _ Hdup. cbn zeta. rewrite Hdup.
  cbn [fst snd state set_state].
  destruct (afterOverwrite_cursors i o (state pdm)) as (Hp & Hc & Htw & Hacc).
  split; [reflexivity|]. unfold appended. cbn.
  rewrite Htw, Hacc, Hp, Hc. repeat split.
Qed.

Lemma addSyncWrite_outcomes_witness :
  let pdm := run false
    [AddSyncWrite (Scenarios.prepare Scenarios.k1 5 Level.Majority) None]
    (new (Scenarios.diskVb 0)) in
  let i := Scenarios.prepare Scenarios.k1 12 Level.Majority in
  let s' := state (snd (addSyncWrite true i (Some 5) pdm)) in
  fst (addSyncWrite true i (Some 5) pdm) = Returned tt
  /\ trackedWrites s' = [newSyncWrite i]
  /\ totalAccepted s' = 2.
Proof.
  intros pdm i s'.
  pose proof (addSyncWrite_outcomes true i (Some 5) pdm) as H.
  cbn zeta in H. destruct H as (_ & _ & _ & H).
  assert (Hlevel : getLevel (itemDurabilityReqs i) <> Level.None)
    by discriminate.
  destruct (H Hlevel eq_refl eq_refl eq_refl) as (Hr & Htw & Hacc & _).
  split; [exact Hr|]. split; [exact Htw|exact Hacc].
Defined.

Lemma findKey_no_match key (tw : Container) :
  Forall (fun w => getKey w <> key) tw -> findKey key tw = None.
Proof.
  unfold findKey. generalize 0%nat.
  induction tw as [|w tw IH]; intros n H; cbn; [reflexivity|].
  apply Forall_cons in H as [Hw H].
  unfold key_eqb. destruct (String.eqb_spec (getKey w) key); [contradiction|].
  apply IH, H.
Qed.

Lemma find_duplicate_no_match key (tw : Container) :
  Forall (fun w => getKey w <> key) tw ->
  List.find (fun write => negb (isCompleted write) && key_eqb (getKey write) key)
    tw = None.
Proof.
  induction tw as [|w tw IH]; intros H; cbn; [reflexivity|].
  apply Forall_cons in H as [Hw H].
  unfold key_eqb at 1. destruct (String.eqb_spec (getKey w) key);
    [contradiction|].
  rewrite andb_false_r. apply IH, H.
Qed.

(** C10.  When [overwritingPrepareSeqno] is present and no tracked write
    has the item's key, the part of [addSyncWrite] that runs under the
    state lock returns.  The erase step is skipped: [trackedWrites] after
    the call is [trackedWrites] of before followed by one new write, which
    holds the item and is not completed, and both cursors, iterator and
    seqno, are as before.  [totalAccepted] is one more than before (modulo
    2^64, the counter being a [size_t]); the queue of snapshot ends and the
    two other counters are as before.  So does the whole call for an item
    that passes the two checks made before the lock is taken (its level is
    not None, its timeout not the default); it leaves the VBucket and the
    latch as they are. *)
Theorem addSyncWrite_overwrite_without_match dev i overwritten :
  (forall s,
     Forall (fun w => getKey w <> itemKey i) (trackedWrites s) ->
     addSyncWrite_locked dev i (Some overwritten) s
     = (Returned tt,
        mkState (trackedWrites s ++ [mkSyncWrite i false])
          (highPreparedSeqno s) (highCompletedSeqno s)
          (receivedSnapshotEnds s) ((totalAccepted s + 1) mod 2 ^ 64)
          (totalCommitted s) (totalAborted s)))
  /\ (forall pdm,
        getLevel (itemDurabilityReqs i) <> Level.None ->
        isDefault (getTimeout (itemDurabilityReqs i)) = false ->
        Forall (fun w => getKey w <> itemKey i) (trackedWrites (state pdm)) ->
        addSyncWrite dev i (Some overwritten) pdm
        = (Returned tt,
           mkPDM (vb pdm)
             (mkState (trackedWrites (state pdm) ++ [mkSyncWrite i false])
                (highPreparedSeqno (state pdm)) (highCompletedSeqno (state pdm))
                (receivedSnapshotEnds (state pdm))
                ((totalAccepted (state pdm) + 1) mod 2 ^ 64)
                (totalCommitted (state pdm)) (totalAborted (state pdm)))
             (seqnoToAck pdm))).
Proof.
  assert (Hlocked : forall s,
    Forall (fun w => getKey w <> itemKey i) (trackedWrites s) ->
    addSyncWrite_locked dev i (Some overwritten) s
    = (Returned tt,
       mkState (trackedWrites s ++ [mkSyncWrite i false])
         (highPreparedSeqno s) (highCompletedSeqno s)
         (receivedSnapshotEnds s) ((totalAccepted s + 1) mod 2 ^ 64)
         (totalCommitted s) (totalAborted s))).
  { intros s Hkeys. rewrite addSyncWrite_locked_eq.
    unfold overwriteAsserted, afterOverwrite, overwriteTarget, duplicateFound.
    rewrite (findKey_no_match _ _ Hkeys). cbn [deref negb].
    rewrite (find_duplicate_no_match _ _ Hkeys), andb_false_r. reflexivity. }
  split; [exact Hlocked|].
  intros pdm Hlevel Htimeout Hkeys. rewrite addSyncWrite_eq.
  destruct (Level.eqb _ _) eqn:Hl;
    [apply Level_eqb_eq in Hl; contradiction|].
  rewrite Htimeout, (Hlocked _ Hkeys). reflexivity.
Qed.

Lemma addSyncWrite_overwrite_without_match_witness :
  let pdm := run false
    [AddSyncWrite (Scenarios.prepare Scenarios.k1 5 Level.Majority) None]
    (new (Scenarios.diskVb 0)) in
  let i := Scenarios.prepare Scenarios.k2 8 Level.PersistToMajority in
  let r := addSyncWrite true i (Some 7) pdm in
  fst r = Returned tt
  /\ map (fun w => (getKey w, getBySeqno w, isCompleted w))
       (trackedWrites (state (snd r)))
     = [(Scenarios.k1, 5, false); (Scenarios.k2, 8, false)]
  /\ totalAccepted (state (snd r)) = 2
  /\ highPreparedSeqno (state (snd r)) = mkPosition None 0
  /\ highCompletedSeqno (state (snd r)) = mkPosition None 0.
Proof.
  intros pdm i r. subst r.
  rewrite (proj2 (addSyncWrite_overwrite_without_match true i 7) pdm).
  - repeat split.
  - discriminate.
  - reflexivity.
  - constructor; [discriminate|constructor].
Defined.

(** ** The failover table *)

Example S6_no_rollback :
  FailoverTable.rollback
    (FailoverTable.needsRollback S6_table 60 100 3 55 60 0 false None)
  = false.
Proof. reflexivity. Qed.

Example S6_rollback_to_100 :
  let v :=
    FailoverTable.needsRollback S6_table 120 100 3 120 120 0 false None in
  (FailoverTable.rollback v, FailoverTable.rollback_seqno v) = (true, Some 100).
Proof. reflexivity. Qed.

Example S6_unknown_uuid :
  let v := FailoverTable.needsRollback S6_table 40 100 99 40 40 0 false None in
  (FailoverTable.rollback v, FailoverTable.rollback_seqno v) = (true, Some 0).
Proof. reflexivity. Qed.

(** C9.  Whatever the failover table and the other arguments,
    [needsRollback] with [start_seqno == 0] and
    [strictVbUuidMatch == false] answers that no rollback is needed. *)
Theorem needsRollback_start_zero (table : FailoverTable.table_t)
    (cur_seqno uuid snap_start_seqno snap_end_seqno purge_seqno : Z)
    (maxCollectionHighSeqno : option Z) :
  FailoverTable.rollback
    (FailoverTable.needsRollback table 0 cur_seqno uuid snap_start_seqno
       snap_end_seqno purge_seqno false maxCollectionHighSeqno)
  = false.
Proof. reflexivity. Qed.

(** * Further properties of the monitor *)

(** ** Relations kept by every operation *)

Section Lifting.
Context (R : State -> State -> Prop).
Context `{!Reflexive R} `{!Transitive R}.

#[local] Instance onState_refl : Reflexive (onState R).
Proof. intros pdm. unfold onState. reflexivity. Qed.

#[local] Instance onState_trans : Transitive (onState R).
Proof. intros a b c. unfold onState. apply transitivity. Qed.

Lemma always_onState_locked {A} (c : Exc State A) :
  always R c -> always (onState R) (locked c).
Proof. intros H pdm. rewrite locked_eq. apply H. Qed.

(** A relation on states that the three computations under the state
    lock keep, and that does not look at the queue of snapshot ends, is
    kept by every operation. *)
Lemma perform_onState dev :
  (forall i o, always R (addSyncWrite_locked dev i o)) ->
  (forall ordered key res p,
     always R (completeSyncWrite_locked ordered key res p)) ->
  (forall persistenceSeqno, always R (updateHighPreparedSeqno persistenceSeqno)) ->
  (forall q s, R s (set_receivedSnapshotEnds q s)) ->
  forall op, always (onState R) (perform dev op).
Proof.
  intros Hadd Hcomplete Hupdate Hqueue.
  assert (Hstore : forall a b, always (onState R) (storeSeqnoAck a b)).
  { intros a b pdm. rewrite storeSeqnoAck_eq. cbn [snd].
    destruct (_ && _); unfold onState; reflexivity. }
  assert (Hsend : always (onState R) sendSeqnoAck).
  { intros pdm. rewrite sendSeqnoAck_eq. unfold onState; reflexivity. }
  assert (Hupd : always (onState R) updateAndStoreAck).
  { unfold updateAndStoreAck.
    apply always_bind; try typeclasses eauto; [apply always_get; typeclasses eauto|].
    intros pdm.
    apply always_bind; try typeclasses eauto;
      [apply always_onState_locked, Hupdate|intros _].
    apply always_bind; try typeclasses eauto; [apply always_get; typeclasses eauto|].
    intros pdm'. apply Hstore. }
  assert (Hnotify : forall snapEnd,
    always (onState R) (notifySnapshotEndReceived_locked snapEnd)).
  { intros snapEnd. unfold notifySnapshotEndReceived_locked.
    apply always_bind; try typeclasses eauto; [apply always_get; typeclasses eauto|].
    intros pdm.
    apply always_bind; try typeclasses eauto; [|intros _; exact Hupd].
    apply always_onState_locked, always_modify. intros s. apply Hqueue. }
  intros op. destruct op; cbn [perform].
  - unfold addSyncWrite.
    apply always_bind; try typeclasses eauto; [|intros _].
    { apply always_when; try typeclasses eauto.
      apply always_throw; typeclasses eauto. }
    apply always_bind; try typeclasses eauto; [|intros _].
    { apply always_when; try typeclasses eauto.
      apply always_throw; typeclasses eauto. }
    apply always_onState_locked, Hadd.
  - unfold completeSyncWrite. apply always_get_bind. intros pdm.
    apply always_onState_locked, Hcomplete.
  - unfold notifySnapshotEndReceived.
    apply always_bind; try typeclasses eauto; [apply Hnotify|intros _; exact Hsend].
  - unfold notifyLocalPersistence.
    apply always_bind; try typeclasses eauto; [exact Hupd|intros _; exact Hsend].
  - apply Hnotify.
  - exact Hupd.
  - exact Hsend.
  - apply always_modify. intros pdm. unfold onState; reflexivity.
  - apply always_modify. intros pdm. unfold onState; reflexivity.
Qed.

Lemma run_onState dev :
  (forall op, always (onState R) (perform dev op)) ->
  forall ops pdm, onState R pdm (run dev ops pdm).
Proof.
  intros Hop ops. induction ops as [|op ops IH]; intros pdm; cbn.
  - reflexivity.
  - etransitivity; [apply (Hop op pdm)|apply IH].
Qed.

End Lifting.

(** ** The iterators of the cursors are never invalid *)

#[local] Instance keepsIteratorsValid_refl : Reflexive keepsIteratorsValid.
Proof. intros s H. exact H. Qed.

#[local] Instance keepsIteratorsValid_trans : Transitive keepsIteratorsValid.
Proof. intros a b c Hab Hbc H. apply Hbc, Hab, H. Qed.

Lemma cursorValid_on tw n v w :
  tw !! n = Some w -> getBySeqno w <= v ->
  cursorValid tw (mkPosition (Some n) v) = true.
Proof.
  intros Hw Hle. unfold cursorValid. cbn. rewrite Hw. apply Z.leb_le, Hle.
Qed.

Lemma cursorValid_inv tw p n :
  cursorValid tw p = true -> it p = Some n ->
  exists w, tw !! n = Some w /\ getBySeqno w <= lastWriteSeqno p.
Proof.
  unfold cursorValid. intros H Hn. rewrite Hn in H.
  destruct (tw !! n) as [w|]; [|discriminate].
  exists w. split; [reflexivity|apply Z.leb_le, H].
Qed.

Lemma cursorValid_raise tw p v :
  cursorValid tw p = true -> lastWriteSeqno p <= v ->
  cursorValid tw (mkPosition (it p) v) = true.
Proof.
  intros H Hle. destruct (it p) as [n|] eqn:Hn; [|reflexivity].
  destruct (cursorValid_inv _ _ _ H Hn) as (w & Hw & Hs).
  apply (cursorValid_on _ _ _ w); [exact Hw|lia].
Qed.

Lemma cursorValid_pruned n tw p :
  cursorValid tw p = true ->
  cursorValid (drop n tw) (set_it (iteratorAfterPrune n (it p)) p) = true.
Proof.
  intros H. destruct (it p) as [k|] eqn:Hk; [|reflexivity].
  destruct (cursorValid_inv _ _ _ H Hk) as (w & Hw & Hs).
  unfold iteratorAfterPrune, set_it.
  destruct (Nat.ltb_spec k n); [reflexivity|].
  apply (cursorValid_on _ _ _ w); [|exact Hs].
  rewrite lookup_drop. replace (n + (k - n))%nat with k by lia. exact Hw.
Qed.

Lemma cursorValid_erased n tw p :
  cursorValid tw p = true ->
  cursorValid (delete n tw)
    (mkPosition (if iterator_eqb (Some n) (it p) then None
                 else reindex n (it p)) (lastWriteSeqno p)) = true.
Proof.
  intros H. destruct (it p) as [k|] eqn:Hk; [|reflexivity].
  destruct (cursorValid_inv _ _ _ H Hk) as (w & Hw & Hs).
  cbn [iterator_eqb reindex].
  destruct (Nat.eqb_spec n k) as [->|Hne]; [reflexivity|].
  destruct (Nat.ltb_spec n k).
  - apply (cursorValid_on _ _ _ w); [|exact Hs].
    rewrite list_lookup_delete_ge by lia.
    replace (S (Nat.pred k)) with k by lia. exact Hw.
  - apply (cursorValid_on _ _ _ w); [|exact Hs].
    rewrite list_lookup_delete_lt by lia. exact Hw.
Qed.

Lemma cursorValid_appended tw x p :
  cursorValid tw p = true -> cursorValid (tw ++ [x]) p = true.
Proof.
  intros H. destruct p as [[k|] v]; [|reflexivity].
  destruct (cursorValid_inv _ _ k H eq_refl) as (w & Hw & Hs).
  apply (cursorValid_on _ _ _ w); [|exact Hs].
  apply lookup_app_l_Some, Hw.
Qed.

Lemma cursorValid_completed n tw p :
  cursorValid tw p = true -> cursorValid (alter setCompleted n tw) p = true.
Proof.
  intros H. destruct p as [[k|] v]; [|reflexivity].
  destruct (cursorValid_inv _ _ k H eq_refl) as (w & Hw & Hs).
  cbn in Hs. destruct (decide (n = k)) as [->|Hne].
  - apply (cursorValid_on _ _ _ (setCompleted w)); [|exact Hs].
    rewrite list_lookup_alter_eq, Hw. reflexivity.
  - apply (cursorValid_on _ _ _ w); [|exact Hs].
    rewrite list_lookup_alter_ne by exact Hne. exact Hw.
Qed.

Lemma iteratorsValid_inv s :
  iteratorsValid s = true ->
  cursorValid (trackedWrites s) (highPreparedSeqno s) = true
  /\ cursorValid (trackedWrites s) (highCompletedSeqno s) = true.
Proof. unfold iteratorsValid. apply andb_prop. Qed.

Lemma iteratorsValid_intro s :
  cursorValid (trackedWrites s) (highPreparedSeqno s) = true ->
  cursorValid (trackedWrites s) (highCompletedSeqno s) = true ->
  iteratorsValid s = true.
Proof. unfold iteratorsValid. intros -> ->. reflexivity. Qed.

Lemma statePruned_valid n s : keepsIteratorsValid s (statePruned n s).
Proof.
  intros H. apply iteratorsValid_inv in H as [Hp Hc].
  apply iteratorsValid_intro; cbn [statePruned trackedWrites highPreparedSeqno
    highCompletedSeqno]; apply cursorValid_pruned; assumption.
Qed.

Lemma checkForAndRemovePrepares_valid :
  always keepsIteratorsValid checkForAndRemovePrepares.
Proof.
  intros s. rewrite checkForAndRemovePrepares_eq. apply statePruned_valid.
Qed.

Lemma advanceOver_valid snapshotEndSeqno maxLevel tw pending idx p :
  drop idx tw = pending ->
  cursorValid tw p = true ->
  cursorValid tw (snd (advanceOver snapshotEndSeqno maxLevel pending idx p))
  = true.
Proof.
  revert idx p. induction pending as [|w rest IH]; intros idx p Hd H; cbn;
    [exact H|].
  destruct (_ && _); [|exact H].
  destruct (getBySeqno w <? lastWriteSeqno p); [exact H|].
  apply drop_cons_inv in Hd as [Hw Hrest].
  apply IH; [exact Hrest|].
  apply (cursorValid_on _ _ _ w); [exact Hw|lia].
Qed.

(** [processSnapshotEnd] is [snapshotEndPass]. *)
Lemma processSnapshotEnd_eq persistenceSeqno snapshotEnd s :
  processSnapshotEnd persistenceSeqno snapshotEnd s
  = snapshotEndPass persistenceSeqno snapshotEnd s.
Proof.
  unfold processSnapshotEnd, snapshotEndPass.
  fold (isDisk snapshotEnd) (fullyPersisted persistenceSeqno snapshotEnd).
  unfold bind at 1, get at 1. unfold bind at 1.
  rewrite advanceLoop_when_eq. cbn zeta.
  match goal with
  | |- context [advanceOver ?e ?m ?l ?i ?p] =>
      destruct (advanceOver e m l i p) as [[[]|e1] pos1]
  end; cbn [fst snd]; [|reflexivity].
  unfold bind at 1.
  destruct (isDisk snapshotEnd && fullyPersisted persistenceSeqno snapshotEnd)
    eqn:Hdp; cbn [when].
  - unfold bind at 1, get at 1, bind at 1, monotonic_assign.
    cbn [set_highPreparedSeqno highPreparedSeqno].
    destruct (seqno snapshotEnd <? lastWriteSeqno pos1); cbn [throw ret];
      [reflexivity|].
    cbn [modify]. unfold bind at 1, get at 1.
    rewrite inSnapshot_next.
    apply andb_prop in Hdp as [Hd Hpers]. rewrite Hd, Hpers.
    cbn [negb andb orb]. unfold pendingPrepares.
    cbn [set_highPreparedSeqno highPreparedSeqno trackedWrites it].
    destruct (headInSnapshot _ _); reflexivity.
  - cbn [ret]. unfold bind at 1, get at 1.
    rewrite inSnapshot_next. unfold pendingPrepares.
    cbn [set_highPreparedSeqno highPreparedSeqno trackedWrites it].
    destruct (_ || _); reflexivity.
Qed.

Lemma processSnapshotEnd_valid persistenceSeqno snapshotEnd :
  always keepsIteratorsValid (processSnapshotEnd persistenceSeqno snapshotEnd).
Proof.
  intros s H. rewrite processSnapshotEnd_eq. unfold snapshotEndPass.
  apply iteratorsValid_inv in H as [Hp Hc].
  pose proof (advanceOver_valid (seqno snapshotEnd)
    (maxLevelCanAdvanceOver (fullyPersisted persistenceSeqno snapshotEnd)
       (isDisk snapshotEnd))
    (trackedWrites s) (pendingPrepares s)
    (nextIndex (it (highPreparedSeqno s))) (highPreparedSeqno s)
    eq_refl Hp) as Hadv.
  cbn zeta.
  destruct (advanceOver _ _ _ _ _) as [[[]|e] pos1]; cbn [fst snd] in *.
  2:{ apply iteratorsValid_intro; assumption. }
  destruct (_ && _).
  - destruct (Z.ltb_spec (seqno snapshotEnd) (lastWriteSeqno pos1)).
    { apply iteratorsValid_intro; assumption. }
    assert (Hraised :
      cursorValid (trackedWrites s)
        (mkPosition (it pos1) (seqno snapshotEnd)) = true)
      by (apply cursorValid_raise; [exact Hadv|lia]).
    destruct (headInSnapshot _ _); apply iteratorsValid_intro; assumption.
  - destruct (_ || _); apply iteratorsValid_intro; assumption.
Qed.

Lemma snapshotEndsLoop_valid fuel persistenceSeqno :
  always keepsIteratorsValid (snapshotEndsLoop fuel persistenceSeqno).
Proof.
  induction fuel as [|fuel IH]; cbn [snapshotEndsLoop]; [always_step|].
  always_bind_tac; [always_step|].
  intros s. destruct (receivedSnapshotEnds s); [always_step|].
  always_bind_tac; [apply processSnapshotEnd_valid|].
  intros [|]; [exact IH|always_step].
Qed.

Lemma updateHighPreparedSeqno_valid persistenceSeqno :
  always keepsIteratorsValid (updateHighPreparedSeqno persistenceSeqno).
Proof.
  unfold updateHighPreparedSeqno.
  always_bind_tac; [always_step|].
  intros s0.
  always_bind_tac; [apply snapshotEndsLoop_valid|intros _].
  always_bind_tac; [always_step|].
  intros s1. destruct (negb _); [|always_step].
  always_bind_tac; [always_step|intros _].
  apply checkForAndRemovePrepares_valid.
Qed.

Lemma afterOverwrite_valid i o s : keepsIteratorsValid s (afterOverwrite i o s).
Proof.
  intros H. apply iteratorsValid_inv in H as [Hp Hc].
  destruct (afterOverwrite_cursors i o s) as (Ep & Ec & Etw & _).
  apply iteratorsValid_intro; rewrite Etw; [rewrite Ep|rewrite Ec];
    unfold iteratorAfterOverwrite;
    destruct (overwriteTarget i o s) as [[n w]|];
    try (apply cursorValid_erased; assumption).
  - destruct (highPreparedSeqno s); exact Hp.
  - destruct (highCompletedSeqno s); exact Hc.
Qed.

Lemma appended_valid i s : keepsIteratorsValid s (appended i s).
Proof.
  intros H. apply iteratorsValid_inv in H as [Hp Hc].
  apply iteratorsValid_intro; cbn; apply cursorValid_appended; assumption.
Qed.

Lemma addSyncWrite_locked_valid dev i o :
  always keepsIteratorsValid (addSyncWrite_locked dev i o).
Proof.
  intros s. rewrite addSyncWrite_locked_eq.
  destruct (negb _); [reflexivity|]. cbn zeta.
  destruct (duplicateFound _ _ _); cbn [snd]; [apply afterOverwrite_valid|].
  etransitivity; [apply afterOverwrite_valid|apply appended_valid].
Qed.

Lemma completeSyncWrite_locked_valid ordered key res p :
  always keepsIteratorsValid (completeSyncWrite_locked ordered key res p).
Proof.
  intros s. rewrite completeSyncWrite_locked_eq.
  destruct (trackedWrites s) as [|w0 tw0] eqn:Htw; [reflexivity|].
  rewrite <- Htw.
  destruct (deref _ _) as [w|] eqn:Hw; [|reflexivity].
  destruct (completionCandidate ordered key s) as [n|]; [|reflexivity].
  cbn [deref] in Hw.
  destruct (negb _); [reflexivity|].
  destruct (prepareSeqnoDiffers w p); [reflexivity|].
  destruct (_ && _); [reflexivity|]. cbn zeta.
  assert (H1 : keepsIteratorsValid s (withHighCompletedSeqnoOn ordered n w s)).
  { intros H. unfold withHighCompletedSeqnoOn.
    destruct (_ || _); [|exact H].
    apply iteratorsValid_inv in H as [Hp Hc].
    apply iteratorsValid_intro;
      cbn [set_highCompletedSeqno trackedWrites highPreparedSeqno
           highCompletedSeqno]; [exact Hp|].
    apply (cursorValid_on _ _ _ w); [exact Hw|lia]. }
  set (s1 := withHighCompletedSeqnoOn ordered n w s) in *.
  destruct (isCompleted w); cbn [snd]; [exact H1|].
  intros H. apply H1 in H.
  assert (H2 : iteratorsValid (markCompleted n s1) = true).
  { apply iteratorsValid_inv in H as [Hp Hc].
    apply iteratorsValid_intro;
      cbn [markCompleted set_trackedWrites trackedWrites highPreparedSeqno
           highCompletedSeqno];
      apply cursorValid_completed; assumption. }
  apply checkForAndRemovePrepares_valid in H2.
  destruct res; exact H2.
Qed.

Lemma perform_valid dev op :
  always (onState keepsIteratorsValid) (perform dev op).
Proof.
  apply perform_onState; try typeclasses eauto.
  - apply addSyncWrite_locked_valid.
  - apply completeSyncWrite_locked_valid.
  - apply updateHighPreparedSeqno_valid.
  - intros q s H. exact H.
Qed.

Lemma trackOutstanding_valid hps hcs s prepare :
  lastWriteSeqno (highPreparedSeqno s) = hps ->
  lastWriteSeqno (highCompletedSeqno s) = hcs ->
  iteratorsValid s = true ->
  let s' := trackOutstanding hps hcs s prepare in
  lastWriteSeqno (highPreparedSeqno s') = hps
  /\ lastWriteSeqno (highCompletedSeqno s') = hcs
  /\ iteratorsValid s' = true.
Proof.
  intros Hhps Hhcs H. apply iteratorsValid_inv in H as [Hp Hc].
  assert (Hlast : forall v, itemBySeqno prepare <= v ->
    cursorValid (trackedWrites s ++ [newSyncWrite prepare])
      (mkPosition
         (Some (Nat.pred (length (trackedWrites s ++ [newSyncWrite prepare]))))
         v) = true).
  { intros v Hv. apply (cursorValid_on _ _ _ (newSyncWrite prepare)); [|exact Hv].
    rewrite length_app. cbn [length].
    replace (Nat.pred (length (trackedWrites s) + 1)) with
      (length (trackedWrites s) + 0)%nat by lia.
    rewrite lookup_app_r by lia.
    replace (length (trackedWrites s) + 0 - length (trackedWrites s))%nat
      with 0%nat by lia.
    reflexivity. }
  pose proof (cursorValid_appended _ (newSyncWrite prepare) _ Hp) as Hp'.
  pose proof (cursorValid_appended _ (newSyncWrite prepare) _ Hc) as Hc'.
  unfold trackOutstanding. cbn zeta.
  destruct (Z.leb_spec (itemBySeqno prepare) hps) as [Hle1|Hgt1];
    destruct (Z.leb_spec (itemBySeqno prepare) hcs) as [Hle2|Hgt2];
    cbn; (split; [exact Hhps|split; [exact Hhcs|]]);
    apply iteratorsValid_intro; cbn; unfold set_it;
    try assumption; try (apply Hlast; lia).
Qed.

Lemma constructors_valid v hps hcs prepares :
  iteratorsValid (state (new v)) = true
  /\ iteratorsValid (state (newAt v hps hcs)) = true
  /\ iteratorsValid (state (newWithPrepares v hps hcs prepares)) = true.
Proof.
  split; [reflexivity|]. split; [reflexivity|].
  unfold newWithPrepares. cbn [state set_state].
  assert (Hgen : forall s,
    lastWriteSeqno (highPreparedSeqno s) = hps ->
    lastWriteSeqno (highCompletedSeqno s) = hcs ->
    iteratorsValid s = true ->
    iteratorsValid (fold_left (trackOutstanding hps hcs) prepares s) = true).
  { induction prepares as [|prepare prepares IH]; intros s Hp Hc H; cbn;
      [exact H|].
    destruct (trackOutstanding_valid hps hcs s prepare Hp Hc H)
      as (Hp' & Hc' & H').
    apply IH; assumption. }
  apply Hgen; reflexivity.
Qed.

(** X1.  The comment of the first constructor has it that a [Position]
    is never invalid, and [checkForAndRemovePrepares] resets the iterators
    of the nodes it erases to keep it so.  Whatever the constructor that
    built the monitor and whatever the operations that followed, returning
    or throwing, each of [highPreparedSeqno.it] and [highCompletedSeqno.it]
    is [end()] or designates a node of [trackedWrites], and the seqno of
    that node is at most the [lastWriteSeqno] of the cursor. *)
Theorem iterators_never_invalid dev ops v hps hcs prepares :
  iteratorsValid (state (run dev ops (new v))) = true
  /\ iteratorsValid (state (run dev ops (newAt v hps hcs))) = true
  /\ iteratorsValid (state (run dev ops (newWithPrepares v hps hcs prepares)))
     = true.
Proof.
  destruct (constructors_valid v hps hcs prepares) as (H1 & H2 & H3).
  repeat split;
    (eapply (run_onState keepsIteratorsValid dev);
     [intros op; apply perform_valid|assumption]).
Qed.

(** ** What [checkForAndRemovePrepares] removes *)

Lemma prunedPrefix_split fence (tw : Container) :
  let n := prunedPrefix fence tw in
  (n <= length tw)%nat
  /\ Forall (fun w => getBySeqno w <= fence) (take n tw)
  /\ (forall w, head (drop n tw) = Some w -> fence < getBySeqno w)
  /\ prunedPrefix fence (drop n tw) = 0%nat.
Proof.
  induction tw as [|w tw IH]; cbn.
  - split; [lia|]. split; [constructor|]. split; [discriminate|reflexivity].
  - destruct (Z.leb_spec (getBySeqno w) fence) as [Hle|Hgt]; cbn.
    + destruct IH as (Hn & Hall & Hhead & Hagain).
      split; [lia|]. split; [|split; [exact Hhead|exact Hagain]].
      constructor; assumption.
    + split; [lia|]. split; [constructor|]. split.
      * intros w' [= <-]. exact Hgt.
      * destruct (Z.leb_spec (getBySeqno w) fence); [lia|reflexivity].
Qed.

(** X2.  [checkForAndRemovePrepares] always returns.  It erases from the
    head of [trackedWrites] the longest run of writes whose seqno is at
    most min(HCS, HPS), completed or not, and nothing else: the first
    write left, if any, is above that fence.  A cursor whose iterator was
    on an erased write has it at [end()], any other iterator stays on its
    node; the seqnos of both cursors, the queue of snapshot ends and the
    three counters are as before. *)
Theorem checkForAndRemovePrepares_prunes_head s :
  let fence := Z.min (lastWriteSeqno (highCompletedSeqno s))
                     (lastWriteSeqno (highPreparedSeqno s)) in
  let r := checkForAndRemovePrepares s in
  let s' := snd r in
  fst r = Returned tt
  /\ exists removed,
       trackedWrites s = removed ++ trackedWrites s'
       /\ Forall (fun w => getBySeqno w <= fence) removed
       /\ (forall w, head (trackedWrites s') = Some w -> fence < getBySeqno w)
       /\ highPreparedSeqno s'
          = mkPosition (iteratorAfterPrune (length removed)
                          (it (highPreparedSeqno s)))
              (lastWriteSeqno (highPreparedSeqno s))
       /\ highCompletedSeqno s'
          = mkPosition (iteratorAfterPrune (length removed)
                          (it (highCompletedSeqno s)))
              (lastWriteSeqno (highCompletedSeqno s))
       /\ receivedSnapshotEnds s' = receivedSnapshotEnds s
       /\ totalAccepted s' = totalAccepted s
       /\ totalCommitted s' = totalCommitted s
       /\ totalAborted s' = totalAborted s.
Proof.
  intros fence r s'. subst r s'. rewrite checkForAndRemovePrepares_eq.
  fold fence. cbn [fst snd]. split; [reflexivity|].
  destruct (prunedPrefix_split fence (trackedWrites s))
    as (Hn & Hall & Hhead & _).
  exists (take (prunedPrefix fence (trackedWrites s)) (trackedWrites s)).
  rewrite length_take, Nat.min_l by exact Hn.
  cbn [statePruned trackedWrites highPreparedSeqno highCompletedSeqno
       receivedSnapshotEnds totalAccepted totalCommitted totalAborted].
  split; [symmetry; apply take_drop|].
  repeat split; assumption.
Qed.

(** X3.  Pruning twice is pruning once: on the state that
    [checkForAndRemovePrepares] leaves, a second call returns without
    changing anything. *)
Theorem checkForAndRemovePrepares_idempotent s :
  let s' := snd (checkForAndRemovePrepares s) in
  checkForAndRemovePrepares s' = (Returned tt, s').
Proof.
  cbn zeta. rewrite (checkForAndRemovePrepares_eq s). cbn [snd].
  rewrite checkForAndRemovePrepares_eq.
  cbn [statePruned trackedWrites highPreparedSeqno highCompletedSeqno
       set_it lastWriteSeqno].
  destruct (prunedPrefix_split
              (Z.min (lastWriteSeqno (highCompletedSeqno s))
                     (lastWriteSeqno (highPreparedSeqno s)))
              (trackedWrites s)) as (_ & _ & _ & ->).
  rewrite statePruned_0. reflexivity.
Qed.

(** ** What [updateHighPreparedSeqno] leaves alone *)

#[local] Instance passFrame_refl : Reflexive passFrame.
Proof. intros s. repeat split. exists 0%nat. reflexivity. Qed.

#[local] Instance passFrame_trans : Transitive passFrame.
Proof.
  intros a b c (Htw & Hhcs & [m Hq] & Ha & Hc & Hb)
    (Htw' & Hhcs' & [m' Hq'] & Ha' & Hc' & Hb').
  repeat split; try congruence.
  exists (m + m')%nat. rewrite Hq', Hq. apply drop_drop.
Qed.

Lemma passFrame_set_highPreparedSeqno p s :
  passFrame s (set_highPreparedSeqno p s).
Proof. repeat split. exists 0%nat. reflexivity. Qed.

Lemma passFrame_popSnapshotEnd s : passFrame s (popSnapshotEnd s).
Proof.
  repeat split. exists 1%nat. cbn. destruct (receivedSnapshotEnds s); reflexivity.
Qed.

Lemma processSnapshotEnd_frame persistenceSeqno snapshotEnd :
  always passFrame (processSnapshotEnd persistenceSeqno snapshotEnd).
Proof.
  intros s. rewrite processSnapshotEnd_eq. unfold snapshotEndPass. cbn zeta.
  destruct (fst _); [|apply passFrame_set_highPreparedSeqno].
  repeat match goal with
         | |- passFrame _ (snd (if ?b then _ else _)) => destruct b
         end; cbn [snd];
    try apply passFrame_set_highPreparedSeqno;
    (etransitivity;
     [apply passFrame_set_highPreparedSeqno|apply passFrame_popSnapshotEnd]).
Qed.

Lemma snapshotEndsLoop_frame fuel persistenceSeqno :
  always passFrame (snapshotEndsLoop fuel persistenceSeqno).
Proof.
  induction fuel as [|fuel IH]; cbn [snapshotEndsLoop]; [always_step|].
  always_bind_tac; [always_step|].
  intros s. destruct (receivedSnapshotEnds s); [always_step|].
  always_bind_tac; [apply processSnapshotEnd_frame|].
  intros [|]; [exact IH|always_step].
Qed.

(** [updateHighPreparedSeqno] is its loop over the snapshot ends,
    followed by the pruning when the HPS seqno has changed; the
    assertion that the HPS seqno has then grown holds. *)
Lemma updateHighPreparedSeqno_eq persistenceSeqno s :
  let loop := snapshotEndsLoop (S (length (receivedSnapshotEnds s)))
                persistenceSeqno s in
  updateHighPreparedSeqno persistenceSeqno s
  = match fst loop with
    | Thrown e => (Thrown e, snd loop)
    | Returned _ =>
        if lastWriteSeqno (highPreparedSeqno (snd loop))
           =? lastWriteSeqno (highPreparedSeqno s)
        then (Returned tt, snd loop)
        else checkForAndRemovePrepares (snd loop)
    end.
Proof.
  cbn zeta.
  unfold updateHighPreparedSeqno, bind at 1, get at 1, bind at 1.
  pose proof (snapshotEndsLoop_le (S (length (receivedSnapshotEnds s)))
                persistenceSeqno s) as [Hle _].
  destruct (snapshotEndsLoop _ persistenceSeqno s) as [[[]|e] s1];
    cbn [fst snd] in *; [|reflexivity].
  unfold bind at 1, get at 1.
  destruct (Z.eqb_spec (lastWriteSeqno (highPreparedSeqno s1))
              (lastWriteSeqno (highPreparedSeqno s))) as [Heq|Hne];
    cbn [negb]; [reflexivity|].
  unfold bind.
  destruct (Z.ltb_spec (lastWriteSeqno (highPreparedSeqno s))
              (lastWriteSeqno (highPreparedSeqno s1))); [|lia].
  reflexivity.
Qed.

(** X4.  [updateHighPreparedSeqno], returning or throwing, moves nothing
    but the HPS cursor, apart from what it consumes: the queue of snapshot
    ends loses a front part at most, [trackedWrites] loses a head part at
    most (no write is added, changed or reordered), the HCS seqno and the
    three counters are as before.  If the HPS seqno is the same after the
    call as before it, nothing was pruned: [trackedWrites] and the whole
    HCS cursor are as before. *)
Theorem updateHighPreparedSeqno_frame persistenceSeqno s :
  let s' := snd (updateHighPreparedSeqno persistenceSeqno s) in
  (exists m, receivedSnapshotEnds s' = drop m (receivedSnapshotEnds s))
  /\ (exists n, trackedWrites s' = drop n (trackedWrites s))
  /\ lastWriteSeqno (highCompletedSeqno s')
     = lastWriteSeqno (highCompletedSeqno s)
  /\ totalAccepted s' = totalAccepted s
  /\ totalCommitted s' = totalCommitted s
  /\ totalAborted s' = totalAborted s
  /\ (lastWriteSeqno (highPreparedSeqno s')
      = lastWriteSeqno (highPreparedSeqno s) ->
      trackedWrites s' = trackedWrites s
      /\ highCompletedSeqno s' = highCompletedSeqno s).
Proof.
  cbn zeta. rewrite updateHighPreparedSeqno_eq. cbn zeta.
  pose proof (snapshotEndsLoop_frame (S (length (receivedSnapshotEnds s)))
                persistenceSeqno s) as (Htw & Hhcs & Hq & Ha & Hc & Hb).
  assert (Hloop : forall s1,
    trackedWrites s1 = trackedWrites s ->
    highCompletedSeqno s1 = highCompletedSeqno s ->
    (exists m, receivedSnapshotEnds s1 = drop m (receivedSnapshotEnds s)) ->
    totalAccepted s1 = totalAccepted s ->
    totalCommitted s1 = totalCommitted s ->
    totalAborted s1 = totalAborted s ->
    (exists m, receivedSnapshotEnds s1 = drop m (receivedSnapshotEnds s))
    /\ (exists n, trackedWrites s1 = drop n (trackedWrites s))
    /\ lastWriteSeqno (highCompletedSeqno s1)
       = lastWriteSeqno (highCompletedSeqno s)
    /\ totalAccepted s1 = totalAccepted s
    /\ totalCommitted s1 = totalCommitted s
    /\ totalAborted s1 = totalAborted s
    /\ (lastWriteSeqno (highPreparedSeqno s1)
        = lastWriteSeqno (highPreparedSeqno s) ->
        trackedWrites s1 = trackedWrites s
        /\ highCompletedSeqno s1 = highCompletedSeqno s)).
  { intros s1 E1 E2 E3 E4 E5 E6. repeat split; try assumption.
    - exists 0%nat. exact E1.
    - rewrite E2. reflexivity. }
  destruct (snapshotEndsLoop _ persistenceSeqno s) as [[[]|e] s1];
    cbn [fst snd] in *; [|apply Hloop; assumption].
  destruct (Z.eqb_spec (lastWriteSeqno (highPreparedSeqno s1))
              (lastWriteSeqno (highPreparedSeqno s))) as [Heq|Hne];
    cbn [snd]; [apply Hloop; assumption|].
  rewrite checkForAndRemovePrepares_eq.
  cbn [snd statePruned trackedWrites highPreparedSeqno highCompletedSeqno
       receivedSnapshotEnds totalAccepted totalCommitted totalAborted
       set_it lastWriteSeqno].
  rewrite Htw, Hhcs. repeat split; try assumption.
  - eexists. reflexivity.
  - contradiction.
  - contradiction.
Qed.

(** ** The exceptions of [updateHighPreparedSeqno] *)

Lemma advanceOver_outcome snapshotEndSeqno maxLevel pending idx p :
  returnedOrMonotonicFailure
    (fst (advanceOver snapshotEndSeqno maxLevel pending idx p)).
Proof.
  revert idx p. induction pending as [|w rest IH]; intros idx p; cbn;
    [exact I|].
  destruct (_ && _); [|exact I].
  destruct (_ <? _); [reflexivity|apply IH].
Qed.

Lemma processSnapshotEnd_outcome persistenceSeqno snapshotEnd s :
  returnedOrMonotonicFailure
    (fst (processSnapshotEnd persistenceSeqno snapshotEnd s)).
Proof.
  rewrite processSnapshotEnd_eq. unfold snapshotEndPass. cbn zeta.
  match goal with
  | |- context [advanceOver ?e ?m ?l ?i ?p] =>
      pose proof (advanceOver_outcome e m l i p) as Hadv;
      destruct (advanceOver e m l i p) as [[[]|e1] pos1]
  end; cbn [fst snd] in *; [|exact Hadv].
  repeat match goal with
         | |- returnedOrMonotonicFailure (fst (if ?b then _ else _)) =>
             destruct b
         end; cbn; auto.
Qed.

Lemma snapshotEndsLoop_outcome fuel persistenceSeqno s :
  (length (receivedSnapshotEnds s) < fuel)%nat ->
  returnedOrMonotonicFailure (fst (snapshotEndsLoop fuel persistenceSeqno s)).
Proof.
  revert s. induction fuel as [|fuel IH]; intros s Hfuel; [lia|].
  cbn [snapshotEndsLoop]. unfold bind at 1, get at 1.
  destruct (receivedSnapshotEnds s) as [|snapshotEnd q] eqn:Hq; [exact I|].
  unfold bind at 1.
  pose proof (processSnapshotEnd_outcome persistenceSeqno snapshotEnd s) as Hout.
  destruct (processSnapshotEnd persistenceSeqno snapshotEnd s)
    as [r s1] eqn:Hstep.
  apply processSnapshotEnd_queue in Hstep as [_ Hqueue].
  destruct r as [[|]|e]; cbn [fst] in *.
  - apply IH. rewrite Hqueue, Hq. cbn in *. lia.
  - exact I.
  - exact Hout.
Qed.

(** X5.  The only exception that leaves [updateHighPreparedSeqno] is the
    failure of a monotonicity check on the HPS seqno: the assertion
    [Expects(highPreparedSeqno.lastWriteSeqno > prevHPS)] that guards the
    pruning never fails, since a seqno that has changed has grown.  The
    same holds of [notifyLocalPersistence] and of
    [notifySnapshotEndReceived], which add nothing that throws. *)
Theorem updateHighPreparedSeqno_throws_only_monotonic_failure :
  (forall persistenceSeqno s,
     returnedOrMonotonicFailure
       (fst (updateHighPreparedSeqno persistenceSeqno s)))
  /\ (forall pdm, returnedOrMonotonicFailure (fst (notifyLocalPersistence pdm)))
  /\ (forall snapEnd pdm,
        returnedOrMonotonicFailure (fst (notifySnapshotEndReceived snapEnd pdm))).
Proof.
  assert (Hupdate : forall persistenceSeqno s,
    returnedOrMonotonicFailure
      (fst (updateHighPreparedSeqno persistenceSeqno s))).
  { intros persistenceSeqno s. rewrite updateHighPreparedSeqno_eq. cbn zeta.
    pose proof (snapshotEndsLoop_outcome (S (length (receivedSnapshotEnds s)))
                  persistenceSeqno s (Nat.lt_succ_diag_r _)) as Hloop.
    destruct (snapshotEndsLoop _ persistenceSeqno s) as [[[]|e] s1];
      cbn [fst snd] in *; [|exact Hloop].
    destruct (_ =? _); [exact I|].
    rewrite checkForAndRemovePrepares_eq. exact I. }
  assert (Hstore : forall pdm,
    returnedOrMonotonicFailure (fst (updateAndStoreAck pdm))).
  { intros pdm. unfold updateAndStoreAck, bind at 1, get at 1, bind at 1.
    rewrite locked_eq.
    specialize (Hupdate (getPersistenceSeqno (vb pdm)) (state pdm)).
    destruct (updateHighPreparedSeqno _ (state pdm)) as [[[]|e] s1];
      cbn [fst snd] in *; [|exact Hupdate].
    unfold bind at 1, get at 1. rewrite storeSeqnoAck_eq. exact I. }
  assert (Hsend : forall c : Exc PassiveDurabilityMonitor unit,
    (forall pdm, returnedOrMonotonicFailure (fst (c pdm))) ->
    forall pdm, returnedOrMonotonicFailure (fst ((c ;; sendSeqnoAck) pdm))).
  { intros c Hc pdm. unfold bind. specialize (Hc pdm).
    destruct (c pdm) as [[[]|e] pdm1]; cbn [fst] in *; [|exact Hc].
    rewrite sendSeqnoAck_eq. exact I. }
  split; [exact Hupdate|]. split.
  - apply Hsend, Hstore.
  - intros snapEnd. apply Hsend. intros pdm.
    unfold notifySnapshotEndReceived_locked, bind at 1, get at 1, bind at 1.
    rewrite locked_eq. cbn [modify fst snd]. apply Hstore.
Qed.

(** ** The notifications in closed form *)

Lemma updateAndStoreAck_eq pdm :
  updateAndStoreAck pdm
  = let r := updateHighPreparedSeqno (getPersistenceSeqno (vb pdm)) (state pdm) in
    let pdm1 := set_state (snd r) pdm in
    match fst r with
    | Thrown e => (Thrown e, pdm1)
    | Returned _ =>
        (Returned tt,
         if negb (getHighPreparedSeqno pdm =? getHighPreparedSeqno pdm1)
            && (seqnoToAck pdm <? getHighPreparedSeqno pdm1)
         then set_seqnoToAck (getHighPreparedSeqno pdm1) pdm1
         else pdm1)
    end.
Proof.
  unfold updateAndStoreAck, bind at 1, get at 1, bind at 1.
  rewrite locked_eq. cbn zeta.
  destruct (updateHighPreparedSeqno _ (state pdm)) as [[[]|e] s1];
    cbn [fst snd]; [|reflexivity].
  unfold bind at 1, get at 1. rewrite storeSeqnoAck_eq. reflexivity.
Qed.

(** The monitor once [notifySnapshotEndReceived] has queued the snapshot
    end. *)
Lemma notifySnapshotEndReceived_locked_eq snapEnd pdm :
  notifySnapshotEndReceived_locked snapEnd pdm
  = updateAndStoreAck
      (set_state
         (set_receivedSnapshotEnds
            (receivedSnapshotEnds (state pdm)
             ++ [mkSnapshotEnd (to_int64 snapEnd)
                   (if isReceivingDiskSnapshot (vb pdm) then Disk else Memory)])
            (state pdm)) pdm).
Proof.
  unfold notifySnapshotEndReceived_locked, bind at 1, get at 1, bind at 1.
  rewrite locked_eq. reflexivity.
Qed.

Lemma then_sendSeqnoAck_eq (c : Exc PassiveDurabilityMonitor unit) pdm :
  (c ;; sendSeqnoAck) pdm
  = match fst (c pdm) with
    | Thrown e => (Thrown e, snd (c pdm))
    | Returned _ => sendSeqnoAck (snd (c pdm))
    end.
Proof. unfold bind. destruct (c pdm) as [[[]|e] pdm1]; reflexivity. Qed.

(** ** What [addSyncWrite] and [completeSyncWrite] leave alone *)

Lemma afterOverwrite_rest i o s :
  receivedSnapshotEnds (afterOverwrite i o s) = receivedSnapshotEnds s
  /\ totalCommitted (afterOverwrite i o s) = totalCommitted s
  /\ totalAborted (afterOverwrite i o s) = totalAborted s.
Proof.
  unfold afterOverwrite. destruct (overwriteTarget i o s) as [[n w]|];
    [|repeat split].
  unfold eraseTracked, resetIteratorsAt.
  destruct (iterator_eqb (Some n) (it (highCompletedSeqno s)));
    cbn -[iterator_eqb reindex delete];
    match goal with |- context [if ?b then _ else _] => destruct b end;
    repeat split.
Qed.

Lemma addSyncWrite_locked_frame dev i o s :
  let r := addSyncWrite_locked dev i o s in
  receivedSnapshotEnds (snd r) = receivedSnapshotEnds s
  /\ lastWriteSeqno (highPreparedSeqno (snd r))
     = lastWriteSeqno (highPreparedSeqno s)
  /\ lastWriteSeqno (highCompletedSeqno (snd r))
     = lastWriteSeqno (highCompletedSeqno s)
  /\ totalAccepted (snd r)
     = match fst r with
       | Returned _ => size_t_incr (totalAccepted s)
       | Thrown _ => totalAccepted s
       end
  /\ totalCommitted (snd r) = totalCommitted s
  /\ totalAborted (snd r) = totalAborted s.
Proof.
  cbn zeta. rewrite addSyncWrite_locked_eq.
  destruct (negb _); cbn [fst snd]; [repeat split|]. cbn zeta.
  destruct (afterOverwrite_cursors i o s) as (Ep & Ec & _ & Ea).
  destruct (afterOverwrite_rest i o s) as (Eq & Ecm & Eab).
  destruct (duplicateFound _ _ _); cbn [fst snd]; unfold appended;
    cbn [set_totalAccepted set_trackedWrites receivedSnapshotEnds
         highPreparedSeqno highCompletedSeqno totalAccepted totalCommitted
         totalAborted];
    rewrite ?Ep, ?Ec, ?Ea, ?Eq, ?Ecm, ?Eab; repeat split.
Qed.

Lemma completeSyncWrite_locked_frame ordered key res p s :
  let r := completeSyncWrite_locked ordered key res p s in
  receivedSnapshotEnds (snd r) = receivedSnapshotEnds s
  /\ lastWriteSeqno (highPreparedSeqno (snd r))
     = lastWriteSeqno (highPreparedSeqno s)
  /\ totalAccepted (snd r) = totalAccepted s
  /\ totalCommitted (snd r)
     = match res, fst r with
       | Commit, Returned _ => size_t_incr (totalCommitted s)
       | _, _ => totalCommitted s
       end
  /\ totalAborted (snd r)
     = match res, fst r with
       | Abort, Returned _ => size_t_incr (totalAborted s)
       | _, _ => totalAborted s
       end.
Proof.
  cbn zeta. rewrite completeSyncWrite_locked_eq.
  assert (Hsame : forall e,
    receivedSnapshotEnds (snd (@Thrown unit e, s)) = receivedSnapshotEnds s
    /\ lastWriteSeqno (highPreparedSeqno (snd (@Thrown unit e, s)))
       = lastWriteSeqno (highPreparedSeqno s)
    /\ totalAccepted (snd (@Thrown unit e, s)) = totalAccepted s
    /\ totalCommitted (snd (@Thrown unit e, s))
       = match res, fst (@Thrown unit e, s) with
         | Commit, Returned _ => size_t_incr (totalCommitted s)
         | _, _ => totalCommitted s
         end
    /\ totalAborted (snd (@Thrown unit e, s))
       = match res, fst (@Thrown unit e, s) with
         | Abort, Returned _ => size_t_incr (totalAborted s)
         | _, _ => totalAborted s
         end).
  { intros e. cbn [fst snd]. destruct res; repeat split. }
  destruct (trackedWrites s) as [|w0 tw0] eqn:Htw; [apply Hsame|].
  rewrite <- Htw. clear Htw w0 tw0.
  destruct (deref _ _) as [w|]; [|apply Hsame].
  destruct (completionCandidate ordered key s) as [n|]; [|apply Hsame].
  destruct (negb _); [apply Hsame|].
  destruct (prepareSeqnoDiffers w p); [apply Hsame|].
  destruct (_ && _); [apply Hsame|]. cbn zeta.
  assert (Hs1 : forall s1, s1 = withHighCompletedSeqnoOn ordered n w s ->
    receivedSnapshotEnds s1 = receivedSnapshotEnds s
    /\ lastWriteSeqno (highPreparedSeqno s1)
       = lastWriteSeqno (highPreparedSeqno s)
    /\ totalAccepted s1 = totalAccepted s
    /\ totalCommitted s1 = totalCommitted s
    /\ totalAborted s1 = totalAborted s).
  { intros s1 ->. unfold withHighCompletedSeqnoOn.
    destruct (_ || _); repeat split. }
  destruct (Hs1 _ eq_refl) as (Eq & Ep & Ea & Ecm & Eab).
  set (s1 := withHighCompletedSeqnoOn ordered n w s) in *.
  destruct (isCompleted w); cbn [fst snd].
  { destruct res; repeat split; assumption. }
  rewrite checkForAndRemovePrepares_eq. cbn [snd].
  destruct res;
    cbn [countResolution statePruned markCompleted set_trackedWrites
         set_totalCommitted set_totalAborted receivedSnapshotEnds
         highPreparedSeqno highCompletedSeqno totalAccepted totalCommitted
         totalAborted trackedWrites set_it lastWriteSeqno];
    rewrite ?Eq, ?Ep, ?Ea, ?Ecm, ?Eab; repeat split.
Qed.

(** X6.  The three counters count the calls that returned.  Whatever the
    operation and the monitor: [getNumAccepted] is one more than before
    (modulo 2^64, the counters being [size_t]) if the operation is an
    [addSyncWrite] that returned, [getNumCommitted] if it is a
    [completeSyncWrite] with the resolution Commit that returned,
    [getNumAborted] if it is one with Abort that returned; in every other
    case (an exception, the resolution CompletionWasDeduped, a
    notification, an acknowledgement) each counter is as before. *)
Theorem counters_count_returned_calls dev op pdm :
  let r := perform dev op pdm in
  getNumAccepted (snd r)
  = match op, fst r with
    | AddSyncWrite _ _, Returned _ => (getNumAccepted pdm + 1) mod 2 ^ 64
    | _, _ => getNumAccepted pdm
    end
  /\ getNumCommitted (snd r)
     = match op, fst r with
       | CompleteSyncWrite _ Commit _, Returned _ =>
           (getNumCommitted pdm + 1) mod 2 ^ 64
       | _, _ => getNumCommitted pdm
       end
  /\ getNumAborted (snd r)
     = match op, fst r with
       | CompleteSyncWrite _ Abort _, Returned _ =>
           (getNumAborted pdm + 1) mod 2 ^ 64
       | _, _ => getNumAborted pdm
       end.
Proof.
  unfold getNumAccepted, getNumCommitted, getNumAborted. cbn zeta.
  assert (Hupd : forall pdm1,
    let pdm2 := snd (updateAndStoreAck pdm1) in
    totalAccepted (state pdm2) = totalAccepted (state pdm1)
    /\ totalCommitted (state pdm2) = totalCommitted (state pdm1)
    /\ totalAborted (state pdm2) = totalAborted (state pdm1)).
  { intros pdm1. cbn zeta. rewrite updateAndStoreAck_eq. cbn zeta.
    destruct (updateHighPreparedSeqno_frame (getPersistenceSeqno (vb pdm1))
                (state pdm1)) as (_ & _ & _ & Ea & Ec & Eb & _).
    destruct (fst _); cbn [snd]; [|repeat split; assumption].
    destruct (_ && _); cbn [state set_seqnoToAck set_state];
      repeat split; assumption. }
  assert (Hsend : forall (c : Exc PassiveDurabilityMonitor unit) pdm1,
    state (snd ((c ;; sendSeqnoAck) pdm1)) = state (snd (c pdm1))).
  { intros c pdm1. rewrite then_sendSeqnoAck_eq.
    destruct (fst (c pdm1)); [|reflexivity].
    rewrite sendSeqnoAck_eq. reflexivity. }
  assert (Hnotify : forall snapEnd pdm1,
    let pdm2 := snd (notifySnapshotEndReceived_locked snapEnd pdm1) in
    totalAccepted (state pdm2) = totalAccepted (state pdm1)
    /\ totalCommitted (state pdm2) = totalCommitted (state pdm1)
    /\ totalAborted (state pdm2) = totalAborted (state pdm1)).
  { intros snapEnd pdm1. cbn zeta. rewrite notifySnapshotEndReceived_locked_eq.
    match goal with |- context [updateAndStoreAck ?p] =>
      destruct (Hupd p) as (Ea & Ec & Eb) end.
    repeat split; assumption. }
  destruct op; cbn [perform].
  - rewrite addSyncWrite_eq.
    destruct (Level.eqb _ _); cbn [fst snd]; [repeat split|].
    destruct (isDefault _); cbn [fst snd]; [repeat split|].
    destruct (addSyncWrite_locked_frame dev i overwritingPrepareSeqno
                (state pdm)) as (_ & _ & _ & Ea & Ec & Eb).
    cbn [state set_state]. repeat split; assumption.
  - rewrite completeSyncWrite_eq. cbn zeta. cbn [fst snd state set_state].
    destruct (completeSyncWrite_locked_frame
                (negb (isReceivingDiskSnapshot (vb pdm))) key res prepareSeqno
                (state pdm)) as (_ & _ & Ea & Ec & Eb).
    repeat split; assumption.
  - unfold notifySnapshotEndReceived. rewrite Hsend.
    destruct (Hnotify snapEnd pdm) as (Ea & Ec & Eb).
    repeat split; assumption.
  - unfold notifyLocalPersistence. rewrite Hsend.
    destruct (Hupd pdm) as (Ea & Ec & Eb). repeat split; assumption.
  - destruct (Hnotify snapEnd pdm) as (Ea & Ec & Eb).
    repeat split; assumption.
  - destruct (Hupd pdm) as (Ea & Ec & Eb). repeat split; assumption.
  - rewrite sendSeqnoAck_eq. repeat split.
  - repeat split.
  - repeat split.
Qed.

Lemma counters_count_returned_calls_witness :
  let pdm := run false Scenarios.S3_prepares (new Scenarios.memoryVb) in
  let add := AddSyncWrite
               (Scenarios.prepare "k4"%string 13 Level.Majority) None in
  let commit := CompleteSyncWrite Scenarios.k1 Commit (Some 5) in
  let abort := CompleteSyncWrite Scenarios.k1 Abort (Some 5) in
  (getNumAccepted pdm, getNumCommitted pdm, getNumAborted pdm) = (3, 0, 0)
  /\ getNumAccepted (snd (perform false add pdm)) = 4
  /\ getNumCommitted (snd (perform false commit pdm)) = 1
  /\ getNumAborted (snd (perform false abort pdm)) = 1
  /\ getNumAccepted (snd (perform false commit pdm)) = 3
  /\ getNumAborted (snd (perform false commit pdm)) = 0.
Proof.
  intros pdm add commit abort.
  destruct (counters_count_returned_calls false add pdm) as (Hadd & _ & _).
  destruct (counters_count_returned_calls false commit pdm)
    as (Hsame & Hcommit & Hnone).
  destruct (counters_count_returned_calls false abort pdm) as (_ & _ & Habort).
  split; [reflexivity|].
  split; [exact Hadd|]. split; [exact Hcommit|]. split; [exact Habort|].
  split; [exact Hsame|exact Hnone].
Defined.

(** ** What a notification acknowledges *)

Lemma updateAndStoreAck_then_send_acks pdm :
  seqnoToAck pdm = 0 ->
  ackedByNotification pdm ((updateAndStoreAck ;; sendSeqnoAck) pdm).
Proof.
  intros Hlatch. rewrite then_sendSeqnoAck_eq, updateAndStoreAck_eq.
  cbn zeta. unfold ackedByNotification, getHighPreparedSeqno.
  destruct (updateHighPreparedSeqno _ (state pdm)) as [[[]|e] s1];
    cbn [fst snd state set_state].
  2:{ split; [exact Hlatch|reflexivity]. }
  rewrite Hlatch.
  destruct (lastWriteSeqno (highPreparedSeqno (state pdm))
            =? lastWriteSeqno (highPreparedSeqno s1)) eqn:E1;
    destruct (0 <? lastWriteSeqno (highPreparedSeqno s1)) eqn:E2;
    cbn [negb andb]; rewrite sendSeqnoAck_eq;
    cbn [fst snd seqnoToAck vb set_seqnoToAck set_state state];
    rewrite ?Hlatch, ?E1, ?E2; cbn [negb andb];
    (split; [reflexivity|]); try reflexivity.
  apply Z.ltb_lt in E2.
  destruct (Z.eqb_spec (lastWriteSeqno (highPreparedSeqno s1)) 0); [lia|].
  reflexivity.
Qed.

(** X7.  A notification that finds the latch [seqnoToAck] empty sends
    the new HPS seqno to the VBucket exactly when it returns with an HPS
    seqno that has changed and is positive, and it sends nothing else; if
    it throws it sends nothing, even if the HPS seqno had already moved.
    In both cases the latch is empty again.  This holds of
    [notifyLocalPersistence] and of [notifySnapshotEndReceived]. *)
Theorem notification_acks_the_new_hps pdm :
  seqnoToAck pdm = 0 ->
  ackedByNotification pdm (notifyLocalPersistence pdm)
  /\ forall snapEnd,
       ackedByNotification pdm (notifySnapshotEndReceived snapEnd pdm).
Proof.
  intros Hlatch. split.
  - apply updateAndStoreAck_then_send_acks, Hlatch.
  - intros snapEnd. unfold notifySnapshotEndReceived.
    rewrite then_sendSeqnoAck_eq, notifySnapshotEndReceived_locked_eq,
      <- then_sendSeqnoAck_eq.
    match goal with |- ackedByNotification _ (_ ?p) =>
      exact (updateAndStoreAck_then_send_acks p Hlatch) end.
Qed.

Lemma notification_acks_the_new_hps_witness :
  let pdm := run false Scenarios.S3_prepares (new Scenarios.memoryVb) in
  ackedByNotification pdm (notifySnapshotEndReceived 12 pdm)
  /\ seqnoAcksSent (vb (snd (notifySnapshotEndReceived 12 pdm))) = [5].
Proof.
  intros pdm. split; [|reflexivity].
  apply (proj2 (notification_acks_the_new_hps pdm eq_refl) 12).
Defined.

(** ** Nothing moves before a snapshot end is received *)

Lemma updateHighPreparedSeqno_nothing_queued persistenceSeqno s :
  receivedSnapshotEnds s = [] ->
  updateHighPreparedSeqno persistenceSeqno s = (Returned tt, s).
Proof.
  intros Hq. rewrite updateHighPreparedSeqno_eq. cbn zeta.
  rewrite Hq. cbn [length snapshotEndsLoop]. unfold bind, get. rewrite Hq.
  cbn [ret fst snd]. rewrite Z.eqb_refl. reflexivity.
Qed.

Lemma after_idle dev op pdm :
  idle pdm ->
  queuesSnapshotEnd op = false ->
  idle (after dev op pdm)
  /\ getHighPreparedSeqno (after dev op pdm) = getHighPreparedSeqno pdm
  /\ seqnoAcksSent (vb (after dev op pdm)) = seqnoAcksSent (vb pdm).
Proof.
  intros [Hq Hlatch] Hop. unfold after, idle, getHighPreparedSeqno.
  assert (Hupd : updateAndStoreAck pdm = (Returned tt, pdm)).
  { rewrite updateAndStoreAck_eq. cbn zeta.
    rewrite (updateHighPreparedSeqno_nothing_queued _ _ Hq). cbn [fst snd].
    rewrite set_state_state, Z.eqb_refl. reflexivity. }
  assert (Hsend : sendSeqnoAck pdm = (Returned tt, pdm)).
  { rewrite sendSeqnoAck_eq, Hlatch. cbn. rewrite <- Hlatch.
    destruct pdm; reflexivity. }
  destruct op; cbn [perform]; try discriminate.
  - rewrite addSyncWrite_eq.
    destruct (Level.eqb _ _); cbn [snd]; [auto|].
    destruct (isDefault _); cbn [snd]; [auto|].
    destruct (addSyncWrite_locked_frame dev i overwritingPrepareSeqno
                (state pdm)) as (Eq & Ep & _).
    cbn [state set_state seqnoToAck vb]. rewrite Eq, Ep. auto.
  - rewrite completeSyncWrite_eq. cbn zeta. cbn [snd].
    destruct (completeSyncWrite_locked_frame
                (negb (isReceivingDiskSnapshot (vb pdm))) key res prepareSeqno
                (state pdm)) as (Eq & Ep & _).
    cbn [state set_state seqnoToAck vb]. rewrite Eq, Ep. auto.
  - unfold notifyLocalPersistence. rewrite then_sendSeqnoAck_eq, Hupd.
    cbn [fst snd]. rewrite Hsend. cbn [snd]. auto.
  - rewrite Hupd. cbn [snd]. auto.
  - rewrite Hsend. cbn [snd]. auto.
  - cbn. auto.
  - cbn. auto.
Qed.

(** X8.  Nothing is acknowledged before a complete snapshot is received
    (rule (1) of [updateHighPreparedSeqno]).  On a monitor with no queued
    snapshot end and an empty latch, a sequence of operations none of
    which is [notifySnapshotEndReceived] leaves the HPS seqno as it was
    and sends nothing to the VBucket, whatever the prepares added or
    completed and whatever was persisted; the queue and the latch are
    still empty after it. *)
Theorem no_snapshot_end_no_ack dev ops pdm :
  idle pdm ->
  forallb (fun op => negb (queuesSnapshotEnd op)) ops = true ->
  idle (run dev ops pdm)
  /\ getHighPreparedSeqno (run dev ops pdm) = getHighPreparedSeqno pdm
  /\ seqnoAcksSent (vb (run dev ops pdm)) = seqnoAcksSent (vb pdm).
Proof.
  revert pdm. induction ops as [|op ops IH]; intros pdm Hidle Hops.
  - cbn. auto.
  - cbn in Hops. apply andb_prop in Hops as [Hop Hops].
    apply negb_true_iff in Hop.
    destruct (after_idle dev op pdm Hidle Hop) as (Hidle' & Hhps & Hacks).
    destruct (IH _ Hidle' Hops) as (H1 & H2 & H3).
    change (run dev (op :: ops) pdm) with (run dev ops (after dev op pdm)).
    split; [exact H1|]. split; congruence.
Qed.

Lemma no_snapshot_end_no_ack_witness :
  let pdm := run false
    (Scenarios.S3_prepares ++ [VbPersisted 12; NotifyLocalPersistence])
    (new Scenarios.memoryVb) in
  idle pdm /\ getHighPreparedSeqno pdm = 0 /\ seqnoAcksSent (vb pdm) = [].
Proof.
  apply (no_snapshot_end_no_ack false
           (Scenarios.S3_prepares ++ [VbPersisted 12; NotifyLocalPersistence])
           (new Scenarios.memoryVb)).
  - split; reflexivity.
  - reflexivity.
Defined.

(** ** [sendSeqnoAck] *)

(** X9.  [sendSeqnoAck] always returns and leaves the latch empty: the
    seqno that the latch held, if it was not 0, has become the latest
    acknowledgement of the VBucket, and nothing else of the monitor has
    changed.  So a second call right after it sends nothing and changes
    nothing: two calls in a row do what one call does. *)
Theorem sendSeqnoAck_idempotent pdm :
  let r := sendSeqnoAck pdm in
  fst r = Returned tt
  /\ seqnoToAck (snd r) = 0
  /\ state (snd r) = state pdm
  /\ isReceivingDiskSnapshot (vb (snd r)) = isReceivingDiskSnapshot (vb pdm)
  /\ getPersistenceSeqno (vb (snd r)) = getPersistenceSeqno (vb pdm)
  /\ seqnoAcksSent (vb (snd r))
     = (if seqnoToAck pdm =? 0 then seqnoAcksSent (vb pdm)
        else seqnoToAck pdm :: seqnoAcksSent (vb pdm))
  /\ sendSeqnoAck (snd r) = (Returned tt, snd r)
  /\ (sendSeqnoAck ;; sendSeqnoAck) pdm = r.
Proof.
  cbn zeta.
  rewrite then_sendSeqnoAck_eq, (sendSeqnoAck_eq pdm). cbn [fst snd].
  rewrite sendSeqnoAck_eq. cbn [seqnoToAck state vb].
  destruct (seqnoToAck pdm =? 0); repeat split.
Qed.

(** ** The tail of [trackedWrites] *)

Lemma back_snoc (tw : Container) (x : SyncWrite) :
  match tw ++ [x] with
  | [] => 0
  | w :: tw' => getBySeqno (List.last tw' w)
  end = getBySeqno x.
Proof.
  destruct tw as [|w tw]; [reflexivity|].
  cbn [app]. rewrite last_last. reflexivity.
Qed.

Lemma overwriteTarget_lookup i o s n w :
  overwriteTarget i o s = Some (n, w) -> trackedWrites s !! n = Some w.
Proof.
  unfold overwriteTarget. destruct o as [overwritten|]; [|discriminate].
  destruct (findKey (itemKey i) (trackedWrites s)) as [k|];
    cbn [deref]; [|discriminate].
  destruct (trackedWrites s !! k) as [w'|] eqn:Hk; [|discriminate].
  intros [= <- <-]. exact Hk.
Qed.

(** X10.  When [addSyncWrite] returns, the new write is the last of
    [trackedWrites]: [getHighestTrackedSeqno] is the seqno of the item,
    whatever the seqnos tracked before.  [getNumTracked] has grown by one,
    or is as before when a tracked write of the same key was overwritten. *)
Theorem addSyncWrite_tracks_at_tail dev i o pdm :
  fst (addSyncWrite dev i o pdm) = Returned tt ->
  let pdm' := snd (addSyncWrite dev i o pdm) in
  getHighestTrackedSeqno pdm' = itemBySeqno i
  /\ last (trackedWrites (state pdm')) = Some (newSyncWrite i)
  /\ getNumTracked pdm'
     = match overwriteTarget i o (state pdm) with
       | Some _ => getNumTracked pdm
       | None => S (getNumTracked pdm)
       end.
Proof.
  rewrite addSyncWrite_eq.
  destruct (Level.eqb _ _); [discriminate|].
  destruct (isDefault _); [discriminate|].
  cbn zeta. rewrite addSyncWrite_locked_eq.
  destruct (negb _); [discriminate|]. cbn zeta.
  destruct (duplicateFound _ _ _); [discriminate|].
  intros _. cbn [fst snd].
  unfold getHighestTrackedSeqno, getNumTracked.
  cbn [state set_state appended set_totalAccepted set_trackedWrites
       trackedWrites].
  destruct (afterOverwrite_cursors i o (state pdm)) as (_ & _ & -> & _).
  split; [apply back_snoc|]. split; [apply last_snoc|].
  rewrite length_app. cbn [length].
  destruct (overwriteTarget i o (state pdm)) as [[n w]|] eqn:Ht; [|lia].
  apply overwriteTarget_lookup in Ht.
  rewrite length_delete by (rewrite Ht; eexists; reflexivity).
  apply lookup_lt_Some in Ht. lia.
Qed.

Lemma addSyncWrite_tracks_at_tail_witness :
  let pdm := run false Scenarios.S3_prepares (new Scenarios.memoryVb) in
  let i := Scenarios.prepare Scenarios.k2 7 Level.Majority in
  let pdm' := snd (addSyncWrite true i (Some 8) pdm) in
  getHighestTrackedSeqno pdm' = 7
  /\ last (trackedWrites (state pdm')) = Some (newSyncWrite i)
  /\ getNumTracked pdm' = 3%nat.
Proof.
  intros pdm i.
  apply (addSyncWrite_tracks_at_tail true i (Some 8) pdm). reflexivity.
Defined.

(** ** The constructor that takes the outstanding prepares *)

Lemma designatesLastAtOrBelow_snoc_le bound prepares x :
  itemBySeqno x <= bound ->
  designatesLastAtOrBelow bound (prepares ++ [x]) (Some (length prepares)).
Proof.
  intros Hle. exists x. split; [|split; [exact Hle|]].
  - rewrite lookup_app_r by lia. rewrite Nat.sub_diag. reflexivity.
  - intros m p' Hm Hp'. apply lookup_lt_Some in Hp'.
    rewrite length_app in Hp'. cbn in Hp'. lia.
Qed.

Lemma designatesLastAtOrBelow_snoc_gt bound prepares x i :
  bound < itemBySeqno x ->
  designatesLastAtOrBelow bound prepares i ->
  designatesLastAtOrBelow bound (prepares ++ [x]) i.
Proof.
  intros Hgt. destruct i as [n|]; cbn.
  - intros (p & Hp & Hle & Hafter). exists p.
    split; [apply lookup_app_l_Some, Hp|]. split; [exact Hle|].
    intros m p' Hm Hp'. apply lookup_snoc_Some in Hp' as [[_ Hp']|[_ <-]].
    + eapply Hafter; eassumption.
    + exact Hgt.
  - intros Hall. apply Forall_app. split; [exact Hall|].
    constructor; [exact Hgt|constructor].
Qed.

Lemma fold_trackOutstanding hps hcs prepares :
  let s := fold_left (trackOutstanding hps hcs) prepares
             (mkState [] (mkPosition None hps) (mkPosition None hcs) [] 0 0 0) in
  trackedWrites s = map newSyncWrite prepares
  /\ lastWriteSeqno (highPreparedSeqno s) = hps
  /\ lastWriteSeqno (highCompletedSeqno s) = hcs
  /\ designatesLastAtOrBelow hps prepares (it (highPreparedSeqno s))
  /\ designatesLastAtOrBelow hcs prepares (it (highCompletedSeqno s))
  /\ receivedSnapshotEnds s = []
  /\ totalAccepted s = 0 /\ totalCommitted s = 0 /\ totalAborted s = 0.
Proof.
  induction prepares as [|x prepares IH] using rev_ind; cbn zeta.
  - cbn. repeat split; constructor.
  - rewrite fold_left_app. cbn [fold_left].
    cbn zeta in IH.
    destruct (fold_left (trackOutstanding hps hcs) prepares _)
      as [tw [hpsIt hpsSeqno] [hcsIt hcsSeqno] q a c b].
    cbn [trackedWrites highPreparedSeqno highCompletedSeqno lastWriteSeqno it
         receivedSnapshotEnds totalAccepted totalCommitted totalAborted] in IH.
    destruct IH as (-> & -> & -> & Dp & Dc & -> & -> & -> & ->).
    unfold trackOutstanding. cbn zeta.
    cbn [set_trackedWrites trackedWrites highPreparedSeqno highCompletedSeqno
         receivedSnapshotEnds totalAccepted totalCommitted totalAborted].
    rewrite length_app, length_map. cbn [length].
    replace (Nat.pred (length prepares + 1)) with (length prepares) by lia.
    rewrite map_app. cbn [map].
    destruct (Z.leb_spec (itemBySeqno x) hps) as [Hp|Hp];
      destruct (Z.leb_spec (itemBySeqno x) hcs) as [Hc|Hc];
      cbn [set_highPreparedSeqno set_highCompletedSeqno set_it trackedWrites
           highPreparedSeqno highCompletedSeqno lastWriteSeqno it
           receivedSnapshotEnds totalAccepted totalCommitted totalAborted];
      repeat split;
      first [ apply designatesLastAtOrBelow_snoc_le; assumption
            | apply designatesLastAtOrBelow_snoc_gt; assumption ].
Qed.

(** X11.  The constructor that takes the outstanding prepares tracks
    them in the order given, none of them completed, with the HPS and HCS
    seqnos it was given.  The HPS iterator designates the last prepare
    whose seqno is at most the HPS seqno, and is [end()] when there is
    none; likewise the HCS iterator for the HCS seqno.  No snapshot end is
    queued, no seqno waits in the latch, and the counters are zero: the
    prepares handed over are not counted as accepted. *)
Theorem newWithPrepares_tracks_outstanding v hps hcs prepares :
  let pdm := newWithPrepares v hps hcs prepares in
  trackedWrites (state pdm) = map newSyncWrite prepares
  /\ getHighPreparedSeqno pdm = hps
  /\ getHighCompletedSeqno pdm = hcs
  /\ designatesLastAtOrBelow hps prepares (it (highPreparedSeqno (state pdm)))
  /\ designatesLastAtOrBelow hcs prepares (it (highCompletedSeqno (state pdm)))
  /\ receivedSnapshotEnds (state pdm) = []
  /\ getNumAccepted pdm = 0 /\ getNumCommitted pdm = 0 /\ getNumAborted pdm = 0
  /\ seqnoToAck pdm = 0
  /\ vb pdm = v.
Proof.
  cbn zeta.
  destruct (fold_trackOutstanding hps hcs prepares)
    as (Htw & Hp & Hc & Dp & Dc & Hq & Ha & Hcm & Hab).
  unfold getHighPreparedSeqno, getHighCompletedSeqno, getNumAccepted,
    getNumCommitted, getNumAborted, newWithPrepares.
  cbn [state set_state seqnoToAck vb].
  repeat split; assumption.
Qed.

(** ** A memory snapshot that is persisted *)









(** ** Input in seqno order never makes the HPS update throw *)

Lemma seqnoAfter_cons w pre v :
  seqnoAfter (w :: pre) v = seqnoAfter pre (getBySeqno w).
Proof. unfold seqnoAfter. rewrite last_cons. destruct (last pre); reflexivity. Qed.

Lemma ascendingFrom_drop v (ws : Container) k :
  ascendingFrom v ws -> ascendingFrom (seqnoAfter (take k ws) v) (drop k ws).
Proof.
  revert v ws. induction k as [|k IH]; intros v ws H; [exact H|].
  destruct ws as [|w ws]; [exact H|].
  cbn [take drop]. rewrite seqnoAfter_cons.
  apply IH. apply ascendingFrom_cons in H as [_ H]. exact H.
Qed.

Lemma seqnoAfter_bound (P : Z -> Prop) pre v :
  P v -> Forall (fun w => P (getBySeqno w)) pre -> P (seqnoAfter pre v).
Proof.
  intros Hv Hall. unfold seqnoAfter. destruct (last pre) as [w|] eqn:Hlast;
    [|exact Hv].
  apply last_Some_elem_of in Hlast. rewrite Forall_forall in Hall.
  apply Hall, Hlast.
Qed.

Lemma canAdvanceOver_in_snapshot snapshotEndSeqno maxLevel w :
  0 <= snapshotEndSeqno < 2 ^ 63 ->
  0 <= getBySeqno w < 2 ^ 63 ->
  canAdvanceOver snapshotEndSeqno maxLevel w = true ->
  getBySeqno w <= snapshotEndSeqno.
Proof.
  intros Hse Hw H. unfold canAdvanceOver in H.
  apply andb_prop in H as [H _]. apply Z.leb_le in H.
  rewrite !to_uint64_small in H by lia. exact H.
Qed.

(** One pass over the front snapshot end of a state in order breaks the
    loop, or goes on with a state in order whose queue is one shorter. *)
Lemma processSnapshotEnd_in_order persistenceSeqno s snapshotEnd q :
  receivedSnapshotEnds s = snapshotEnd :: q ->
  pendingInOrder s ->
  snapshotEndsInOrder s ->
  (exists s1,
     processSnapshotEnd persistenceSeqno snapshotEnd s = (Returned false, s1))
  \/ (exists s1,
        processSnapshotEnd persistenceSeqno snapshotEnd s = (Returned true, s1)
        /\ pendingInOrder s1
        /\ snapshotEndsInOrder s1
        /\ receivedSnapshotEnds s1 = q).
Proof.
  intros Hq [Hasc Hrange] [Hqsorted Hqrange].
  rewrite Hq in Hqsorted, Hqrange. cbn [map] in Hqsorted.
  apply Forall_cons in Hqrange as [Hse Hqrange].
  apply StronglySorted_inv in Hqsorted as [Hqsorted Hhps].
  apply Forall_cons in Hhps as [Hhps _].
  apply StronglySorted_inv in Hqsorted as [Hqtail Hqle].
  set (persisted := fullyPersisted persistenceSeqno snapshotEnd).
  set (maxLevel := maxLevelCanAdvanceOver persisted (isDisk snapshotEnd)).
  destruct (pendingPrepares_split (seqno snapshotEnd) maxLevel s)
    as (Hsplit & Hcan & Hstop).
  set (k := advanceCount (seqno snapshotEnd) maxLevel (pendingPrepares s)) in *.
  set (pre := take k (pendingPrepares s)) in *.
  set (rest := drop k (pendingPrepares s)) in *.
  set (pos1 := positionAfter (nextIndex (it (highPreparedSeqno s))) pre
                 (highPreparedSeqno s)).
  pose proof (processSnapshotEnd_run persistenceSeqno snapshotEnd s pre rest
                Hsplit Hcan (ascendingFrom_take _ _ k Hasc) Hstop) as Hrun.
  cbn zeta in Hrun. fold persisted pos1 in Hrun.
  pose proof (pendingPrepares_positionAfter s pre rest Hsplit) as Hpending.
  fold pos1 in Hpending.
  assert (Hseqno : lastWriteSeqno pos1
                   = seqnoAfter pre (lastWriteSeqno (highPreparedSeqno s)))
    by apply positionAfter_lastWriteSeqno.
  assert (Hrangepre : Forall (fun w => 0 <= getBySeqno w < 2 ^ 63) pre).
  { apply Forall_take. exact Hrange. }
  assert (Hle : lastWriteSeqno pos1 <= seqno snapshotEnd).
  { rewrite Hseqno.
    apply (seqnoAfter_bound (fun v => v <= seqno snapshotEnd)); [exact Hhps|].
    rewrite Forall_forall in Hcan, Hrangepre. apply Forall_forall.
    intros w Hw. eapply canAdvanceOver_in_snapshot; eauto. }
  assert (Hrangerest : Forall (fun w => 0 <= getBySeqno w < 2 ^ 63) rest).
  { apply Forall_drop. exact Hrange. }
  assert (Hascrest : ascendingFrom (lastWriteSeqno pos1) rest).
  { rewrite Hseqno. apply ascendingFrom_drop. exact Hasc. }
  assert (Hqueue' : forall v, v <= seqno snapshotEnd ->
    StronglySorted Z.le (v :: map seqno q)).
  { intros v Hv. constructor; [exact Hqtail|].
    eapply Forall_impl; [exact Hqle|]. cbn. intros. lia. }
  destruct (isDisk snapshotEnd && persisted) eqn:Hdp.
  - destruct (Z.ltb_spec (seqno snapshotEnd) (lastWriteSeqno pos1)); [lia|].
    cbn zeta in Hrun.
    destruct (headInSnapshot (seqno snapshotEnd) rest) eqn:Hhead.
    + left. eexists. exact Hrun.
    + right. eexists. split; [exact Hrun|].
      split; [|split].
      * unfold pendingInOrder, pendingPrepares in *.
        cbn [popSnapshotEnd set_receivedSnapshotEnds set_highPreparedSeqno
             trackedWrites highPreparedSeqno it lastWriteSeqno] in *.
        rewrite Hpending. split; [|exact Hrangerest].
        unfold ascendingFrom in *.
        apply StronglySorted_inv in Hascrest as [Hsorted _].
        constructor; [exact Hsorted|].
        destruct rest as [|w rest']; [constructor|].
        cbn in Hhead. apply Forall_cons in Hrangerest as [Hw _].
        rewrite !to_uint64_small in Hhead by lia.
        apply Z.leb_gt in Hhead.
        cbn [map] in *. apply StronglySorted_inv in Hsorted as [_ Hall].
        constructor; [lia|].
        eapply Forall_impl; [exact Hall|]. cbn. intros. lia.
      * unfold snapshotEndsInOrder.
        cbn [popSnapshotEnd set_receivedSnapshotEnds set_highPreparedSeqno
             receivedSnapshotEnds highPreparedSeqno lastWriteSeqno].
        rewrite Hq. cbn [tail].
        split; [apply Hqueue'; lia|exact Hqrange].
      * cbn. rewrite Hq. reflexivity.
  - destruct ((isDisk snapshotEnd && negb persisted)
              || headInSnapshot (seqno snapshotEnd) rest).
    + left. eexists. exact Hrun.
    + right. eexists. split; [exact Hrun|].
      split; [|split].
      * unfold pendingInOrder, pendingPrepares in *.
        cbn [popSnapshotEnd set_receivedSnapshotEnds set_highPreparedSeqno
             trackedWrites highPreparedSeqno it lastWriteSeqno] in *.
        rewrite Hpending. split; assumption.
      * unfold snapshotEndsInOrder.
        cbn [popSnapshotEnd set_receivedSnapshotEnds set_highPreparedSeqno
             receivedSnapshotEnds highPreparedSeqno lastWriteSeqno].
        rewrite Hq. cbn [tail].
        split; [apply Hqueue'; exact Hle|exact Hqrange].
      * cbn. rewrite Hq. reflexivity.
Qed.

Lemma snapshotEndsLoop_in_order fuel persistenceSeqno s :
  (length (receivedSnapshotEnds s) < fuel)%nat ->
  pendingInOrder s ->
  snapshotEndsInOrder s ->
  exists s', snapshotEndsLoop fuel persistenceSeqno s = (Returned tt, s').
Proof.
  revert s. induction fuel as [|fuel IH]; intros s Hfuel Hpending Hqueue;
    [lia|].
  cbn [snapshotEndsLoop]. unfold bind at 1, get at 1.
  destruct (receivedSnapshotEnds s) as [|snapshotEnd q] eqn:Hq;
    [eexists; reflexivity|].
  unfold bind at 1.
  destruct (processSnapshotEnd_in_order persistenceSeqno s snapshotEnd q
              Hq Hpending Hqueue)
    as [(s1 & ->)|(s1 & -> & Hpending1 & Hqueue1 & Hq1)].
  - eexists; reflexivity.
  - apply IH; [|assumption|assumption]. rewrite Hq1. cbn in Hfuel. lia.
Qed.

(** X14.  On input in seqno order [updateHighPreparedSeqno] returns: if
    the pending prepares and the queued snapshot ends carry seqnos in
    non-decreasing order, none below the HPS seqno, no monotonicity check
    fails, whatever was persisted and whatever the types of the snapshots
    and the levels of the prepares.  [notifyLocalPersistence] then returns
    as well. *)
Theorem updateHighPreparedSeqno_returns_on_ordered_input :
  (forall persistenceSeqno s,
     pendingInOrder s -> snapshotEndsInOrder s ->
     fst (updateHighPreparedSeqno persistenceSeqno s) = Returned tt)
  /\ (forall pdm,
        pendingInOrder (state pdm) -> snapshotEndsInOrder (state pdm) ->
        fst (notifyLocalPersistence pdm) = Returned tt).
Proof.
  assert (Hupdate : forall persistenceSeqno s,
    pendingInOrder s -> snapshotEndsInOrder s ->
    fst (updateHighPreparedSeqno persistenceSeqno s) = Returned tt).
  { intros persistenceSeqno s Hpending Hqueue.
    rewrite updateHighPreparedSeqno_eq. cbn zeta.
    destruct (snapshotEndsLoop_in_order (S (length (receivedSnapshotEnds s)))
                persistenceSeqno s (Nat.lt_succ_diag_r _) Hpending Hqueue)
      as [s1 ->].
    cbn [fst snd]. destruct (_ =? _); [reflexivity|].
    rewrite checkForAndRemovePrepares_eq. reflexivity. }
  split; [exact Hupdate|].
  intros pdm Hpending Hqueue. unfold notifyLocalPersistence.
  rewrite then_sendSeqnoAck_eq, updateAndStoreAck_eq. cbn zeta.
  specialize (Hupdate (getPersistenceSeqno (vb pdm)) (state pdm) Hpending Hqueue).
  destruct (updateHighPreparedSeqno _ (state pdm)) as [r s1].
  cbn [fst] in Hupdate. subst r. cbn [fst snd].
  rewrite sendSeqnoAck_eq. reflexivity.
Qed.

Lemma updateHighPreparedSeqno_returns_on_ordered_input_witness :
  let s := set_receivedSnapshotEnds
             [mkSnapshotEnd 8 Memory; mkSnapshotEnd 12 Disk]
             (state (run false Scenarios.S3_prepares (new Scenarios.memoryVb))) in
  fst (updateHighPreparedSeqno 12 s) = Returned tt.
Proof.
  intros s.
  apply (proj1 updateHighPreparedSeqno_returns_on_ordered_input 12 s).
  - split.
    + change (StronglySorted Z.le [0; 5; 8; 12]).
      repeat (constructor; [|repeat (constructor; [lia|]); constructor]).
      constructor.
    + repeat (constructor; [cbn; lia|]). constructor.
  - split.
    + change (StronglySorted Z.le [0; 8; 12]).
      repeat (constructor; [|repeat (constructor; [lia|]); constructor]).
      constructor.
    + repeat (constructor; [cbn; lia|]). constructor.
Defined.

(** ** Where the HPS seqno comes from *)

Lemma elem_of_drop_inv {A} (x : A) n (l : list A) : x ∈ drop n l -> x ∈ l.
Proof.
  intros H. apply list_elem_of_lookup in H as [i Hi].
  rewrite lookup_drop in Hi. eapply list_elem_of_lookup_2, Hi.
Qed.

#[local] Instance loopProvenance_refl p : Reflexive (loopProvenance p).
Proof. intros s. split; [reflexivity|left; reflexivity]. Qed.

#[local] Instance loopProvenance_trans p : Transitive (loopProvenance p).
Proof.
  intros a b c [Hab Pab] [Hbc Pbc]. split; [etransitivity; eassumption|].
  destruct Hab as (Htw & _ & [m Hq] & _).
  destruct Pbc as [->|[(w & Hw & <-)|(e & He & Hd & Hp & <-)]].
  - exact Pab.
  - right; left. exists w. rewrite <- Htw. auto.
  - right; right. exists e. rewrite Hq in He.
    apply elem_of_drop_inv in He. auto.
Qed.

Lemma advanceOver_comes_from snapshotEndSeqno maxLevel pending idx p :
  let p' := snd (advanceOver snapshotEndSeqno maxLevel pending idx p) in
  lastWriteSeqno p' = lastWriteSeqno p
  \/ exists w, w ∈ pending /\ getBySeqno w = lastWriteSeqno p'.
Proof.
  revert idx p. induction pending as [|w rest IH]; intros idx p; cbn;
    [left; reflexivity|].
  destruct (_ && _); [|left; reflexivity].
  destruct (_ <? _); [left; reflexivity|].
  destruct (IH (S idx) (mkPosition (Some idx) (getBySeqno w)))
    as [Heq|(w' & Hw' & Heq)].
  - right. exists w. split; [apply elem_of_cons; left; reflexivity|].
    rewrite Heq. reflexivity.
  - right. exists w'. split; [apply elem_of_cons; right; exact Hw'|exact Heq].
Qed.

Lemma processSnapshotEnd_comes_from persistenceSeqno snapshotEnd s :
  snapshotEnd ∈ receivedSnapshotEnds s ->
  loopProvenance persistenceSeqno s
    (snd (processSnapshotEnd persistenceSeqno snapshotEnd s)).
Proof.
  intros Hin. split; [apply processSnapshotEnd_frame|].
  rewrite processSnapshotEnd_eq. unfold snapshotEndPass. cbn zeta.
  assert (Hadv : hpsComesFrom persistenceSeqno s
    (lastWriteSeqno
       (snd (advanceOver (seqno snapshotEnd)
               (maxLevelCanAdvanceOver
                  (fullyPersisted persistenceSeqno snapshotEnd)
                  (isDisk snapshotEnd))
               (pendingPrepares s) (nextIndex (it (highPreparedSeqno s)))
               (highPreparedSeqno s))))).
  { match goal with
    | |- context [advanceOver ?e ?m ?l ?i ?p] =>
        destruct (advanceOver_comes_from e m l i p) as [Heq|(w & Hw & Heq)]
    end.
    - left. exact Heq.
    - right; left. exists w. split; [|exact Heq].
      eapply elem_of_drop_inv, Hw. }
  destruct (advanceOver _ _ _ _ _) as [[[]|e] pos1]; cbn [fst snd] in *;
    [|exact Hadv].
  destruct (isDisk snapshotEnd && fullyPersisted persistenceSeqno snapshotEnd)
    eqn:Hdp.
  - destruct (_ <? _); cbn [snd]; [exact Hadv|].
    assert (Hjump : hpsComesFrom persistenceSeqno s (seqno snapshotEnd)).
    { right; right. exists snapshotEnd. apply andb_prop in Hdp as [Hd Hp].
      split; [exact Hin|]. split.
      - unfold isDisk in Hd. destruct (type snapshotEnd);
          [reflexivity|discriminate].
      - split; [apply Z.leb_le, Hp|reflexivity]. }
    destruct (headInSnapshot _ _); exact Hjump.
  - destruct (_ || _); exact Hadv.
Qed.

Lemma snapshotEndsLoop_comes_from fuel persistenceSeqno s :
  loopProvenance persistenceSeqno s
    (snd (snapshotEndsLoop fuel persistenceSeqno s)).
Proof.
  revert s. induction fuel as [|fuel IH]; intros s; [reflexivity|].
  cbn [snapshotEndsLoop]. unfold bind at 1, get at 1.
  destruct (receivedSnapshotEnds s) as [|snapshotEnd q] eqn:Hq; [reflexivity|].
  unfold bind at 1.
  assert (Hin : snapshotEnd ∈ receivedSnapshotEnds s)
    by (rewrite Hq; apply elem_of_cons; left; reflexivity).
  pose proof (processSnapshotEnd_comes_from persistenceSeqno snapshotEnd s Hin)
    as Hstep.
  destruct (processSnapshotEnd persistenceSeqno snapshotEnd s)
    as [[[|]|e] s1]; cbn [snd] in *; try exact Hstep.
  etransitivity; [exact Hstep|apply IH].
Qed.

(** X15.  The HPS seqno that [updateHighPreparedSeqno] leaves, returning
    or throwing, is the one it found, or the seqno of a write that was
    tracked when it was called, or the end seqno of a disk snapshot that
    was queued and is persisted.  So a seqno acknowledged to the active
    node is always one of these. *)
Theorem updateHighPreparedSeqno_hps_comes_from persistenceSeqno s :
  hpsComesFrom persistenceSeqno s
    (lastWriteSeqno
       (highPreparedSeqno (snd (updateHighPreparedSeqno persistenceSeqno s)))).
Proof.
  rewrite updateHighPreparedSeqno_eq. cbn zeta.
  destruct (snapshotEndsLoop_comes_from (S (length (receivedSnapshotEnds s)))
              persistenceSeqno s) as [_ Hloop].
  destruct (snapshotEndsLoop _ persistenceSeqno s) as [[[]|e] s1];
    cbn [fst snd] in *; [|exact Hloop].
  destruct (_ =? _); cbn [snd]; [exact Hloop|].
  rewrite checkForAndRemovePrepares_eq. exact Hloop.
Qed.

(** ** Development builds track no duplicate *)

#[local] Instance keepsNoDuplicates_refl : Reflexive keepsNoDuplicates.
Proof. intros s H. exact H. Qed.

#[local] Instance keepsNoDuplicates_trans : Transitive keepsNoDuplicates.
Proof. intros a b c Hab Hbc H. apply Hbc, Hab, H. Qed.

Lemma uncompletedKeys_sublist (l1 l2 : Container) :
  l1 `sublist_of` l2 -> uncompletedKeys l1 `sublist_of` uncompletedKeys l2.
Proof.
  unfold uncompletedKeys.
  induction 1 as [|x l1 l2 _ IH|x l1 l2 _ IH]; cbn.
  - constructor.
  - destruct (negb (isCompleted x)); cbn; [apply sublist_skip|]; exact IH.
  - destruct (negb (isCompleted x)); cbn; [apply sublist_cons|]; exact IH.
Qed.

Lemma uncompletedKeys_alter n (tw : Container) :
  uncompletedKeys (alter setCompleted n tw) = uncompletedKeys (delete n tw).
Proof.
  unfold uncompletedKeys. revert n.
  induction tw as [|w tw IH]; intros [|n]; cbn; try reflexivity.
  destruct (negb (isCompleted w)); cbn; rewrite IH; reflexivity.
Qed.

Lemma duplicate_check_passed k (tw : Container) :
  List.find (fun write => negb (isCompleted write) && key_eqb (getKey write) k)
    tw = None ->
  k ∉ uncompletedKeys tw.
Proof.
  unfold uncompletedKeys. induction tw as [|w tw IH]; cbn.
  - intros _ H. inversion H.
  - destruct (negb (isCompleted w)); cbn; [|exact IH].
    unfold key_eqb at 1. destruct (String.eqb_spec (getKey w) k);
      [discriminate|].
    intros H. apply not_elem_of_cons. split; [congruence|apply IH, H].
Qed.

Lemma statePruned_noDuplicates n s : keepsNoDuplicates s (statePruned n s).
Proof.
  unfold keepsNoDuplicates, noDuplicatePrepares. cbn [statePruned trackedWrites].
  intros H. eapply sublist_NoDup; [exact H|].
  apply uncompletedKeys_sublist, sublist_drop.
Qed.

Lemma addSyncWrite_locked_noDuplicates i o :
  always keepsNoDuplicates (addSyncWrite_locked true i o).
Proof.
  intros s. rewrite addSyncWrite_locked_eq.
  destruct (negb _); [reflexivity|]. cbn zeta.
  assert (Herase : keepsNoDuplicates s (afterOverwrite i o s)).
  { unfold keepsNoDuplicates, noDuplicatePrepares. intros H.
    destruct (afterOverwrite_cursors i o s) as (_ & _ & -> & _).
    destruct (overwriteTarget i o s) as [[n w]|]; [|exact H].
    eapply sublist_NoDup; [exact H|].
    apply uncompletedKeys_sublist, sublist_delete. }
  destruct (duplicateFound true i (afterOverwrite i o s)) eqn:Hdup;
    cbn [snd]; [exact Herase|].
  intros H. apply Herase in H.
  unfold duplicateFound in Hdup. cbn [andb] in Hdup.
  destruct (List.find _ _) eqn:Hfind; [discriminate|].
  apply duplicate_check_passed in Hfind.
  unfold noDuplicatePrepares, appended in *.
  cbn [set_totalAccepted set_trackedWrites trackedWrites].
  unfold uncompletedKeys in *. rewrite List.filter_app, map_app. cbn.
  apply NoDup_app. split; [exact H|]. split.
  - intros k Hk Hin. apply list_elem_of_singleton in Hin. subst k.
    apply Hfind, Hk.
  - apply NoDup_singleton.
Qed.

Lemma completeSyncWrite_locked_noDuplicates ordered key res p :
  always keepsNoDuplicates (completeSyncWrite_locked ordered key res p).
Proof.
  intros s. rewrite completeSyncWrite_locked_eq.
  destruct (trackedWrites s) as [|w0 tw0] eqn:Htw; [reflexivity|].
  rewrite <- Htw.
  destruct (deref _ _) as [w|]; [|reflexivity].
  destruct (completionCandidate ordered key s) as [n|]; [|reflexivity].
  destruct (negb _); [reflexivity|].
  destruct (prepareSeqnoDiffers w p); [reflexivity|].
  destruct (_ && _); [reflexivity|]. cbn zeta.
  assert (Htw1 : trackedWrites (withHighCompletedSeqnoOn ordered n w s)
                 = trackedWrites s).
  { unfold withHighCompletedSeqnoOn. destruct (_ || _); reflexivity. }
  destruct (isCompleted w); cbn [snd].
  { unfold keepsNoDuplicates, noDuplicatePrepares. rewrite Htw1. auto. }
  rewrite checkForAndRemovePrepares_eq. cbn [snd].
  unfold keepsNoDuplicates, noDuplicatePrepares. intros H.
  assert (Hkeys : NoDup (uncompletedKeys
    (trackedWrites
       (statePruned
          (prunedPrefix
             (Z.min
                (lastWriteSeqno (highCompletedSeqno
                   (markCompleted n (withHighCompletedSeqnoOn ordered n w s))))
                (lastWriteSeqno (highPreparedSeqno
                   (markCompleted n (withHighCompletedSeqnoOn ordered n w s)))))
             (trackedWrites
                (markCompleted n (withHighCompletedSeqnoOn ordered n w s))))
          (markCompleted n (withHighCompletedSeqnoOn ordered n w s)))))).
  { cbn [statePruned markCompleted set_trackedWrites trackedWrites].
    rewrite Htw1.
    eapply sublist_NoDup; [exact H|].
    etransitivity; [apply uncompletedKeys_sublist, sublist_drop|].
    rewrite uncompletedKeys_alter.
    apply uncompletedKeys_sublist, sublist_delete. }
  destruct res; exact Hkeys.
Qed.

Lemma updateHighPreparedSeqno_noDuplicates persistenceSeqno :
  always keepsNoDuplicates (updateHighPreparedSeqno persistenceSeqno).
Proof.
  intros s H.
  destruct (updateHighPreparedSeqno_frame persistenceSeqno s)
    as (_ & [n Htw] & _).
  unfold noDuplicatePrepares in *. rewrite Htw.
  eapply sublist_NoDup; [exact H|].
  apply uncompletedKeys_sublist, sublist_drop.
Qed.

(** X16.  What the check of development builds in [addSyncWrite]
    validates is an invariant of such builds: with
    [CB_DEVELOPMENT_ASSERTS] on, if no two tracked writes that are not
    completed have the same key, this is still so after any sequence of
    operations, returning or throwing.  It holds of the monitors that the
    first two constructors build, which track nothing. *)
Theorem development_build_tracks_no_duplicate ops :
  (forall pdm,
     noDuplicatePrepares (state pdm) ->
     noDuplicatePrepares (state (run true ops pdm)))
  /\ (forall v hps hcs,
        noDuplicatePrepares (state (run true ops (new v)))
        /\ noDuplicatePrepares (state (run true ops (newAt v hps hcs)))).
Proof.
  assert (Hrun : forall pdm,
    noDuplicatePrepares (state pdm) ->
    noDuplicatePrepares (state (run true ops pdm))).
  { intros pdm. apply (run_onState keepsNoDuplicates true).
    intros op. apply perform_onState; try typeclasses eauto.
    - apply addSyncWrite_locked_noDuplicates.
    - apply completeSyncWrite_locked_noDuplicates.
    - apply updateHighPreparedSeqno_noDuplicates.
    - intros q s H. exact H. }
  split; [exact Hrun|].
  intros v hps hcs. split; apply Hrun; constructor.
Qed.

Lemma development_build_tracks_no_duplicate_witness :
  noDuplicatePrepares
    (state (run true
              [AddSyncWrite (Scenarios.prepare Scenarios.k1 13 Level.Majority)
                 (Some 5);
               NotifySnapshotEndReceived 13]
              (run true Scenarios.S3_prepares (new Scenarios.memoryVb)))).
Proof.
  apply (proj1 (development_build_tracks_no_duplicate _)).
  unfold noDuplicatePrepares.
  change (NoDup [Scenarios.k1; Scenarios.k2; Scenarios.k3]).
  repeat (constructor;
          [rewrite ?not_elem_of_cons; repeat split;
             try discriminate; apply not_elem_of_nil|]).
  constructor.
Defined.

(** ** Prepares and completions send nothing *)

(** X17.  Acknowledgements come from the notifications only.
    [addSyncWrite] and [completeSyncWrite], returning or throwing, send
    nothing to the VBucket, leave the latch [seqnoToAck] and the queue of
    snapshot ends as they are, and do not move the HPS seqno;
    [addSyncWrite] does not move the HCS seqno either. *)
Theorem prepares_and_completions_never_acknowledge dev pdm :
  (forall i o,
     let pdm' := snd (addSyncWrite dev i o pdm) in
     vb pdm' = vb pdm
     /\ seqnoToAck pdm' = seqnoToAck pdm
     /\ receivedSnapshotEnds (state pdm') = receivedSnapshotEnds (state pdm)
     /\ getHighPreparedSeqno pdm' = getHighPreparedSeqno pdm
     /\ getHighCompletedSeqno pdm' = getHighCompletedSeqno pdm)
  /\ (forall key res p,
        let pdm' := snd (completeSyncWrite key res p pdm) in
        vb pdm' = vb pdm
        /\ seqnoToAck pdm' = seqnoToAck pdm
        /\ receivedSnapshotEnds (state pdm') = receivedSnapshotEnds (state pdm)
        /\ getHighPreparedSeqno pdm' = getHighPreparedSeqno pdm).
Proof.
  unfold getHighPreparedSeqno, getHighCompletedSeqno. split.
  - intros i o. cbn zeta. rewrite addSyncWrite_eq.
    destruct (Level.eqb _ _); cbn [snd]; [repeat split|].
    destruct (isDefault _); cbn [snd]; [repeat split|].
    destruct (addSyncWrite_locked_frame dev i o (state pdm))
      as (Eq & Ep & Ec & _).
    cbn [vb seqnoToAck state set_state]. repeat split; assumption.
  - intros key res p. cbn zeta. rewrite completeSyncWrite_eq. cbn zeta.
    destruct (completeSyncWrite_locked_frame
                (negb (isReceivingDiskSnapshot (vb pdm))) key res p (state pdm))
      as (Eq & Ep & _).
    cbn [snd vb seqnoToAck state set_state]. repeat split; assumption.
Qed.

(** ** Ordered completions take the prepares in turn *)

Lemma prunedPrefix_length fence (tw : Container) :
  (prunedPrefix fence tw <= length tw)%nat.
Proof. apply prunedPrefix_split. Qed.

(** X18.  While the VBucket is not receiving a disk snapshot, completions
    take the tracked prepares in turn.  When the part of
    [completeSyncWrite] under the lock returns with ordered completion
    enforced, the write it completed is the first one behind the HCS
    iterator: it has the given key and was not completed, and its seqno,
    which is not below the HCS seqno of before, is the HCS seqno now.  If
    the write that follows it has a larger seqno, the writes behind the
    HCS iterator are then exactly those that followed it, in the same
    order, whatever was pruned. *)
Theorem ordered_completion_takes_the_next key res p s :
  fst (completeSyncWrite_locked true key res p s) = Returned tt ->
  exists w rest,
    awaitingCompletion s = w :: rest
    /\ getKey w = key
    /\ isCompleted w = false
    /\ lastWriteSeqno (highCompletedSeqno s) <= getBySeqno w
    /\ let s' := snd (completeSyncWrite_locked true key res p s) in
       lastWriteSeqno (highCompletedSeqno s') = getBySeqno w
       /\ ((forall w', head rest = Some w' -> getBySeqno w < getBySeqno w') ->
           awaitingCompletion s' = rest).
Proof.
  rewrite completeSyncWrite_locked_eq.
  destruct (trackedWrites s) as [|w0 tw0] eqn:Htw; [discriminate|].
  rewrite <- Htw. clear Htw w0 tw0.
  unfold completionCandidate. rewrite deref_getIteratorNext.
  unfold awaitingCompletion.
  destruct (drop (nextIndex (it (highCompletedSeqno s))) (trackedWrites s))
    as [|w rest] eqn:Hdrop; [discriminate|].
  destruct (getIteratorNext_pending _ _ _ _ Hdrop) as [-> Hw].
  cbn [head].
  apply drop_cons_inv in Hdrop as [_ Hrest].
  remember (nextIndex (it (highCompletedSeqno s))) as n eqn:Hn.
  unfold key_eqb.
  destruct (String.eqb_spec (getKey w) key) as [Hkey|]; [|discriminate].
  cbn [negb].
  destruct (prepareSeqnoDiffers w p); [discriminate|].
  cbn [andb].
  destruct (Z.ltb_spec (getBySeqno w) (lastWriteSeqno (highCompletedSeqno s)))
    as [|Hle]; [discriminate|].
  cbn zeta. unfold withHighCompletedSeqnoOn. cbn [orb].
  destruct (isCompleted w) eqn:Hcompleted; [discriminate|].
  intros _. exists w, rest. split; [reflexivity|].
  split; [exact Hkey|]. split; [exact Hcompleted|]. split; [exact Hle|].
  cbn [snd]. rewrite checkForAndRemovePrepares_eq. cbn [snd].
  assert (Hstate : forall s2,
    lastWriteSeqno (highCompletedSeqno (countResolution res s2))
    = lastWriteSeqno (highCompletedSeqno s2)
    /\ drop (nextIndex (it (highCompletedSeqno (countResolution res s2))))
         (trackedWrites (countResolution res s2))
       = drop (nextIndex (it (highCompletedSeqno s2))) (trackedWrites s2)).
  { intros s2. destruct res; split; reflexivity. }
  match goal with
  | |- context [countResolution res ?s2] => destruct (Hstate s2) as [-> ->]
  end.
  clear Hstate.
  cbn [statePruned markCompleted set_trackedWrites set_highCompletedSeqno
       highCompletedSeqno highPreparedSeqno trackedWrites set_it
       lastWriteSeqno it].
  split; [reflexivity|]. intros Hnext.
  remember (alter setCompleted n (trackedWrites s)) as tw' eqn:Htw'.
  remember (Z.min (getBySeqno w) (lastWriteSeqno (highPreparedSeqno s)))
    as fence eqn:Hfence.
  remember (prunedPrefix fence tw') as k eqn:Hk.
  assert (Hkn : (k <= S n)%nat).
  { destruct (tw' !! S n) as [w'|] eqn:Hw'.
    - rewrite Hk. apply (prunedPrefix_le fence tw' (S n) w' Hw').
      assert (Hhead : head rest = Some w').
      { rewrite <- Hrest, head_lookup, lookup_drop, Nat.add_0_r.
        rewrite Htw', list_lookup_alter_ne in Hw' by lia.
        exact Hw'. }
      specialize (Hnext _ Hhead). lia.
    - apply lookup_ge_None in Hw'.
      pose proof (prunedPrefix_length fence tw') as Hlen.
      rewrite <- Hk in Hlen. lia. }
  assert (Hafter : drop (S n) tw' = rest).
  { rewrite Htw', drop_alter_lt by lia. exact Hrest. }
  unfold iteratorAfterPrune.
  destruct (Nat.ltb_spec n k); cbn [nextIndex].
  - rewrite drop_0. replace k with (S n) by lia. exact Hafter.
  - rewrite drop_drop. replace (k + S (n - k))%nat with (S n) by lia.
    exact Hafter.
Qed.

Lemma ordered_completion_takes_the_next_witness :
  let s := state (run false Scenarios.S3_prepares (new Scenarios.memoryVb)) in
  exists w rest,
    awaitingCompletion s = w :: rest
    /\ getKey w = Scenarios.k1
    /\ map getBySeqno
         (awaitingCompletion
            (snd (completeSyncWrite_locked true Scenarios.k1 Commit (Some 5) s)))
       = [8; 12].
Proof.
  intros s.
  destruct (ordered_completion_takes_the_next Scenarios.k1 Commit (Some 5) s
              eq_refl) as (w & rest & Haw & Hkey & _ & _ & _ & Hrest).
  exists w, rest. split; [exact Haw|]. split; [exact Hkey|].
  reflexivity.
Defined.

(** ** From the snapshot end to the acknowledgement *)




(** ** Completions during a disk snapshot *)

(** X20.  While the VBucket receives a disk snapshot, a completion is
    matched against the first tracked write that has its key, wherever
    the HCS iterator is.  When the part of [completeSyncWrite] under the
    lock returns with ordered completion not enforced: the write it
    completed has the given key, no write before it has that key, and it
    was not completed; the HCS seqno is the larger of the HCS seqno of
    before and the seqno of that write, so that a completion at or below
    the HCS seqno leaves the HCS cursor where it is.  When something is
    tracked but no tracked write has the key, the call throws the logic
    error of the missing prepare and changes nothing. *)
Theorem unordered_completion_takes_first_with_key key res p s :
  let r := completeSyncWrite_locked false key res p s in
  (fst r = Returned tt ->
   exists n w,
     trackedWrites s !! n = Some w
     /\ getKey w = key
     /\ isCompleted w = false
     /\ (forall m w', (m < n)%nat -> trackedWrites s !! m = Some w' ->
           getKey w' <> key)
     /\ lastWriteSeqno (highCompletedSeqno (snd r))
        = Z.max (lastWriteSeqno (highCompletedSeqno s)) (getBySeqno w)
     /\ (getBySeqno w <= lastWriteSeqno (highCompletedSeqno s) ->
         exists k,
           highCompletedSeqno (snd r)
           = set_it (iteratorAfterPrune k (it (highCompletedSeqno s)))
               (highCompletedSeqno s)))
  /\ (trackedWrites s <> [] ->
      Forall (fun w => getKey w <> key) (trackedWrites s) ->
      r = (Thrown (logic_error
                     "No Prepare waiting for completion, but received"), s)).
Proof.
  cbn zeta. rewrite completeSyncWrite_locked_eq. unfold completionCandidate.
  split.
  - destruct (trackedWrites s) as [|w0 tw0] eqn:Htw; [discriminate|].
    rewrite <- Htw. clear Htw w0 tw0.
    pose proof (findKeyFrom_spec key (trackedWrites s) 0) as Hfind.
    fold (findKey key (trackedWrites s)) in Hfind.
    destruct (findKey key (trackedWrites s)) as [n|]; [|discriminate].
    destruct Hfind as (w & _ & Hw & Hkey & Hfirst).
    rewrite Nat.sub_0_r in Hw, Hfirst.
    cbn [deref]. rewrite Hw, Hkey. cbn [negb].
    destruct (prepareSeqnoDiffers w p); [discriminate|].
    cbn [andb]. cbn zeta. unfold withHighCompletedSeqnoOn. cbn [orb].
    destruct (isCompleted w) eqn:Hcompleted; [discriminate|].
    intros _. exists n, w. split; [exact Hw|].
    split; [apply String.eqb_eq, Hkey|]. split; [exact Hcompleted|].
    split.
    { intros m w' Hm Hw' Heq. specialize (Hfirst m w' Hm Hw').
      unfold key_eqb in Hfirst. apply String.eqb_neq in Hfirst.
      contradiction. }
    cbn [snd]. rewrite checkForAndRemovePrepares_eq. cbn [snd].
    assert (Hres : forall s2,
      highCompletedSeqno (countResolution res s2) = highCompletedSeqno s2)
      by (intros s2; destruct res; reflexivity).
    rewrite Hres.
    destruct (Z.ltb_spec (lastWriteSeqno (highCompletedSeqno s)) (getBySeqno w));
      cbn [statePruned markCompleted set_trackedWrites set_highCompletedSeqno
           highCompletedSeqno highPreparedSeqno trackedWrites set_it
           lastWriteSeqno it].
    + split; [lia|]. intros Hle. lia.
    + split; [lia|]. intros _. eexists. reflexivity.
  - intros Hne Hkeys.
    destruct (trackedWrites s) as [|w0 tw0] eqn:Htw; [contradiction|].
    rewrite <- Htw in *.
    rewrite (findKey_no_match _ _ Hkeys). reflexivity.
Qed.

Lemma unordered_completion_takes_first_with_key_witness :
  let s := state (run false
                    [AddSyncWrite
                       (Scenarios.prepare Scenarios.k1 10 Level.Majority) None;
                     AddSyncWrite
                       (Scenarios.prepare Scenarios.k2 11 Level.Majority) None]
                    (new (Scenarios.diskVb 0))) in
  exists n w,
    trackedWrites s !! n = Some w
    /\ getKey w = Scenarios.k2
    /\ lastWriteSeqno
         (highCompletedSeqno
            (snd (completeSyncWrite_locked false Scenarios.k2 Commit (Some 11) s)))
       = 11.
Proof.
  intros s.
  destruct (proj1 (unordered_completion_takes_first_with_key
                     Scenarios.k2 Commit (Some 11) s) eq_refl)
    as (n & w & Hw & Hkey & _ & _ & Hhcs & _).
  exists n, w. split; [exact Hw|]. split; [exact Hkey|reflexivity].
Defined.

(** ** A persisted disk snapshot, from its end to the acknowledgement *)




(** ** A disk snapshot that is persisted after its end was received *)




(** * The HPS update and the monotonicity guard *)

(** ** The first prepare whose seqno is below the seqno reached *)

Lemma ascendingFrom_nil v : ascendingFrom v [].
Proof. unfold ascendingFrom. cbn. repeat constructor. Qed.

Lemma ascendingFrom_cons_intro v w ws :
  v <= getBySeqno w ->
  ascendingFrom (getBySeqno w) ws ->
  ascendingFrom v (w :: ws).
Proof.
  unfold ascendingFrom. cbn [map]. intros Hle H.
  pose proof H as H'. apply StronglySorted_inv in H' as [_ Hall].
  constructor; [exact H|]. constructor; [exact Hle|].
  eapply Forall_impl; [exact Hall|]. cbn. intros. lia.
Qed.

(** Either the seqnos are in order, or there is a first prepare whose
    seqno is below the seqno of the one before it (below [v] if it is the
    first of all). *)
Lemma first_descent v (l : Container) :
  ascendingFrom v l
  \/ exists pre1 w pre2,
       l = pre1 ++ w :: pre2
       /\ ascendingFrom v pre1
       /\ getBySeqno w < seqnoAfter pre1 v.
Proof.
  revert v. induction l as [|w l IH]; intros v.
  - left. apply ascendingFrom_nil.
  - destruct (Z.lt_ge_cases (getBySeqno w) v) as [Hlt|Hge].
    + right. exists [], w, l.
      split; [reflexivity|]. split; [apply ascendingFrom_nil|exact Hlt].
    + destruct (IH (getBySeqno w))
        as [Hasc|(pre1 & w' & pre2 & -> & Hasc & Hlt)].
      * left. apply ascendingFrom_cons_intro; assumption.
      * right. exists (w :: pre1), w', pre2.
        split; [reflexivity|].
        split; [apply ascendingFrom_cons_intro; assumption|].
        rewrite seqnoAfter_cons. exact Hlt.
Qed.

Lemma advanceOver_descent snapshotEndSeqno maxLevel pre1 w tail idx p :
  Forall (fun w => canAdvanceOver snapshotEndSeqno maxLevel w = true) pre1 ->
  ascendingFrom (lastWriteSeqno p) pre1 ->
  canAdvanceOver snapshotEndSeqno maxLevel w = true ->
  getBySeqno w < seqnoAfter pre1 (lastWriteSeqno p) ->
  advanceOver snapshotEndSeqno maxLevel (pre1 ++ w :: tail) idx p
  = (Thrown monotonicFailure, positionAfter idx pre1 p).
Proof.
  intros Hcan Hasc Hw Hlt. rewrite advanceOver_app by assumption.
  cbn [advanceOver]. unfold canAdvanceOver in Hw. rewrite Hw.
  rewrite positionAfter_lastWriteSeqno.
  destruct (Z.ltb_spec (getBySeqno w)
              (seqnoAfter pre1 (lastWriteSeqno p))); [reflexivity|lia].
Qed.

(** [processSnapshotEnd] when the HPS loop meets, after the prepares
    [pre1], a prepare whose seqno is below the seqno reached. *)
Lemma processSnapshotEnd_descent persistenceSeqno snapshotEnd s pre1 w tail :
  pendingPrepares s = pre1 ++ w :: tail ->
  Forall (fun w =>
            canAdvanceOver (seqno snapshotEnd)
              (maxLevelCanAdvanceOver
                 (fullyPersisted persistenceSeqno snapshotEnd)
                 (isDisk snapshotEnd)) w = true) pre1 ->
  canAdvanceOver (seqno snapshotEnd)
    (maxLevelCanAdvanceOver (fullyPersisted persistenceSeqno snapshotEnd)
       (isDisk snapshotEnd)) w = true ->
  ascendingFrom (lastWriteSeqno (highPreparedSeqno s)) pre1 ->
  getBySeqno w < seqnoAfter pre1 (lastWriteSeqno (highPreparedSeqno s)) ->
  processSnapshotEnd persistenceSeqno snapshotEnd s
  = (Thrown monotonicFailure,
     set_highPreparedSeqno
       (positionAfter (nextIndex (it (highPreparedSeqno s))) pre1
          (highPreparedSeqno s)) s).
Proof.
  intros Hp Hcan Hw Hasc Hlt.
  rewrite processSnapshotEnd_eq. unfold snapshotEndPass. cbn zeta.
  rewrite Hp, (advanceOver_descent _ _ _ _ _ _ _ Hcan Hasc Hw Hlt).
  reflexivity.
Qed.

(** [updateHighPreparedSeqno] when the pass over the front snapshot end
    throws. *)
Lemma updateHighPreparedSeqno_front_throws persistenceSeqno s snapshotEnd q e s1 :
  receivedSnapshotEnds s = snapshotEnd :: q ->
  processSnapshotEnd persistenceSeqno snapshotEnd s = (Thrown e, s1) ->
  updateHighPreparedSeqno persistenceSeqno s = (Thrown e, s1).
Proof.
  intros Hq Hstep.
  unfold updateHighPreparedSeqno, bind at 1, get at 1, bind at 1.
  cbn [snapshotEndsLoop]. unfold bind at 1, get at 1. rewrite Hq.
  unfold bind at 1. rewrite Hstep. reflexivity.
Qed.

(** ** A PersistToMajority prepare in an unpersisted memory snapshot *)

(** C2 as stated fails.  The operations of
    [OverwrittenUnderHps.memoryOps] all return and leave a monitor on a
    VBucket that receives a memory snapshot and has persisted nothing,
    with the tracked prepares [k1] at 5 (Majority), [k2] at 9 (Majority)
    and [k3] at 10 (PersistToMajority), the HPS seqno being 6 and the HPS
    iterator [end()]: the prepare of [k2] at 6, on which the HPS was, has
    been overwritten.  The snapshot end 10 is then received and not
    persisted.  The claim has the HPS move over the two Majority
    prepares, to 9, and stop before the prepare at 10.  The call throws
    instead: the loop starts again at [begin()], and the assignment of 5
    to the HPS seqno 6 fails the monotonicity check.  The HPS is still 6
    and nothing new is acknowledged. *)
Lemma memory_snapshot_fence_not_reached :
  let pdm := OverwrittenUnderHps.memoryMonitor in
  let r := notifySnapshotEndReceived 10 pdm in
  allReturn false OverwrittenUnderHps.memoryOps (new Scenarios.memoryVb) = true
  /\ isReceivingDiskSnapshot (vb pdm) = false
  /\ getPersistenceSeqno (vb pdm) = 0
  /\ OverwrittenUnderHps.tracked pdm
     = [(Scenarios.k1, 5, Level.Majority);
        (Scenarios.k2, 9, Level.Majority);
        (Scenarios.k3, 10, Level.PersistToMajority)]
  /\ highPreparedSeqno (state pdm) = mkPosition None 6
  /\ seqnoAcksSent (vb pdm) = [6]
  /\ fst r = Thrown (logic_error "Monotonic invariant failed")
  /\ receivedSnapshotEnds (state (snd r)) = [mkSnapshotEnd 10 Memory]
  /\ highPreparedSeqno (state (snd r)) = mkPosition None 6
  /\ getHighPreparedSeqno (snd r) <> 9
  /\ seqnoAcksSent (vb (snd r)) = [6].
Proof. repeat split; try reflexivity. discriminate. Qed.

(** C2, amended.  Take a memory snapshot that is not fully persisted (the
    persisted seqno is below the snapshot end), the prepares behind the
    HPS iterator being a run [pre] of prepares of level Majority or
    MajorityAndPersistOnMaster within the snapshot, followed by a
    PersistToMajority prepare [blocker] within the snapshot.
    - If the seqnos of [pre] are in non-decreasing order and none is
      below the HPS seqno, the pass of [updateHighPreparedSeqno] over the
      snapshot end moves the HPS over [pre], onto its last prepare (not
      at all if [pre] is empty), and stops immediately before [blocker],
      telling the loop over the snapshot ends to stop; when the snapshot
      end is at the front of the queue, [updateHighPreparedSeqno] returns
      with that HPS seqno and the snapshot end still queued.
    - [blocker] blocks the HPS: when it is the first prepare behind the
      HPS iterator ([pre] is empty) and the snapshot end is at the front
      of the queue, [updateHighPreparedSeqno] returns and leaves the
      state as it is.
    - Otherwise the monotonicity check of the HPS seqno fails at the
      first prepare of [pre] whose seqno is below the seqno reached: the
      pass throws, the HPS left on the prepares before that one, and with
      it [updateHighPreparedSeqno] when the snapshot end is at the front
      of the queue.
    With tracked prepares at seqnos 5 (Majority), 8 (PersistToMajority)
    and 12 (Majority), snapshot end 12 and persisted seqno 0, the HPS
    seqno becomes 5, 5 is acknowledged and the prepares at 8 and 12 stay
    behind the HPS iterator; once the persisted seqno is 12, the HPS
    becomes 12. *)
Theorem memory_snapshot_persist_to_majority_fence :
  (forall persistenceSeqno s snapshotEnd pre blocker rest,
     type snapshotEnd = Memory ->
     to_int64 persistenceSeqno < seqno snapshotEnd ->
     pendingPrepares s = pre ++ blocker :: rest ->
     Forall (fun w =>
               (getLevel (getDurabilityReqs w) = Level.Majority
                \/ getLevel (getDurabilityReqs w)
                   = Level.MajorityAndPersistOnMaster)
               /\ to_uint64 (getBySeqno w) <= to_uint64 (seqno snapshotEnd))
       pre ->
     getLevel (getDurabilityReqs blocker) = Level.PersistToMajority ->
     to_uint64 (getBySeqno blocker) <= to_uint64 (seqno snapshotEnd) ->
     let hps := lastWriteSeqno (highPreparedSeqno s) in
     let reached passed :=
       set_highPreparedSeqno
         (positionAfter (nextIndex (it (highPreparedSeqno s))) passed
            (highPreparedSeqno s)) s in
     (ascendingFrom hps pre ->
        processSnapshotEnd persistenceSeqno snapshotEnd s
        = (Returned false, reached pre)
        /\ lastWriteSeqno (highPreparedSeqno (reached pre))
           = seqnoAfter pre hps
        /\ pendingPrepares (reached pre) = blocker :: rest
        /\ forall q,
             receivedSnapshotEnds s = snapshotEnd :: q ->
             exists s',
               updateHighPreparedSeqno persistenceSeqno s = (Returned tt, s')
               /\ lastWriteSeqno (highPreparedSeqno s') = seqnoAfter pre hps
               /\ receivedSnapshotEnds s' = snapshotEnd :: q)
     /\ (pre = [] ->
         forall q,
           receivedSnapshotEnds s = snapshotEnd :: q ->
           updateHighPreparedSeqno persistenceSeqno s = (Returned tt, s))
     /\ (~ ascendingFrom hps pre ->
           exists pre1 w pre2,
             pre = pre1 ++ w :: pre2
             /\ ascendingFrom hps pre1
             /\ getBySeqno w < seqnoAfter pre1 hps
             /\ processSnapshotEnd persistenceSeqno snapshotEnd s
                = (Thrown (logic_error "Monotonic invariant failed"),
                   reached pre1)
             /\ forall q,
                  receivedSnapshotEnds s = snapshotEnd :: q ->
                  updateHighPreparedSeqno persistenceSeqno s
                  = (Thrown (logic_error "Monotonic invariant failed"),
                     reached pre1)))
  /\ (let pdm := run false
        (Scenarios.S3_prepares ++ [NotifySnapshotEndReceived 12])
        (new Scenarios.memoryVb) in
      let pdm' := run false [VbPersisted 12; NotifyLocalPersistence] pdm in
      (getHighPreparedSeqno pdm, seqnoAcksSent (vb pdm)) = (5, [5])
      /\ map getBySeqno (pendingPrepares (state pdm)) = [8; 12]
      /\ (getHighPreparedSeqno pdm', seqnoAcksSent (vb pdm')) = (12, [12; 5])).
Proof.
  split; [|repeat split; reflexivity].
  intros persistenceSeqno s snapshotEnd pre blocker rest
    Hmem Hpers Hp Hpre Hlevel Hin hps reached.
  assert (Hd : isDisk snapshotEnd = false)
    by (unfold isDisk; rewrite Hmem; reflexivity).
  assert (Hnp : fullyPersisted persistenceSeqno snapshotEnd = false)
    by (apply Z.leb_gt; exact Hpers).
  assert (Hcan : Forall (fun w =>
            canAdvanceOver (seqno snapshotEnd)
              (maxLevelCanAdvanceOver
                 (fullyPersisted persistenceSeqno snapshotEnd)
                 (isDisk snapshotEnd)) w = true) pre).
  { rewrite Hd, Hnp. cbn [maxLevelCanAdvanceOver negb].
    eapply Forall_impl; [exact Hpre|]. cbn. intros w [Hw Hwin].
    unfold canAdvanceOver. apply andb_true_intro.
    split; [apply Z.leb_le; exact Hwin|].
    destruct Hw as [-> | ->]; reflexivity. }
  assert (Hpass : ascendingFrom hps pre ->
            processSnapshotEnd persistenceSeqno snapshotEnd s
            = (Returned false, reached pre)).
  { intros Hasc.
    rewrite (processSnapshotEnd_run persistenceSeqno snapshotEnd s pre
               (blocker :: rest)); try assumption.
    - rewrite Hd, Hnp. cbn [negb andb orb headInSnapshot].
      apply Z.leb_le in Hin. rewrite Hin. reflexivity.
    - rewrite Hd, Hnp. cbn. unfold canAdvanceOver. rewrite Hlevel.
      apply andb_false_r. }
  split; [|split].
  - intros Hasc. pose proof (Hpass Hasc) as Hstep.
    assert (Hseq : lastWriteSeqno (highPreparedSeqno (reached pre))
                   = seqnoAfter pre hps)
      by apply positionAfter_lastWriteSeqno.
    split; [exact Hstep|]. split; [exact Hseq|].
    split; [apply pendingPrepares_positionAfter; exact Hp|].
    intros q Hq.
    rewrite (updateHighPreparedSeqno_blocked _ _ _ _ _ Hq Hstep).
    destruct (_ =? _).
    + exists (reached pre). split; [reflexivity|]. split; [exact Hseq|exact Hq].
    + rewrite checkForAndRemovePrepares_eq.
      eexists. split; [reflexivity|]. split; [exact Hseq|exact Hq].
  - intros Hempty q Hq. subst pre.
    pose proof (Hpass (ascendingFrom_nil hps)) as Hstep.
    assert (Hsame : reached [] = s) by apply set_highPreparedSeqno_same.
    rewrite Hsame in Hstep.
    rewrite (updateHighPreparedSeqno_blocked _ _ _ _ _ Hq Hstep).
    rewrite Z.eqb_refl. reflexivity.
  - intros Hnot.
    destruct (first_descent hps pre)
      as [Hasc|(pre1 & w & pre2 & Hsplit & Hasc & Hlt)]; [contradiction|].
    exists pre1, w, pre2.
    split; [exact Hsplit|]. split; [exact Hasc|]. split; [exact Hlt|].
    assert (Hstep : processSnapshotEnd persistenceSeqno snapshotEnd s
                    = (Thrown monotonicFailure, reached pre1)).
    { rewrite Hsplit in Hp, Hcan. rewrite <- app_assoc in Hp.
      apply Forall_app in Hcan as [Hcan1 Hcan2].
      apply Forall_cons in Hcan2 as [Hw _].
      apply (processSnapshotEnd_descent _ _ _ _ _ _ Hp Hcan1 Hw Hasc Hlt). }
    split; [exact Hstep|].
    intros q Hq.
    apply (updateHighPreparedSeqno_front_throws _ _ _ _ _ _ Hq Hstep).
Qed.

Lemma memory_snapshot_persist_to_majority_fence_witness :
  let s := set_receivedSnapshotEnds [mkSnapshotEnd 12 Memory]
             (state (run false Scenarios.S3_prepares (new Scenarios.memoryVb))) in
  let s1 := set_highPreparedSeqno (mkPosition (Some 0%nat) 5) s in
  processSnapshotEnd 0 (mkSnapshotEnd 12 Memory) s = (Returned false, s1)
  /\ map getBySeqno (pendingPrepares s1) = [8; 12]
  /\ (exists s',
        updateHighPreparedSeqno 0 s = (Returned tt, s')
        /\ lastWriteSeqno (highPreparedSeqno s') = 5
        /\ receivedSnapshotEnds s' = [mkSnapshotEnd 12 Memory])
  /\ fst (updateHighPreparedSeqno 0
            (set_receivedSnapshotEnds [mkSnapshotEnd 10 Memory]
               (state OverwrittenUnderHps.memoryMonitor)))
     = Thrown (logic_error "Monotonic invariant failed").
Proof.
  intros s s1.
  destruct (proj1 memory_snapshot_persist_to_majority_fence 0 s
              (mkSnapshotEnd 12 Memory)
              [newSyncWrite (Scenarios.prepare Scenarios.k1 5 Level.Majority)]
              (newSyncWrite (Scenarios.prepare Scenarios.k2 8
                               Level.PersistToMajority))
              [newSyncWrite (Scenarios.prepare Scenarios.k3 12 Level.Majority)])
    as (Hin_order & _ & _).
  - reflexivity.
  - vm_compute. reflexivity.
  - reflexivity.
  - constructor; [|constructor]. split; [left; reflexivity|].
    vm_compute. discriminate.
  - reflexivity.
  - vm_compute. discriminate.
  - destruct Hin_order as (Hstep & _ & Hpending & Hupdate).
    + change (StronglySorted Z.le [0; 5]). repeat constructor. lia.
    + split; [exact Hstep|].
      split; [change (pendingPrepares s1) with
                (pendingPrepares
                   (set_highPreparedSeqno
                      (positionAfter (nextIndex (it (highPreparedSeqno s)))
                         [newSyncWrite
                            (Scenarios.prepare Scenarios.k1 5 Level.Majority)]
                         (highPreparedSeqno s)) s));
              rewrite Hpending; reflexivity|].
      split; [exact (Hupdate [] eq_refl)|].
      destruct (proj1 memory_snapshot_persist_to_majority_fence 0
                  (set_receivedSnapshotEnds [mkSnapshotEnd 10 Memory]
                     (state OverwrittenUnderHps.memoryMonitor))
                  (mkSnapshotEnd 10 Memory)
                  [newSyncWrite
                     (Scenarios.prepare Scenarios.k1 5 Level.Majority);
                   newSyncWrite
                     (Scenarios.prepare Scenarios.k2 9 Level.Majority)]
                  (newSyncWrite (Scenarios.prepare Scenarios.k3 10
                                   Level.PersistToMajority))
                  [])
        as (_ & _ & Htrap).
      * reflexivity.
      * vm_compute. reflexivity.
      * reflexivity.
      * constructor; [|constructor; [|constructor]];
          (split; [left; reflexivity|vm_compute; discriminate]).
      * reflexivity.
      * vm_compute. discriminate.
      * destruct Htrap as (pre1 & w & pre2 & _ & _ & _ & _ & Hupdate').
        -- intros Hasc. apply StronglySorted_inv in Hasc as [_ Hall].
           apply Forall_inv in Hall. vm_compute in Hall.
           apply Hall. reflexivity.
        -- rewrite (Hupdate' [] eq_refl). reflexivity.
Defined.

(** ** A fully persisted disk snapshot *)




